(** * usdb_syncer: chart format, directory allocation, sync store and
      download pipeline

    A shallow embedding of the parts of the repository that its
    specification makes claims about:

    - [src/usdb_syncer/notes_parser.py]: the UltraStar txt parser and
      serializer ([Note], [Line], [PlayerNotes], [Headers], [SongTxt]);
    - [src/usdb_syncer/utils.py]: [sanitize_filename], [DirectoryCache]
      and [next_unique_directory];
    - [src/usdb_syncer/db/__init__.py]: [_validate_schema] and
      [SearchBuilder];
    - [src/usdb_dl/song_loader.py]: the duet reassignment and the audio
      stage of [SongLoader.run];
    - [src/usdb_dl/usdb_dl.py]: the padded song id of [Worker.run].

    Conventions.  Python [str] values are lists of 8-bit characters
    ([text]), that is, the strings of code points below 256; Python [int]
    is [Z]; Python [float] is a binary64 number ([spec_float]) where the
    sources compute with it and a parameter where they only convert it;
    a function that may raise returns a sum whose left side is the
    exception; the logger is the list of records a call emits, in order;
    a list argument that the source mutates is returned as the remaining
    list. *)

From Stdlib Require Import ZArith NArith List Ascii String QArith Bool Lia.
From Stdlib Require SpecFloat.
From stdpp Require Import gmap strings list.
Import ListNotations.

Local Open Scope Z_scope.
Local Open Scope list_scope.

(* ===================================================================== *)
(** * Text: the [str] methods the sources use *)
(* ===================================================================== *)

Module Text.

Abbreviation text := (list ascii).

(** A string literal as a [text]. *)
Definition T (s : string) : text := list_ascii_of_string s.

Definition ascii_eqb (a b : ascii) : bool := Ascii.eqb a b.

Fixpoint text_eqb (a b : text) : bool :=
  match a, b with
  | [], [] => true
  | x :: a', y :: b' => ascii_eqb x y && text_eqb a' b'
  | _, _ => false
  end.

Definition code (c : ascii) : N := N_of_ascii c.

Definition LF : ascii := ascii_of_N 10.

(** [str.isspace] on one character, for the code points below 256. *)
Definition isspace (c : ascii) : bool :=
  let n := code c in
  ((9 <=? n) && (n <=? 13) || (28 <=? n) && (n <=? 32)
   || (n =? 133) || (n =? 160))%N.

(** [\d] and the digits [int()] reads.  Among the code points below
    256 the decimal digits are the ten ASCII digits (the superscripts
    at 178, 179 and 185 are no decimal digits); the decimal digits of
    other scripts, which [\d] and [int()] take as well, are outside
    [text]. *)
Definition isdigit (c : ascii) : bool :=
  let n := code c in ((48 <=? n) && (n <=? 57))%N.

Definition digit_val (c : ascii) : Z := Z.of_N (code c) - 48.

(** [s.startswith(p)] *)
Fixpoint startswith (p s : text) : bool :=
  match p, s with
  | [], _ => true
  | x :: p', y :: s' => ascii_eqb x y && startswith p' s'
  | _ :: _, [] => false
  end.

(** [s.endswith(p)] *)
Definition endswith (p s : text) : bool := startswith (rev p) (rev s).

(** [s.removeprefix(p)] *)
Definition removeprefix (p s : text) : text :=
  if startswith p s then drop (length p) s else s.

(** [s.lstrip(chars)] with the characters to strip given as a test. *)
Fixpoint lstrip_by (p : ascii -> bool) (s : text) : text :=
  match s with
  | c :: s' => if p c then lstrip_by p s' else s
  | [] => []
  end.

Definition rstrip_by (p : ascii -> bool) (s : text) : text :=
  rev (lstrip_by p (rev s)).

(** [s.lstrip()], [s.rstrip()] and [s.strip()]. *)
Definition lstrip : text -> text := lstrip_by isspace.
Definition rstrip : text -> text := rstrip_by isspace.
Definition strip (s : text) : text := lstrip (rstrip s).

(** [c in s] for a one-character [c]. *)
Definition contains (c : ascii) (s : text) : bool := existsb (ascii_eqb c) s.

(** [s.replace(old, new)] for a one-character [old]. *)
Definition replace (old : ascii) (new : text) (s : text) : text :=
  flat_map (fun c => if ascii_eqb c old then new else [c]) s.

(** [s.split(sep)] for a one-character [sep]: never empty. *)
Fixpoint split (sep : ascii) (s : text) : list text :=
  match s with
  | [] => [[]]
  | c :: s' =>
      if ascii_eqb c sep then [] :: split sep s'
      else match split sep s' with
           | w :: ws => (c :: w) :: ws
           | [] => [[c]]
           end
  end.

(** [s.split(sep, maxsplit=n)] for a one-character [sep]. *)
Fixpoint split_max (sep : ascii) (n : nat) (s : text) : list text :=
  match n with
  | O => [s]
  | S n' =>
      (fix go (s : text) : list text :=
         match s with
         | [] => [[]]
         | c :: s' =>
             if ascii_eqb c sep then [] :: split_max sep n' s'
             else match go s' with
                  | w :: ws => (c :: w) :: ws
                  | [] => [[c]]
                  end
         end) s
  end.

(** [sep.join(parts)] *)
Fixpoint join (sep : text) (parts : list text) : text :=
  match parts with
  | [] => []
  | [p] => p
  | p :: ps => p ++ sep ++ join sep ps
  end.

(** [s.lower()] and [s.upper()] on the ASCII letters.  [lower] also maps
    the Latin-1 capitals as Python does; [upper] agrees with Python on
    7-bit text only, which is all the statements below apply it to. *)
Definition lower_char (c : ascii) : ascii :=
  let n := code c in
  if ((65 <=? n) && (n <=? 90)
      || (192 <=? n) && (n <=? 222) && negb (n =? 215))%N
  then ascii_of_N (n + 32) else c.

Definition upper_char (c : ascii) : ascii :=
  let n := code c in
  if ((97 <=? n) && (n <=? 122))%N then ascii_of_N (n - 32) else c.

Definition lower (s : text) : text := map lower_char s.
Definition upper (s : text) : text := map upper_char s.

Definition is_7bit (s : text) : bool := forallb (fun c => (code c <? 128)%N) s.

(** ** Decimal integers: [str(n)] and [int(s)] *)

Definition digit_char (d : N) : ascii := ascii_of_N (48 + d).

Fixpoint digits_of (fuel : nat) (n : N) (acc : text) : text :=
  let acc' := digit_char (n mod 10) :: acc in
  match fuel with
  | O => acc'
  | S fuel' => if (n / 10 =? 0)%N then acc' else digits_of fuel' (n / 10) acc'
  end.

Definition str_N (n : N) : text := digits_of (N.size_nat n) n [].

(** [str(n)] for an [int]. *)
Definition str_int (n : Z) : text :=
  match n with
  | Zneg p => T "-" ++ str_N (Npos p)
  | _ => str_N (Z.to_N n)
  end.

(** The value of a run of digits, most significant first. *)
Definition digits_val (ds : text) : Z :=
  fold_left (fun a c => 10 * a + digit_val c) ds 0.

(** Digits with single underscores allowed between them, as [int()]
    accepts: [None] when the text is not of that form. *)
Fixpoint underscored (prev_digit : bool) (s : text) (acc : text) : option text :=
  match s with
  | [] => if prev_digit then Some (rev acc) else None
  | c :: s' =>
      if isdigit c then underscored true s' (c :: acc)
      else if ascii_eqb c "_" && prev_digit then underscored false s' acc
      else None
  end.

(** [sys.int_info.default_max_str_digits]: [int(s)] raises [ValueError]
    for a text of more decimal digits, and so does [str(n)] for an
    integer of more. *)
Definition int_max_str_digits : N := 4300.

(** [str(n)] and [int] convert the integer: it has no more decimal
    digits than the limit.  [str_int] is [str] on these integers. *)
Definition int_digits_ok (n : Z) : bool :=
  (N.of_nat (length (str_N (Z.abs_N n))) <=? int_max_str_digits)%N.

(** The white space [int()] skips around a number.  Below 128 these are
    the characters of C's [isspace], tab to carriage return and the
    space; the separators 28 to 31, which [str.isspace] takes, are not
    among them.  Above, [int()] takes what [str.isspace] takes. *)
Definition int_isspace (c : ascii) : bool :=
  let n := code c in
  ((9 <=? n) && (n <=? 13) || (n =? 32) || (n =? 133) || (n =? 160))%N.

Definition int_strip (s : text) : text :=
  lstrip_by int_isspace (rstrip_by int_isspace s).

(** [int(s)]: surrounding whitespace, one optional sign, decimal digits
    with optional single underscores, and no more digits than
    [int_max_str_digits].  [None] is [ValueError]. *)
Definition int_of_text (s : text) : option Z :=
  let body := int_strip s in
  let '(neg, ds) :=
    match body with
    | c :: r => if ascii_eqb c "-" then (true, r)
                else if ascii_eqb c "+" then (false, r) else (false, body)
    | [] => (false, [])
    end in
  match underscored false ds [] with
  | Some digits =>
      if (N.of_nat (length digits) <=? int_max_str_digits)%N
      then Some (if neg then - digits_val digits else digits_val digits)
      else None
  | None => None
  end.

(** Python truthiness of an optional string: [None] and [""] are false. *)
Definition truthy (o : option text) : bool :=
  match o with Some (_ :: _) => true | _ => false end.

End Text.


(* ===================================================================== *)
(** * Regex: the fragment of [re] the parser's patterns are written in *)
(* ===================================================================== *)

Module Regex.
Import Text.

(** A pattern item that matches one character. *)
Inductive cclass : Type :=
| Chr (c : ascii)     (* a literal character *)
| Digit               (* \d *)
| Dot.                (* .  : anything but a newline *)

Definition cmatch (cl : cclass) (c : ascii) : bool :=
  match cl with
  | Chr x => ascii_eqb x c
  | Digit => isdigit c
  | Dot => negb (ascii_eqb c LF)
  end.

Inductive regex : Type :=
| One (cl : cclass)               (* one character *)
| Seq (a b : regex)               (* ab *)
| Alt (a b : regex)               (* a|b, left first *)
| Opt (a : regex)                 (* a?, greedy *)
| Many (cl : cclass)              (* c*, greedy *)
| Group (n : nat) (a : regex).    (* (a), the n-th group *)

(** [c+] is [cc*]. *)
Definition Many1 (cl : cclass) : regex := Seq (One cl) (Many cl).

(** The groups that took part in the match, by number. *)
Abbreviation groups := (gmap nat text).

(** Greedy repetition of one character class: the longest run first,
    giving characters back one at a time while the rest fails. *)
Fixpoint many {R} (p : ascii -> bool) (s : text) (k : text -> option R) : option R :=
  match s with
  | c :: s' =>
      if p c then match many p s' k with
                  | Some r => Some r
                  | None => k s
                  end
      else k s
  | [] => k s
  end.

(** The backtracking matcher: [k] is the rest of the pattern. *)
Fixpoint run (r : regex) (s : text) (g : groups)
    (k : text -> groups -> option groups) : option groups :=
  match r with
  | One cl =>
      match s with
      | c :: s' => if cmatch cl c then k s' g else None
      | [] => None
      end
  | Seq a b => run a s g (fun s' g' => run b s' g' k)
  | Alt a b =>
      match run a s g k with
      | Some r => Some r
      | None => run b s g k
      end
  | Opt a =>
      match run a s g k with
      | Some r => Some r
      | None => k s g
      end
  | Many cl => many (cmatch cl) s (fun s' => k s' g)
  | Group n a =>
      run a s g (fun s' g' => k s' (<[n := take (length s - length s') s]> g'))
  end.

(** [re.compile(r).fullmatch(s)]: the groups, or [None]. *)
Definition fullmatch (r : regex) (s : text) : option groups :=
  run r s ∅ (fun s' g => match s' with [] => Some g | _ :: _ => None end).

(** [match.group(n)] *)
Definition group (m : groups) (n : nat) : option text := m !! n.

Declare Scope regex_scope.
Delimit Scope regex_scope with re.
Bind Scope regex_scope with regex.
Notation "a ;; b" := (Seq a b) : regex_scope.
Notation "a || b" := (Alt a b) : regex_scope.

End Regex.

(* ===================================================================== *)
(** * notes_parser.py *)
(* ===================================================================== *)

Module NotesParser.
Import Text Regex.

(** The records a [Logger] receives. *)
Inductive log_record : Type :=
| Warning (msg : text).

Abbreviation log := (list log_record).

(** [NotesParseError(msg)] on the left. *)
Abbreviation raises A := (sum text A).

Inductive NoteKind : Type := REGULAR | GOLDEN | FREESTYLE | RAP | GOLDEN_RAP.

(** [NoteKind.value] *)
Definition NoteKind_value (k : NoteKind) : text :=
  match k with
  | REGULAR => T ":"
  | GOLDEN => T "*"
  | FREESTYLE => T "F"
  | RAP => T "R"
  | GOLDEN_RAP => T "G"
  end.

(** [NoteKind(value)]: [None] is [ValueError]. *)
Definition NoteKind_of (v : text) : option NoteKind :=
  if text_eqb v (T ":") then Some REGULAR
  else if text_eqb v (T "*") then Some GOLDEN
  else if text_eqb v (T "F") then Some FREESTYLE
  else if text_eqb v (T "R") then Some RAP
  else if text_eqb v (T "G") then Some GOLDEN_RAP
  else None.

Record Note : Type := mkNote {
  kind : NoteKind;
  start : Z;
  duration : Z;
  pitch : Z;
  text_ : text
}.

(** [(:|\*|F|R|G):? +(-?\d+) +(\d+) +(-?\d+) (.+)] *)
Definition note_regex : regex :=
  (Group 1 (One (Chr ":") || One (Chr "*") || One (Chr "F")
            || One (Chr "R") || One (Chr "G")) ;;
   Opt (One (Chr ":")) ;; Many1 (Chr " ") ;;
   Group 2 (Opt (One (Chr "-")) ;; Many1 Digit) ;; Many1 (Chr " ") ;;
   Group 3 (Many1 Digit) ;; Many1 (Chr " ") ;;
   Group 4 (Opt (One (Chr "-")) ;; Many1 Digit) ;; One (Chr " ") ;;
   Group 5 (Many1 Dot))%re.

Definition invalid_note (value : text) : text :=
  T "invalid note: '" ++ value ++ T "'".

(** [Note.parse] *)
Definition Note_parse (value : text) : raises Note :=
  match fullmatch note_regex value with
  | None => inl (invalid_note value)
  | Some m =>
      match group m 5,
            group m 1 ≫= NoteKind_of,
            group m 2 ≫= int_of_text,
            group m 3 ≫= int_of_text,
            group m 4 ≫= int_of_text with
      | Some text, Some kind, Some start, Some duration, Some pitch =>
          inr (mkNote kind start duration pitch text)
      | _, _, _, _, _ => inl (invalid_note value)
      end
  end.

(** [Note.__str__] *)
Definition Note_str (n : Note) : text :=
  NoteKind_value (kind n) ++ T " " ++ str_int (start n) ++ T " "
  ++ str_int (duration n) ++ T " " ++ str_int (pitch n) ++ T " " ++ text_ n.

(** [int | tuple[int, int]]; the field of [Line] is an [option] of it. *)
Inductive LineBreak : Type :=
| Bare (beat : Z)
| Paired (prev_end next_start : Z).

Record Line : Type := mkLine {
  notes : list Note;
  line_break : option LineBreak
}.

(** [- *(-?\d+) *(-?\d+)? *(.+)?] *)
Definition line_break_regex : regex :=
  (One (Chr "-") ;; Many (Chr " ") ;;
   Group 1 (Opt (One (Chr "-")) ;; Many1 Digit) ;; Many (Chr " ") ;;
   Opt (Group 2 (Opt (One (Chr "-")) ;; Many1 Digit)) ;; Many (Chr " ") ;;
   Opt (Group 3 (Many1 Dot)))%re.

Definition invalid_line_break (value : text) : text :=
  T "invalid line break: '" ++ value ++ T "'".

(** What a call raises: [NotesParseError(msg)], or the [ValueError] of
    an [int()] that is in no [try]. *)
Inductive exn : Type :=
| NotesParseError (msg : text)
| ValueError.

(** What a call that only [ValueError] can leave early ends with. *)
Inductive outcome (A : Type) : Type :=
| Returns (a : A)
| RaisesValueError.
Arguments Returns {A} a.
Arguments RaisesValueError {A}.

(** [_parse_line_break]: the break and the rest of the line, if any. *)
Definition _parse_line_break (value : text) : exn + (LineBreak * option text) :=
  match fullmatch line_break_regex value with
  | None => inl (NotesParseError (invalid_line_break value))
  | Some m =>
      if truthy (group m 2) then
        match group m 1 ≫= int_of_text, group m 2 ≫= int_of_text with
        | Some b1, Some b2 => inr (Paired b1 b2, group m 3)
        | _, _ => inl ValueError
        end
      else
        match group m 1 ≫= int_of_text with
        | Some b1 => inr (Bare b1, group m 3)
        | None => inl ValueError
        end
  end.

(** [Line.parse]: consumes lines until a line or document terminator;
    [notes] are the notes read so far.  Returns the line and the lines
    left, or raises the [ValueError] of [_parse_line_break], with the
    warnings logged until then. *)
Fixpoint Line_parse_from (notes : list Note) (lines : list text)
    : outcome (Line * list text) * log :=
  match lines with
  | [] => (Returns (mkLine notes None, []), [Warning (T "unterminated line")])
  | l :: lines' =>
      let txt_line := lstrip l in
      if text_eqb (rstrip txt_line) (T "E") || text_eqb (rstrip txt_line) (T "P2")
      then (Returns (mkLine notes None, lines'), [])
      else if startswith (T "-") txt_line then
        match _parse_line_break txt_line with
        | inl (NotesParseError err) =>
            let '(r, lg) := Line_parse_from notes lines' in
            (r, Warning err :: lg)
        | inl ValueError => (RaisesValueError, [])
        | inr (lb, next_line) =>
            (Returns (mkLine notes (Some lb),
                      match next_line with
                      | Some (c :: t) => (c :: t) :: lines'
                      | _ => lines'
                      end),
             [])
        end
      else
        match Note_parse txt_line with
        | inl err =>
            let '(r, lg) := Line_parse_from notes lines' in
            (r, Warning err :: lg)
        | inr n => Line_parse_from (notes ++ [n]) lines'
        end
  end.

Definition Line_parse (lines : list text) : outcome (Line * list text) * log :=
  Line_parse_from [] lines.

(** [Line.is_last] *)
Definition is_last (l : Line) : bool :=
  match line_break l with None => true | Some _ => false end.

(** [Line._line_break_str] *)
Definition _line_break_str (l : Line) : option text :=
  match line_break l with
  | None => None
  | Some (Bare b) => Some (T "- " ++ str_int b)
  | Some (Paired a b) => Some (T "- " ++ str_int a ++ T " " ++ str_int b)
  end.

(** [Line.__str__] *)
Definition Line_str (l : Line) : text :=
  let out := join [LF] (map Note_str (notes l)) in
  match _line_break_str l with
  | Some (c :: lb) => out ++ [LF] ++ c :: lb
  | _ => out
  end.

Record PlayerNotes : Type := mkPlayerNotes {
  player_1 : list Line;
  player_2 : option (list Line)
}.

(** [notes[-1].line_break = None] on a non-empty list. *)
Fixpoint clear_last_break (ls : list Line) : list Line :=
  match ls with
  | [] => []
  | [l] => [mkLine (notes l) None]
  | l :: ls' => l :: clear_last_break ls'
  end.

(** The [while lines] loop of [_player_lines]; [None] when [fuel] runs
    out before the loop ends. *)
Fixpoint _player_lines_loop (fuel : nat) (acc : list Line) (lines : list text)
    : option (outcome (list Line * list text) * log) :=
  match lines with
  | [] => Some (Returns (acc, []), [])
  | _ :: _ =>
      match fuel with
      | O => None
      | S fuel' =>
          match Line_parse lines with
          | (RaisesValueError, lg) => Some (RaisesValueError, lg)
          | (Returns (line, rest), lg) =>
              let acc' :=
                match notes line with [] => acc | _ :: _ => acc ++ [line] end in
              if is_last line then Some (Returns (acc', rest), lg)
              else
                match _player_lines_loop fuel' acc' rest with
                | Some (r, lg') => Some (r, lg ++ lg')
                | None => None
                end
          end
      end
  end.

(** Every call of [Line.parse] on a non-empty list lowers this. *)
Definition lines_measure (lines : list text) : nat :=
  fold_right (fun l n => (S (length l) + n)%nat) O lines.

(** [_player_lines] *)
Definition _player_lines (lines : list text)
    : option (outcome (list Line * list text) * log) :=
  let lines0 :=
    match lines with
    | l :: lines' => if startswith (T "P") l then lines' else lines
    | [] => lines
    end in
  match _player_lines_loop (lines_measure lines0) [] lines0 with
  | Some (Returns (notes, rest), lg) => Some (Returns (clear_last_break notes, rest), lg)
  | Some (RaisesValueError, lg) => Some (RaisesValueError, lg)
  | None => None
  end.

(** [PlayerNotes.parse] *)
Definition PlayerNotes_parse (lines : list text)
    : option (outcome (PlayerNotes * list text) * log) :=
  match _player_lines lines with
  | None => None
  | Some (RaisesValueError, lg1) => Some (RaisesValueError, lg1)
  | Some (Returns (p1, rest1), lg1) =>
      match _player_lines rest1 with
      | None => None
      | Some (RaisesValueError, lg2) => Some (RaisesValueError, lg1 ++ lg2)
      | Some (Returns (p2, rest2), lg2) =>
          Some (Returns (mkPlayerNotes p1 (match p2 with [] => None | _ :: _ => Some p2 end),
                         rest2),
                lg1 ++ lg2)
      end
  end.

(** [PlayerNotes.__str__] *)
Definition PlayerNotes_str (p : PlayerNotes) : text :=
  let body := join [LF] (map Line_str (player_1 p)) in
  let body :=
    match player_2 p with
    | Some (l :: ls) =>
        join [LF] ([T "P1"; body; T "P2"] ++ map Line_str (l :: ls))
    | _ => body
    end in
  body ++ [LF] ++ T "E".

(** ** Headers *)

(** Python's [float]: its constructor from a string ([None] is
    [ValueError]), its [str] and the literal [0.0]. *)
Class PyFloat : Type := {
  float : Type;
  float_of_text : text -> option float;
  float_str : float -> text;
  float_zero : float
}.

Section WithFloat.
Context `{PyFloat}.

(** What a header attribute holds. *)
Inductive value : Type :=
| VStr (s : text)
| VFloat (x : float)
| VInt (n : Z).

(** [f"{val}"] *)
Definition value_str (v : value) : text :=
  match v with
  | VStr s => s
  | VFloat x => float_str x
  | VInt n => str_int n
  end.

Record Headers : Type := mkHeaders {
  unknown : list (text * text);
  title : text;
  artist : text;
  bpm : float;
  gap : float;
  language : option text;
  edition : option text;
  genre : option text;
  album : option text;
  year : option text;
  creator : option text;
  mp3 : option text;
  cover : option text;
  background : option text;
  video : option text;
  videogap : option float;
  h_start : option float;
  h_end : option float;
  previewstart : option float;
  relative : option text;
  p1 : option text;
  p2 : option text;
  medleystartbeat : option Z;
  medleyendbeat : option Z;
  encoding : option text;
  comment : option text;
  resolution : option text
}.

(** [kwargs]: the attributes set so far, and [kwargs["unknown"]], a dict
    in insertion order. *)
Record Kwargs : Type := mkKwargs {
  kw_fields : gmap text value;
  kw_unknown : list (text * text)
}.

(** [d[key] = val] on an insertion-ordered dict. *)
Fixpoint dict_set (key val : text) (d : list (text * text)) : list (text * text) :=
  match d with
  | [] => [(key, val)]
  | (k, v) :: d' =>
      if text_eqb k key then (k, val) :: d' else (k, v) :: dict_set key val d'
  end.

Definition str_headers : list text :=
  map T ["title"; "artist"; "language"; "edition"; "genre"; "album"; "year";
         "creator"; "mp3"; "cover"; "background"; "relative"; "video"; "p1";
         "p2"; "encoding"; "comment"; "resolution"]%string.

Definition float_headers : list text :=
  map T ["bpm"; "gap"; "videogap"; "start"; "end"; "previewstart"]%string.

Definition int_headers : list text :=
  map T ["medleystartbeat"; "medleyendbeat"]%string.

Definition mem (k : text) (l : list text) : bool := existsb (text_eqb k) l.

(** [_set_header_value]: [None] is [ValueError]. *)
Definition _set_header_value (kwargs : Kwargs) (header val : text) : option Kwargs :=
  let header := if text_eqb header (T "AUTHOR") then T "creator" else lower header in
  if mem header str_headers then
    Some (mkKwargs (<[header := VStr val]> (kw_fields kwargs)) (kw_unknown kwargs))
  else if mem header float_headers then
    match float_of_text (replace "," (T ".") val) with
    | Some x => Some (mkKwargs (<[header := VFloat x]> (kw_fields kwargs)) (kw_unknown kwargs))
    | None => None
    end
  else if mem header int_headers then
    match int_of_text val with
    | Some n => Some (mkKwargs (<[header := VInt n]> (kw_fields kwargs)) (kw_unknown kwargs))
    | None => None
    end
  else
    Some (mkKwargs (kw_fields kwargs) (dict_set header val (kw_unknown kwargs))).

(** The [while lines] loop of [Headers.parse]. *)
Fixpoint Headers_parse_loop (kwargs : Kwargs) (lines : list text)
    : Kwargs * list text * log :=
  match lines with
  | [] => (kwargs, [], [])
  | l :: lines' =>
      if negb (startswith (T "#") l) then (kwargs, lines, [])
      else
        let line := removeprefix (T "#") l in
        if negb (contains ":" line) then
          let '(kw, rest, lg) := Headers_parse_loop kwargs lines' in
          (kw, rest, Warning (T "header without value: '" ++ line ++ T "'") :: lg)
        else
          match split_max ":" 1 line with
          | [header; val] =>
              match val with
              | [] => Headers_parse_loop kwargs lines'
              | _ :: _ =>
                  match _set_header_value kwargs header val with
                  | Some kw' => Headers_parse_loop kw' lines'
                  | None =>
                      let '(kw, rest, lg) := Headers_parse_loop kwargs lines' in
                      (kw, rest,
                       Warning (T "invalid header value: '" ++ line ++ T "'") :: lg)
                  end
              end
          | _ => Headers_parse_loop kwargs lines'
          end
  end.

Definition kw_str (kw : Kwargs) (k : string) : option text :=
  match kw_fields kw !! T k with Some (VStr s) => Some s | _ => None end.
Definition kw_float (kw : Kwargs) (k : string) : option float :=
  match kw_fields kw !! T k with Some (VFloat x) => Some x | _ => None end.
Definition kw_int (kw : Kwargs) (k : string) : option Z :=
  match kw_fields kw !! T k with Some (VInt n) => Some n | _ => None end.

(** The call of [cls] on [kwargs] once [title] and [artist] are known to be there. *)
Definition Headers_init (kw : Kwargs) (title artist : text) : Headers :=
  {| unknown := kw_unknown kw;
     title := title;
     artist := artist;
     bpm := default float_zero (kw_float kw "bpm");
     gap := default float_zero (kw_float kw "gap");
     language := kw_str kw "language";
     edition := kw_str kw "edition";
     genre := kw_str kw "genre";
     album := kw_str kw "album";
     year := kw_str kw "year";
     creator := kw_str kw "creator";
     mp3 := kw_str kw "mp3";
     cover := kw_str kw "cover";
     background := kw_str kw "background";
     video := kw_str kw "video";
     videogap := kw_float kw "videogap";
     h_start := kw_float kw "start";
     h_end := kw_float kw "end";
     previewstart := kw_float kw "previewstart";
     relative := kw_str kw "relative";
     p1 := kw_str kw "p1";
     p2 := kw_str kw "p2";
     medleystartbeat := kw_int kw "medleystartbeat";
     medleyendbeat := kw_int kw "medleyendbeat";
     encoding := kw_str kw "encoding";
     comment := kw_str kw "comment";
     resolution := kw_str kw "resolution" |}.

Definition kwargs0 : Kwargs := mkKwargs ∅ [].

Definition missing_title_artist : text :=
  T "cannot parse song without artist and title".

(** [Headers.parse]: the headers or [NotesParseError], with the lines
    left and the warnings. *)
Definition Headers_parse (lines : list text) : raises Headers * list text * log :=
  let '(kw, rest, lg) := Headers_parse_loop kwargs0 lines in
  match kw_fields kw !! T "title", kw_fields kw !! T "artist" with
  | Some _, Some _ =>
      (inr (Headers_init kw (default [] (kw_str kw "title"))
                            (default [] (kw_str kw "artist"))),
       rest,
       lg ++ match kw_fields kw !! T "bpm" with
             | None => [Warning (T "missing bpm")]
             | Some _ => []
             end)
  | _, _ => (inl missing_title_artist, rest, lg)
  end.

(** The attributes [Headers.__str__] writes, in its order. *)
Definition str_keys : list string :=
  ["artist"; "title"; "language"; "edition"; "year"; "genre"; "album";
   "creator"; "bpm"; "gap"; "videogap"; "start"; "end"; "previewstart";
   "medleystartbeat"; "medleyendbeat"; "mp3"; "video"; "cover";
   "background"; "p1"; "p2"; "relative"; "resolution"; "comment"]%string.

(** [getattr(self, key)], [None] when the attribute is [None]. *)
Definition getattr (h : Headers) (key : string) : option value :=
  (if String.eqb key "artist" then Some (VStr (artist h))
   else if String.eqb key "title" then Some (VStr (title h))
   else if String.eqb key "language" then VStr <$> language h
   else if String.eqb key "edition" then VStr <$> edition h
   else if String.eqb key "year" then VStr <$> year h
   else if String.eqb key "genre" then VStr <$> genre h
   else if String.eqb key "album" then VStr <$> album h
   else if String.eqb key "creator" then VStr <$> creator h
   else if String.eqb key "bpm" then Some (VFloat (bpm h))
   else if String.eqb key "gap" then Some (VFloat (gap h))
   else if String.eqb key "videogap" then VFloat <$> videogap h
   else if String.eqb key "start" then VFloat <$> h_start h
   else if String.eqb key "end" then VFloat <$> h_end h
   else if String.eqb key "previewstart" then VFloat <$> previewstart h
   else if String.eqb key "medleystartbeat" then VInt <$> medleystartbeat h
   else if String.eqb key "medleyendbeat" then VInt <$> medleyendbeat h
   else if String.eqb key "mp3" then VStr <$> mp3 h
   else if String.eqb key "video" then VStr <$> video h
   else if String.eqb key "cover" then VStr <$> cover h
   else if String.eqb key "background" then VStr <$> background h
   else if String.eqb key "p1" then VStr <$> p1 h
   else if String.eqb key "p2" then VStr <$> p2 h
   else if String.eqb key "relative" then VStr <$> relative h
   else if String.eqb key "resolution" then VStr <$> resolution h
   else if String.eqb key "comment" then VStr <$> comment h
   else if String.eqb key "encoding" then VStr <$> encoding h
   else None)%string.

(** [f"#{key.upper()}:{val}"] *)
Definition header_line (key val : text) : text :=
  T "#" ++ upper key ++ T ":" ++ val.

(** [Headers.__str__] *)
Definition Headers_str (h : Headers) : text :=
  let out :=
    join [LF]
      (omap (fun key => (fun v => header_line (T key) (value_str v)) <$> getattr h key)
            str_keys) in
  match unknown h with
  | [] => out
  | _ :: _ =>
      join [LF] (out :: map (fun kv => header_line (fst kv) (snd kv)) (unknown h))
  end.

(** [Headers.artist_title_str] *)
Definition artist_title_str (h : Headers) : text :=
  artist h ++ T " - " ++ title h.

(** ** SongTxt *)

(** [usdb_syncer.meta_tags.deserializer.MetaTags], which is not part of
    these sources: its type and its constructor from the [#VIDEO] value,
    with the warnings it logs. *)
Class MetaTagsDeserializer : Type := {
  MetaTags : Type;
  MetaTags_new : text -> MetaTags * log
}.

Context `{MetaTagsDeserializer}.

Record SongTxt : Type := mkSongTxt {
  headers : Headers;
  notes_ : PlayerNotes;
  meta_tags : MetaTags
}.

(** [SongTxt.__str__] *)
Definition SongTxt_str (s : SongTxt) : text :=
  Headers_str (headers s) ++ [LF] ++ PlayerNotes_str (notes_ s).

(** [[line for line in value.split("\n") if line]] *)
Definition nonempty_lines (v : text) : list text :=
  filter (fun l => l ≠ []) (split LF v).

(** Python's [str] of a list of [str], which the last warning of
    [try_parse] formats the lines left with. *)
Class PyRepr : Type := {
  list_str : list text -> text
}.

Context `{PyRepr}.

(** [SongTxt.try_parse]: the outer [option] is [None] only if the loop
    of [_player_lines] ran out of fuel; the [option] inside [Returns] is
    the function's own [Optional].  [NotesParseError] is caught, the
    [ValueError] of [_parse_line_break] is not. *)
Definition try_parse (v : text) : option (outcome (option SongTxt) * log) :=
  let lines := nonempty_lines v in
  match Headers_parse lines with
  | (inl _, _, lg) => Some (Returns None, lg)
  | (inr hd, rest, lg) =>
      let '(mt, lg_mt) := MetaTags_new (default [] (video hd)) in
      match PlayerNotes_parse rest with
      | None => None
      | Some (RaisesValueError, lg') => Some (RaisesValueError, lg ++ lg_mt ++ lg')
      | Some (Returns (pn, rest'), lg') =>
          Some (Returns (Some (mkSongTxt hd pn mt)),
                lg ++ lg_mt ++ lg'
                ++ match rest' with
                   | [] => []
                   | _ :: _ =>
                       [Warning (T "trailing text in song txt: '"
                                 ++ list_str rest' ++ T "'")]
                   end)
      end
  end.

End WithFloat.

End NotesParser.

(* ===================================================================== *)
(** * utils.py *)
(* ===================================================================== *)

Module Utils.
Import Text.

(** ** sanitize_filename *)

Definition dquote : ascii := ascii_of_N 34.

(** [FILENAME_REPLACEMENTS] *)
Definition FILENAME_REPLACEMENTS : list (text * text) :=
  [(T "?:" ++ [dquote], T ""); (T "<", T "("); (T ">", T ")"); (T "/\|*", T "-")].

(** [sanitize_filename] *)
Definition sanitize_filename (fname : text) : text :=
  let fname :=
    fold_left
      (fun fname '(old, new) =>
         fold_left (fun fname char => replace char new fname) old fname)
      FILENAME_REPLACEMENTS fname in
  if endswith (T ".") fname
  then rstrip_by (fun c => ascii_eqb c " " || ascii_eqb c ".") fname
  else fname.

(** ** DirectoryCache and next_unique_directory *)

(** A [pathlib.Path]: its anchor and its components; the name is the
    last component, and is empty when there is none. *)
Record Path : Type := mkPath {
  anchor : text;
  segments : list text
}.

#[global] Instance Path_eq_dec : EqDecision Path.
Proof. solve_decision. Defined.

#[global] Instance Path_countable : Countable Path.
Proof.
  refine (inj_countable' (fun p => (anchor p, segments p))
                         (fun q => mkPath (fst q) (snd q)) _).
  intros []; reflexivity.
Defined.

(** [path.name] *)
Definition name (p : Path) : text := List.last (segments p) [].

(** [path.with_name(n)]: [None] is the [ValueError] for a path with an
    empty name. *)
Definition with_name (p : Path) (n : text) : option Path :=
  match segments p with
  | [] => None
  | _ :: _ => Some (mkPath (anchor p) (removelast (segments p) ++ [n]))
  end.

(** [CACHE_LIFETIME], an [int] *)
Definition CACHE_LIFETIME : Z := 60 * 60.

(** Python's [float], the binary64 numbers, with the addition and the
    comparison the sources use and the conversion of an [int] that takes
    part in them. *)
Abbreviation float64 := SpecFloat.spec_float.

Definition float_add (x y : float64) : float64 := SpecFloat.SFadd 53 1024 x y.

Definition float_ltb (x y : float64) : bool := SpecFloat.SFltb x y.

Definition float_of_int (n : Z) : float64 := SpecFloat.binary_normalize 53 1024 n 0 false.

(** [cls._cache.get(path, 0) + CACHE_LIFETIME < now], the test of
    [DirectoryCache.insert], on the entry of the path if there is one:
    an entry is a [float] and the sum is rounded; without an entry both
    the sum and the comparison are with the [int] 3600, which is a
    [float] as it is. *)
Definition lifetime_over (entry : option float64) (now : float64) : bool :=
  match entry with
  | Some stamp => float_ltb (float_add stamp (float_of_int CACHE_LIFETIME)) now
  | None => float_ltb (float_of_int (0 + CACHE_LIFETIME)) now
  end.

(** What the allocation reads and writes: the class attribute
    [DirectoryCache._cache], the clock ([clock n] is what the [n]-th call
    of [time.time()] returns, [ticks] the calls made so far) and the
    file system as [Path.exists] sees it. *)
Record World : Type := mkWorld {
  _cache : gmap Path float64;
  clock : nat -> float64;
  ticks : nat;
  on_disk : Path -> bool
}.

(** [DirectoryCache.insert] *)
Definition DirectoryCache_insert (path : Path) (w : World) : bool * World :=
  let now := clock w (ticks w) in
  let w := mkWorld (_cache w) (clock w) (S (ticks w)) (on_disk w) in
  if lifetime_over (_cache w !! path) now
  then (true, mkWorld (<[path := now]> (_cache w)) (clock w) (ticks w) (on_disk w))
  else (false, w).

Inductive alloc_result : Type :=
| Allocated (out_path : Path) (w : World)
| ValueError
| OutOfFuel.

(** The [while] loop of [next_unique_directory]. *)
Fixpoint next_unique_directory_loop (fuel : nat) (path out_path : Path)
    (suffix : Z) (w : World) : alloc_result :=
  match fuel with
  | O => OutOfFuel
  | S fuel' =>
      let '(fresh, w) := DirectoryCache_insert out_path w in
      if negb fresh || on_disk w out_path then
        let suffix := suffix + 1 in
        match with_name path (name path ++ T " (" ++ str_int suffix ++ T ")") with
        | Some out_path => next_unique_directory_loop fuel' path out_path suffix w
        | None => ValueError
        end
      else Allocated out_path w
  end.

(** [next_unique_directory], with a bound on the rounds of its loop. *)
Definition next_unique_directory (fuel : nat) (path : Path) (w : World) : alloc_result :=
  next_unique_directory_loop fuel path path 0 w.

End Utils.

(* ===================================================================== *)
(** * db/__init__.py *)
(* ===================================================================== *)

Module Db.
Import Text.

Definition SCHEMA_VERSION : Z := 1.

(** ** The store, as [_validate_schema] sees it *)

(** What a column of a row fetched by [sqlite3] holds. *)
Inductive sql_value : Type :=
| SqlNull
| SqlInt (n : Z)
| SqlReal (x : Q)
| SqlText (s : text)
| SqlBlob (b : text).

Record Table : Type := mkTable {
  columns : list string;
  rows : list (gmap string sql_value)
}.

(** The tables of the database file, by name. *)
Abbreviation Store := (gmap string Table).

Inductive db_error : Type :=
| UnknownSchemaError
| OperationalError.

(** Modelled from the spec: [setup_script.sql], which [_SqlCache] reads
    and which is not among the sources.  It creates the tables of the
    logical schema and the full-text index, all empty. *)
Definition setup_tables : list (string * list string) :=
  [("meta", ["id"; "version"; "ctime"]);
   ("usdb_song", ["song_id"; "artist"; "title"; "language"; "edition";
                  "golden_notes"; "rating"; "views"]);
   ("sync_meta", ["sync_meta_id"; "song_id"; "path"; "mtime"; "meta_tags";
                  "pinned"]);
   ("resource_file", ["sync_meta_id"; "kind"; "fname"; "mtime"; "resource"]);
   ("active_sync_meta", ["song_id"; "sync_meta_id"]);
   ("fts_usdb_song", ["artist"; "title"; "edition"; "language"])]%string.

Definition setup_script (db : Store) : Store :=
  fold_left (fun db '(name, cols) => <[name := mkTable cols []]> db)
            setup_tables db.

(** [row[0] != SCHEMA_VERSION] *)
Definition differs_from_version (v : sql_value) : bool :=
  match v with
  | SqlInt n => negb (n =? SCHEMA_VERSION)
  | SqlReal x => negb (Qeq_bool x (inject_Z SCHEMA_VERSION))
  | _ => true
  end.

(** [INSERT INTO t (cols) VALUES (vals)] *)
Definition insert_row (t : string) (row : gmap string sql_value) (db : Store)
    : db_error + Store :=
  match db !! t with
  | Some tb => inr (<[t := mkTable (columns tb) (rows tb ++ [row])]> db)
  | None => inl OperationalError
  end.

(** [_validate_schema]; [now] is [int(time.time() * 1_000_000)].
    Returns the error raised, if any, and the store afterwards. *)
Definition _validate_schema (now : Z) (db : Store) : option db_error * Store :=
  match db !! "meta"%string with
  | None =>
      let db := setup_script db in
      match insert_row "meta"
              {[ "id"%string := SqlInt 1; "version"%string := SqlInt SCHEMA_VERSION;
                 "ctime"%string := SqlInt now ]} db with
      | inr db => (None, db)
      | inl e => (Some e, db)
      end
  | Some meta =>
      if bool_decide ("version"%string ∈ columns meta) then
        match rows meta with
        | [] => (Some UnknownSchemaError, db)
        | row :: _ =>
            if differs_from_version (default SqlNull (row !! "version"%string))
            then (Some UnknownSchemaError, db)
            else (None, db)
        end
      else (Some OperationalError, db)
  end.

(** ** SearchBuilder *)

Inductive SongOrder : Type :=
| NONE | SONG_ID | ARTIST | TITLE | EDITION | LANGUAGE | GOLDEN_NOTES
| RATING | VIEWS | PINNED | TXT | AUDIO | VIDEO | COVER | BACKGROUND
| SYNC_TIME.

(** [SongOrder.value] *)
Definition SongOrder_value (o : SongOrder) : option text :=
  match o with
  | NONE => None
  | SONG_ID => Some (T "usdb_song.song_id")
  | ARTIST => Some (T "usdb_song.artist")
  | TITLE => Some (T "usdb_song.title")
  | EDITION => Some (T "usdb_song.edition")
  | LANGUAGE => Some (T "usdb_song.language")
  | GOLDEN_NOTES => Some (T "usdb_song.golden_notes")
  | RATING => Some (T "usdb_song.rating")
  | VIEWS => Some (T "usdb_song.views")
  | PINNED => Some (T "sync_meta.pinned")
  | TXT => Some (T "txt.sync_meta_id IS NULL")
  | AUDIO => Some (T "audio.sync_meta_id IS NULL")
  | VIDEO => Some (T "video.sync_meta_id IS NULL")
  | COVER => Some (T "cover.sync_meta_id IS NULL")
  | BACKGROUND => Some (T "background.sync_meta_id IS NULL")
  | SYNC_TIME => Some (T "sync_meta.mtime")
  end.

Record SearchBuilder : Type := mkSearchBuilder {
  order : SongOrder;
  descending : bool;
  text_ : text;
  artists : list text;
  titles : list text;
  editions : list text;
  languages : list text;
  golden_notes : option bool;
  ratings : list Z;
  views : list (Z * option Z);
  downloaded : option bool
}.

(** [SearchBuilder()] *)
Definition SearchBuilder_default : SearchBuilder :=
  mkSearchBuilder NONE false [] [] [] [] [] None [] [] None.

(** [_in_values_clause] *)
Definition _in_values_clause {A} (attribute : text) (values : list A) : text :=
  attribute ++ T " IN (" ++ join (T ", ") (map (fun _ => T "?") values) ++ T ")".

(** [_in_ranges_clause] *)
Definition _in_ranges_clause (attribute : text) (values : list (Z * option Z)) : text :=
  join (T " OR ")
    (map (fun val : Z * option Z =>
            attribute ++ T " >= ?"
            ++ match snd val with
               | None => T ""
               | Some _ => T " AND " ++ attribute ++ T " < ?"
               end)
         values).

(** [_fts5_phrases] *)
Definition _fts5_phrases (txt : text) : text :=
  join (T " ")
    (map (fun s => [Utils.dquote] ++ s ++ [Utils.dquote])
         (filter (fun s => s ≠ []) (split " " (replace Utils.dquote (T "") txt)))).

Definition when {A} (b : bool) (x : A) : list A := if b then [x] else [].
Definition nonempty {A} (l : list A) : bool := match l with [] => false | _ => true end.

(** [SearchBuilder._filters] *)
Definition _filters (sb : SearchBuilder) : list text :=
  when (nonempty (_fts5_phrases (text_ sb))) (T "fts_usdb_song MATCH ?")
  ++ when (nonempty (artists sb)) (_in_values_clause (T "usdb_song.artist") (artists sb))
  ++ when (nonempty (titles sb)) (_in_values_clause (T "usdb_song.title") (titles sb))
  ++ when (nonempty (editions sb)) (_in_values_clause (T "usdb_song.edition") (editions sb))
  ++ when (nonempty (languages sb)) (_in_values_clause (T "usdb_song.language") (languages sb))
  ++ when (bool_decide (golden_notes sb ≠ None)) (T "usdb_song.golden_notes = ?")
  ++ when (nonempty (ratings sb)) (_in_values_clause (T "usdb_song.rating") (ratings sb))
  ++ when (nonempty (views sb)) (_in_ranges_clause (T "usdb_song.views") (views sb))
  ++ match downloaded sb with
     | None => []
     | Some d =>
         [T "sync_meta.sync_meta_id IS " ++ (if d then T "NOT " else T "") ++ T "NULL"]
     end.

(** [SearchBuilder._where_clause] *)
Definition _where_clause (sb : SearchBuilder) : text :=
  let where_ := join (T " AND ") (_filters sb) in
  if nonempty where_ then T " WHERE " ++ where_ else T "".

(** [SearchBuilder._order_by_clause] *)
Definition _order_by_clause (sb : SearchBuilder) : text :=
  match SongOrder_value (order sb) with
  | Some (c :: v) =>
      T " ORDER BY " ++ (c :: v) ++ T " "
      ++ (if descending sb then T "DESC" else T "ASC")
  | _ => T ""
  end.

(** The values bound to the [?] placeholders. *)
Inductive param : Type :=
| PStr (s : text)
| PInt (n : Z)
| PBool (b : bool).

(** [SearchBuilder.parameters] *)
Definition parameters (sb : SearchBuilder) : list param :=
  when (nonempty (_fts5_phrases (text_ sb))) (PStr (_fts5_phrases (text_ sb)))
  ++ map PStr (artists sb)
  ++ map PStr (titles sb)
  ++ map PStr (editions sb)
  ++ map PStr (languages sb)
  ++ match golden_notes sb with Some b => [PBool b] | None => [] end
  ++ map PInt (ratings sb)
  ++ flat_map (fun '(min_views, max_views) =>
                 PInt min_views
                 :: match max_views with Some m => [PInt m] | None => [] end)
              (views sb).

(** [SearchBuilder.statement]; [select_from] is the text of
    [select_song_id.sql], which is not among the sources. *)
Definition statement (select_from : text) (sb : SearchBuilder) : text :=
  select_from ++ _where_clause sb ++ _order_by_clause sb.

End Db.

(* ===================================================================== *)
(** * usdb_dl/song_loader.py *)
(* ===================================================================== *)

Module SongLoader.
Import Text.

Inductive log_record : Type :=
| Info (msg : text)
| Warning (msg : text)
| Error (msg : text).

(** ** The duet reassignment of [SongLoader.run] *)

Definition P1_line : text := T "P1" ++ [LF].
Definition P2_line : text := T "P2" ++ [LF].

(** [line.startswith((":", "*", "F", "R", "G"))] *)
Definition is_note_line (line : text) : bool :=
  existsb (fun p => startswith (T p) line) [":"; "*"; "F"; "R"; "G"]%string.

(** [notes.insert(idx, x)] *)
Definition list_insert_at {A} (idx : nat) (x : A) (l : list A) : list A :=
  take idx l ++ x :: drop idx l.

Inductive loop_result : Type :=
| Done (notes : list text)
| Raised                      (* ValueError *)
| OutOfFuel.

(** [for idx, line in enumerate(notes)] over the list the body grows:
    the iterator reads [notes[idx]] afresh each round and stops when
    [idx] reaches the current length. *)
Fixpoint duet_loop (fuel : nat) (idx : nat) (prev_start : Z) (notes : list text)
    : loop_result :=
  match fuel with
  | O => OutOfFuel
  | S fuel' =>
      match notes !! idx with
      | None => Done notes
      | Some line =>
          if is_note_line line then
            match split_max " " 4 line with
            | _type :: start :: _duration :: _pitch :: _syllable =>
                match int_of_text start with
                | None => Raised
                | Some start =>
                    let notes :=
                      if start <? prev_start
                      then list_insert_at idx P2_line notes else notes in
                    duet_loop fuel' (S idx) start notes
                end
            | _ => Raised
            end
          else duet_loop fuel' (S idx) prev_start notes
      end
  end.

(** The [if duet:] block, on the note lines: the [P1] marker at the
    front, then the loop.  Each line is visited at most twice. *)
Definition duet_reassign (notes : list text) : loop_result :=
  let notes := P1_line :: notes in
  duet_loop (2 * length notes + 1) 0 0 notes.

(** ** The audio stage of [SongLoader.run] *)

(** [f"#{self.song_id}: (2/6) ..."] *)
Definition stage2 (song_id : Z) (msg : string) : text :=
  T "#" ++ str_int song_id ++ T ": (2/6) " ++ T msg.

(** Lines 106-130: [audio_options] is [self.options.audio_options],
    [audio] and [video] are [meta_tags.audio] and [meta_tags.video],
    [download_video] is the call of [resource_dl.download_video] with the
    browser and the base path fixed; it returns the extension of the file
    it wrote, or nothing. *)
Definition audio_stage {AudioOptions : Type}
    (song_id : Z) (audio_options : option AudioOptions)
    (audio video : option text)
    (download_video : text -> AudioOptions -> option text)
    (filename : text) (header : gmap text text)
    : gmap text text * list log_record :=
  match audio_options with
  | None => (header, [])
  | Some audio_opts =>
      let audio_resource := if truthy audio then audio else video in
      match audio_resource with
      | Some (c :: r) =>
          let ext := download_video (c :: r) audio_opts in
          let '(header, lg) :=
            match ext with
            | Some (e :: xt) =>
                (<[T "#MP3" := filename ++ T "." ++ e :: xt]> header,
                 [Info (stage2 song_id "Success.")])
            | _ => (header, [Error (stage2 song_id "Failed.")])
            end in
          (if truthy (header !! T "#VIDEO") then delete (T "#VIDEO") header else header,
           lg)
      | _ => (header, [Warning (T "	- no audio resource in #VIDEO tag")])
      end
  end.

End SongLoader.


(* ===================================================================== *)
(** * utils.py, continued *)
(* ===================================================================== *)

Module UtilsNames.
Import Text Regex.

(** [ \(\d+\)] *)
Definition suffix_regex : regex :=
  (One (Chr " ") ;; One (Chr "(") ;; Many1 Digit ;; One (Chr ")"))%re.

(** [is_name_maybe_with_suffix] *)
Definition is_name_maybe_with_suffix (txt name : text) : bool :=
  if negb (startswith name txt) then false
  else
    let tail := removeprefix name txt in
    match tail with
    | [] => true
    | _ :: _ => match fullmatch suffix_regex tail with Some _ => true | None => false end
    end.

End UtilsNames.

(* ===================================================================== *)
(** * db/__init__.py, continued *)
(* ===================================================================== *)

Module DbStatements.
Import Text Db.

(** [_fts5_start_phrase] *)
Definition _fts5_start_phrase (txt : text) : text :=
  T "^ " ++ [Utils.dquote] ++ replace Utils.dquote (T "") txt ++ [Utils.dquote].

(** [delete_sync_metas]: the statement and the values bound to it. *)
Definition delete_sync_metas_stmt (ids : list Z) : text * list param :=
  let id_str := join (T ", ") (map (fun _ => T "?") ids) in
  (T "DELETE FROM sync_meta WHERE sync_meta_id IN (" ++ id_str ++ T ")",
   map PInt ids).

Inductive ResourceFileKind : Type :=
| RF_TXT | RF_AUDIO | RF_VIDEO | RF_COVER | RF_BACKGROUND.

(** [ResourceFileKind.value] *)
Definition ResourceFileKind_value (k : ResourceFileKind) : text :=
  match k with
  | RF_TXT => T "txt"
  | RF_AUDIO => T "audio"
  | RF_VIDEO => T "video"
  | RF_COVER => T "cover"
  | RF_BACKGROUND => T "background"
  end.

(** [delete_resource_files]: the statement and the values bound to it. *)
Definition delete_resource_files_stmt (ids : list (Z * ResourceFileKind))
    : text * list param :=
  let params :=
    flat_map (fun '(i, k) => [PInt i; PStr (ResourceFileKind_value k)]) ids in
  let tuples :=
    join (T ", ") (map (fun _ => T "(?, ?)") (seq 0 (length params / 2))) in
  (T "DELETE FROM resource_file WHERE (sync_meta_id, kind) IN (" ++ tuples ++ T ")",
   params).

(** ** _DbState *)

Inductive connection_error : Type :=
| DatabaseError                 (* Not connected to database! *)
| SchemaError (e : db_error).

(** The class attribute [_DbState._connection]: the store the open
    connection works on, if there is one. *)
Definition DbState := option Store.

(** [_DbState.connect]; [db] is the store found at [db_path] (empty for a
    new file) and [now] the time in microseconds.  Returns the error
    raised, if any, and the state afterwards. *)
Definition connect (now : Z) (db : Store) (st : DbState)
    : option connection_error * DbState :=
  let '(err, db') := _validate_schema now db in
  (SchemaError <$> err, Some db').

(** [_DbState.connection] *)
Definition connection (st : DbState) : connection_error + Store :=
  match st with
  | None => inl DatabaseError
  | Some db => inr db
  end.

(** [_DbState.close] *)
Definition close (st : DbState) : DbState :=
  match st with
  | Some _ => None
  | None => None
  end.

End DbStatements.

(* ===================================================================== *)
(** * usdb_dl/song_loader.py and usdb_dl/usdb_dl.py, continued *)
(* ===================================================================== *)

Module SongLoaderStages.
Import Text SongLoader.

(** [f"#{self.song_id}: (3/6) ..."] *)
Definition stage3 (song_id : Z) (msg : string) : text :=
  T "#" ++ str_int song_id ++ T ": (3/6) " ++ T msg.

(** Lines 134-157 of [SongLoader.run], the video stage: the header
    afterwards, [has_video] and the records logged. *)
Definition video_stage {VideoOptions : Type}
    (song_id : Z) (video_options : option VideoOptions)
    (video : option text)
    (download_video : text -> VideoOptions -> option text)
    (filename : text) (header : gmap text text)
    : gmap text text * bool * list log_record :=
  match video_options with
  | None => (header, false, [])
  | Some video_opts =>
      match video with
      | Some (c :: r) =>
          match download_video (c :: r) video_opts with
          | Some (e :: xt) =>
              (<[T "#VIDEO" := filename ++ T "." ++ e :: xt]> header, true,
               [Info (stage3 song_id "Success.")])
          | _ => (header, false, [Error (stage3 song_id "Failed.")])
          end
      | _ => (header, false,
              [Warning (stage3 song_id "no video resource in #VIDEO tag")])
      end
  end.

(** Whether the text goes on to a closing bracket on its line, which is
    what the rest of the pattern [\[.*?\]] needs after the opening
    bracket: the dot matches no line feed. *)
Fixpoint closes (s : text) : bool :=
  match s with
  | [] => false
  | c :: s' =>
      if ascii_eqb c "]" then true
      else if ascii_eqb c LF then false
      else closes s'
  end.

(** [re.sub(r"\[.*?\]", "", s)]: from left to right, every opening
    bracket that a closing bracket follows on its line is taken out with
    the text up to the first closing bracket; [skip] says that such a
    bracket is open. *)
Fixpoint sub_brackets (skip : bool) (s : text) : text :=
  match s with
  | [] => []
  | c :: s' =>
      if skip then sub_brackets (negb (ascii_eqb c "]")) s'
      else if ascii_eqb c "[" && closes s' then sub_brackets true s'
      else c :: sub_brackets false s'
  end.

(** Lines 41-43 of [SongLoader.run]: the title without what stands in
    square brackets, stripped. *)
Definition clean_title (title : text) : text := strip (sub_brackets false title).

(** [s.zfill(width)]: zeros on the left, after a sign if there is one. *)
Definition zfill (width : nat) (s : text) : text :=
  let pad := repeat "0"%char (width - length s) in
  match s with
  | c :: r => if ascii_eqb c "-" || ascii_eqb c "+" then c :: pad ++ r else pad ++ s
  | [] => pad
  end.

(** [idp = str(id).zfill(5)] in [Worker.run] *)
Definition idp (id : Z) : text := zfill 5 (str_int id).

End SongLoaderStages.
(* ===================================================================== *)
(** * Statements: the notions the properties are stated with *)
(* ===================================================================== *)

Import Text.

(** The characters [sanitize_filename] replaces. *)
Definition forbidden_chars : text := T "?:" ++ [Utils.dquote] ++ T "<>/\|*".

Section AllocationDefs.
Import Utils.

(** The path with [" (1)"] appended to its name. *)
Definition suffixed_1 (path : Path) : Path :=
  mkPath (anchor path) (removelast (segments path) ++ [name path ++ T " (1)"]).

(** A world to run allocations in: an empty registry, a clock that
    starts at 1.7e9 s and advances by one second per reading, and an
    empty disk. *)
Definition quiet_world : World :=
  mkWorld ∅ (fun n => float_of_int (1700000000 + Z.of_nat n)) 0 (fun _ => false).

(** The number a finite [float] stands for. *)
Definition exact_value (x : float64) : Q :=
  match x with
  | SpecFloat.S754_finite sign m e =>
      let mag := if (0 <=? e)%Z then inject_Z (Zpos m * 2 ^ e)
                 else (Zpos m # 2 ^ Z.to_pos (- e))%Q in
      if sign then (- mag)%Q else mag
  | _ => 0%Q
  end.

(** The time between two readings of the clock is more than
    [CACHE_LIFETIME], in exact arithmetic. *)
Definition older_than_lifetime (stamp now : float64) : bool :=
  negb (Qle_bool (exact_value now) (exact_value stamp + inject_Z CACHE_LIFETIME)).

(** A time stamp just below 2^31 s and a reading of the clock more than
    an hour, by a quarter of 2^-20 s, after it. *)
Definition stamp_2_31 : float64 :=
  SpecFloat.S754_finite false 9007199250546691 (-22).

Definition hour_after_2_31 : float64 :=
  SpecFloat.S754_finite false 4503607175020546 (-21).

(** A world in which the path was registered at [stamp_2_31], is not on
    disk, and the clock reads [hour_after_2_31]. *)
Definition rounding_world (path : Path) : World :=
  mkWorld {[ path := stamp_2_31 ]} (fun _ => hour_after_2_31) 0 (fun _ => false).

Definition queen_path : Path := mkPath (T "/") [T "songs"; T "Queen - Bohemian Rhapsody"].

End AllocationDefs.

Section SchemaDefs.
Import Db.
Local Open Scope string_scope.

(** The version stamp of a [meta] table is missing (no row) or is not
    [SCHEMA_VERSION]. *)
Definition stamp_mismatch (meta : Table) : bool :=
  match rows meta with
  | [] => true
  | row :: _ => differs_from_version (default SqlNull (row !! "version"))
  end.

(** The row [_validate_schema] stamps a new store with. *)
Definition stamp_row (now : Z) : gmap string sql_value :=
  {[ "id" := SqlInt 1; "version" := SqlInt SCHEMA_VERSION; "ctime" := SqlInt now ]}.

(** The store a first connection leaves behind. *)
Definition fresh_store (now : Z) : Store :=
  <["meta" := mkTable ["id"; "version"; "ctime"] [stamp_row now]]> (setup_script ∅).

(** A store stamped with version 2. *)
Definition store_v2 : Store :=
  <["meta" := mkTable ["id"; "version"; "ctime"]
                [{[ "id" := SqlInt 1; "version" := SqlInt 2; "ctime" := SqlInt 0 ]}]]>
    (setup_script ∅).

End SchemaDefs.

Section AudioStageDefs.
Import SongLoader.

(** A header as it stands when the audio stage starts: the [#VIDEO] tag
    still holds the resource references. *)
Definition tagged_header : gmap text text :=
  {[ T "#TITLE" := T "Song"; T "#VIDEO" := T "v=abcdefghijk" ]}.

(** The audio stage with a download that fails. *)
Definition failed_audio_stage (header : gmap text text) : gmap text text :=
  fst (audio_stage 1 (Some tt) None (Some (T "abcdefghijk"))
         (fun _ _ => None) (T "Artist - Song") header).

End AudioStageDefs.

Section DuetDefs.
Import SongLoader.

(** What the loop reads on a line: [None] when the line is not a note,
    [Some None] when reading its start beat raises, else the start beat. *)
Definition note_start (line : text) : option (option Z) :=
  if is_note_line line then
    Some match split_max " " 4 line with
         | _type :: start :: _duration :: _pitch :: _syllable => int_of_text start
         | _ => None
         end
  else None.

(** One pass over the note lines that puts a [P2] marker before every
    note whose start beat is below that of the note before it
    ([prev_start] before the first note); [None] when a note cannot be
    read. *)
Fixpoint mark_regressions (prev_start : Z) (notes : list text) : option (list text) :=
  match notes with
  | [] => Some []
  | line :: notes' =>
      match note_start line with
      | None => (fun r => line :: r) <$> mark_regressions prev_start notes'
      | Some None => None
      | Some (Some s) =>
          (fun r => if s <? prev_start then P2_line :: line :: r else line :: r)
            <$> mark_regressions s notes'
      end
  end.

(** The rule in the specification's words: a [P2] marker before every
    note whose start beat is below the largest start beat seen so far,
    [seen]; before the first note none has been seen.  The maximum is
    that of the player's notes under way, a marker starts it afresh: for
    the start beats 0, 4, 8, 2, 6 the specification has no marker before
    the note at beat 6. *)
Fixpoint mark_below_running_max (seen : option Z) (notes : list text)
    : option (list text) :=
  match notes with
  | [] => Some []
  | line :: notes' =>
      match note_start line with
      | None => (fun r => line :: r) <$> mark_below_running_max seen notes'
      | Some None => None
      | Some (Some s) =>
          let below := match seen with Some m => s <? m | None => false end in
          let seen' :=
            match seen with
            | Some m => if below then s else Z.max m s
            | None => s
            end in
          (fun r => if below then P2_line :: line :: r else line :: r)
            <$> mark_below_running_max (Some seen') notes'
      end
  end.

(** The first note of the stream, if it has one that can be read, does
    not start before beat 0. *)
Fixpoint first_start_nonneg (notes : list text) : bool :=
  match notes with
  | [] => true
  | line :: notes' =>
      match note_start line with
      | None => first_start_nonneg notes'
      | Some None => true
      | Some (Some s) => 0 <=? s
      end
  end.

(** How the two rules answer, as the loop does. *)
Definition as_result (r : option (list text)) : loop_result :=
  match r with
  | Some notes => Done (P1_line :: notes)
  | None => Raised
  end.

(** A note line with the given start beat. *)
Definition note_at (start : Z) : text :=
  T ": " ++ str_int start ++ T " 2 5 la" ++ [LF].

(** A flat note stream with start beats 0, 4, 8, 2, 6. *)
Definition beats_example : list text := map note_at [0; 4; 8; 2; 6].

(** A flat note stream whose first note starts before beat 0. *)
Definition upbeat_example : list text := map note_at [-3; 1].

End DuetDefs.

Section SearchDefs.
Import Db.

(** A row of the join [select_song_id.sql] selects from, reduced to the
    columns the filters read.  [fts] says whether the row matches a
    full-text query, [downloaded_] whether it has a [sync_meta] row. *)
Record SongRow : Type := mkSongRow {
  r_artist : text;
  r_title : text;
  r_edition : text;
  r_language : text;
  r_golden_notes : bool;
  r_rating : Z;
  r_views : Z;
  r_downloaded : bool;
  r_fts : text -> bool
}.

(** A view count lies in a range: from the lower bound up to, not
    including, the upper bound if there is one. *)
Definition in_range (v : Z) (range : Z * option Z) : bool :=
  (fst range <=? v) && match snd range with Some hi => v <? hi | None => true end.

(** Equality of two stored values. *)
Definition same_text (a b : text) : bool := text_eqb a b.

Definition one_of (x : text) (l : list text) : bool := existsb (same_text x) l.

(** The conjunction the specification asks for: every filter that is
    present holds of the row. *)
Definition all_filters_hold (sb : SearchBuilder) (row : SongRow) : bool :=
  (negb (nonempty (_fts5_phrases (text_ sb))) || r_fts row (_fts5_phrases (text_ sb)))
  && (negb (nonempty (artists sb)) || one_of (r_artist row) (artists sb))
  && (negb (nonempty (titles sb)) || one_of (r_title row) (titles sb))
  && (negb (nonempty (editions sb)) || one_of (r_edition row) (editions sb))
  && (negb (nonempty (languages sb)) || one_of (r_language row) (languages sb))
  && match golden_notes sb with Some b => Bool.eqb (r_golden_notes row) b | None => true end
  && (negb (nonempty (ratings sb)) || existsb (Z.eqb (r_rating row)) (ratings sb))
  && (negb (nonempty (views sb)) || existsb (in_range (r_views row)) (views sb))
  && match downloaded sb with Some d => Bool.eqb (r_downloaded row) d | None => true end.

(** ** How SQLite reads the WHERE clause

    The clause the builder writes is a sequence of comparisons joined by
    [AND] and [OR] without parentheses, with [?] for every value.  SQLite
    binds [AND] tighter than [OR] and takes the values in the order of the
    placeholders. *)

(** [s.split(sep)] for a separator of several characters; [skip] is the
    number of characters of a separator still to pass over. *)
Fixpoint split_on (sep : text) (skip : nat) (s : text) : list text :=
  match s with
  | [] => [[]]
  | c :: s' =>
      match skip with
      | S k => split_on sep k s'
      | O =>
          if startswith sep s then [] :: split_on sep (length sep - 1) s'
          else match split_on sep 0 s' with
               | w :: ws => (c :: w) :: ws
               | [] => [[c]]
               end
      end
  end.

(** The value of a column of the row, as a bound value. *)
Definition column (row : SongRow) (col : text) : option param :=
  if text_eqb col (T "usdb_song.artist") then Some (PStr (r_artist row))
  else if text_eqb col (T "usdb_song.title") then Some (PStr (r_title row))
  else if text_eqb col (T "usdb_song.edition") then Some (PStr (r_edition row))
  else if text_eqb col (T "usdb_song.language") then Some (PStr (r_language row))
  else if text_eqb col (T "usdb_song.golden_notes") then Some (PBool (r_golden_notes row))
  else if text_eqb col (T "usdb_song.rating") then Some (PInt (r_rating row))
  else if text_eqb col (T "usdb_song.views") then Some (PInt (r_views row))
  else None.

Definition param_eqb (a b : param) : bool :=
  match a, b with
  | PStr x, PStr y => same_text x y
  | PInt x, PInt y => x =? y
  | PBool x, PBool y => Bool.eqb x y
  | _, _ => false
  end.

(** One comparison, on the values bound to its placeholders: [None] when
    it is not one the builder writes. *)
Definition comparison_holds (row : SongRow) (atom : text) (args : list param)
    : option bool :=
  match split " " atom, args with
  | [col; op; _], [arg] =>
      if text_eqb op (T "MATCH") then
        match arg with PStr q => Some (r_fts row q) | _ => None end
      else if text_eqb op (T "IS") then None
      else
        match column row col, arg with
        | Some (PInt v), PInt a =>
            if text_eqb op (T ">=") then Some (a <=? v)
            else if text_eqb op (T "<") then Some (v <? a)
            else if text_eqb op (T "=") then Some (v =? a)
            else if text_eqb op (T "IN") then Some (v =? a)
            else None
        | Some v, a =>
            if text_eqb op (T "=") || text_eqb op (T "IN")
            then Some (param_eqb v a) else None
        | None, _ => None
        end
  | [col; op; null], [] =>
      if text_eqb col (T "sync_meta.sync_meta_id") && text_eqb op (T "IS")
         && text_eqb null (T "NULL")
      then Some (negb (r_downloaded row)) else None
  | [col; op; not_; null], [] =>
      if text_eqb col (T "sync_meta.sync_meta_id") && text_eqb op (T "IS")
         && text_eqb not_ (T "NOT") && text_eqb null (T "NULL")
      then Some (r_downloaded row) else None
  | col :: op :: _, _ :: _ =>
      if text_eqb op (T "IN") then
        match column row col with
        | Some v => Some (existsb (param_eqb v) args)
        | None => None
        end
      else None
  | _, _ => None
  end.

Definition placeholders (atom : text) : nat :=
  length (filter (fun c => c = "?"%char) atom).

(** A run of comparisons joined by [AND]; the values left over are
    returned. *)
Fixpoint conjunction_holds (row : SongRow) (atoms : list text) (ps : list param)
    : option (bool * list param) :=
  match atoms with
  | [] => Some (true, ps)
  | atom :: atoms' =>
      let n := placeholders atom in
      match comparison_holds row atom (take n ps),
            conjunction_holds row atoms' (drop n ps) with
      | Some b, Some (b', ps') => Some (b && b', ps')
      | _, _ => None
      end
  end.

(** Runs of [AND]s joined by [OR]. *)
Fixpoint disjunction_holds (row : SongRow) (terms : list text) (ps : list param)
    : option bool :=
  match terms with
  | [] => Some false
  | term :: terms' =>
      match conjunction_holds row (split_on (T " AND ") 0 term) ps with
      | Some (b, ps') =>
          match disjunction_holds row terms' ps' with
          | Some b' => Some (b || b')
          | None => None
          end
      | None => None
      end
  end.

(** Whether the query selects the row: every row when there is no WHERE
    clause. *)
Definition where_holds (clause : text) (ps : list param) (row : SongRow)
    : option bool :=
  match clause with
  | [] => Some true
  | _ :: _ =>
      if startswith (T " WHERE ") clause then
        disjunction_holds row
          (split_on (T " OR ") 0 (drop (length (T " WHERE ")) clause)) ps
      else None
  end.

(** [SearchBuilder(artists=["Queen"], ratings=[5])] *)
Definition search_queen_5 : SearchBuilder :=
  mkSearchBuilder NONE false [] [T "Queen"] [] [] [] None [5] [] None.

(** [SearchBuilder(artists=["Queen"], views=[(0, 100), (200, None)])] *)
Definition search_queen_views : SearchBuilder :=
  mkSearchBuilder NONE false [] [T "Queen"] [] [] [] None []
    [(0, Some 100); (200, None)] None.

(** A song by another artist, viewed 500 times. *)
Definition abba_row : SongRow :=
  mkSongRow (T "ABBA") (T "Waterloo") (T "") (T "English") false 4 500 false
            (fun _ => false).

End SearchDefs.

Section ParserDefs.
Import Regex NotesParser.

(** The text does not go on with a character of the class. *)
Definition stops (p : ascii -> bool) (s : text) : Prop :=
  match s with
  | c :: _ => p c = false
  | [] => True
  end.

Definition nonempty_text (s : text) : bool :=
  match s with [] => false | _ :: _ => true end.

Definition nonempty_list {A} (l : list A) : bool :=
  match l with [] => false | _ :: _ => true end.

(** No line feed in the text. *)
Definition one_line (s : text) : bool := negb (contains LF s).

(** What the parser reads back from a note as it was written: a duration
    that is not negative, a text that is not empty and has no line
    feed, and beats and a pitch that [str] and [int] convert. *)
Definition wf_note (n : Note) : bool :=
  (0 <=? duration n) && nonempty_text (NotesParser.text_ n)
  && one_line (NotesParser.text_ n)
  && int_digits_ok (start n) && int_digits_ok (duration n)
  && int_digits_ok (pitch n).

(** The beats of a line break are integers that [str] and [int]
    convert. *)
Definition wf_break (lb : option LineBreak) : bool :=
  match lb with
  | None => true
  | Some (Bare b) => int_digits_ok b
  | Some (Paired a b) => int_digits_ok a && int_digits_ok b
  end.

(** [note_regex] after the kind. *)
Definition note_tail_regex : regex :=
  (Opt (One (Chr ":")) ;; Many1 (Chr " ") ;;
   Group 2 (Opt (One (Chr "-")) ;; Many1 Digit) ;; Many1 (Chr " ") ;;
   Group 3 (Many1 Digit) ;; Many1 (Chr " ") ;;
   Group 4 (Opt (One (Chr "-")) ;; Many1 Digit) ;; One (Chr " ") ;;
   Group 5 (Many1 Dot))%re.

(** [line_break_regex] after the first beat. *)
Definition line_break_tail_regex : regex :=
  (Many (Chr " ") ;;
   Opt (Group 2 (Opt (One (Chr "-")) ;; Many1 Digit)) ;; Many (Chr " ") ;;
   Opt (Group 3 (Many1 Dot)))%re.

(** [k] blanks. *)
Definition spaces (k : nat) : text := repeat " "%char k.

(** Text that the pattern cannot take for a second beat: it starts
    neither with a digit nor with a minus that a digit follows. *)
Definition no_beat (s : text) : bool :=
  match s with
  | [] => true
  | c :: t =>
      if ascii_eqb c "-"
      then match t with d :: _ => negb (isdigit d) | [] => true end
      else negb (isdigit c)
  end.

(** The end of [fullmatch]: nothing may be left. *)
Definition at_end (s : text) (g : groups) : option groups :=
  match s with [] => Some g | _ :: _ => None end.

(** Every group taken so far is at most [n] characters long. *)
Definition bounded (n : nat) (g : groups) : Prop :=
  forall (i : nat) (c : text), g !! i = Some c -> (length c <= n)%nat.

(** The last line of a player's sequence, if there is one, has the
    terminal line break. *)
Definition ends_terminal (ls : list Line) : Prop :=
  match last ls with
  | Some l => line_break l = None
  | None => True
  end.

(** A line short enough that none of its beats exceeds the digits
    [int] converts. *)
Definition short (l : text) : Prop :=
  (N.of_nat (length l) <= int_max_str_digits)%N.

(** A line with more characters than [int] converts digits. *)
Definition long (l : text) : Prop :=
  (int_max_str_digits < N.of_nat (length l))%N.

(** A beat as the patterns have it. *)
Definition beat_regex : regex := (Opt (One (Chr "-")) ;; Many1 Digit)%re.

(** A body whose last note is followed by a line break and then the
    end marker. *)
Definition trailing_break_lines : list text :=
  [T ": 1 2 3 la"; T "- 5"; T "E"].

End ParserDefs.

Section HeaderDefs.
Import NotesParser.

(** The header section: the leading lines that start with [#]. *)
Fixpoint header_section (lines : list text) : list text :=
  match lines with
  | l :: lines' => if startswith (T "#") l then l :: header_section lines' else []
  | [] => []
  end.

(** The attribute a header name stands for. *)
Definition attribute_of (header : text) : text :=
  if text_eqb header (T "AUTHOR") then T "creator" else lower header.

(** The header line has a separator, a name that stands for the attribute
    [key] and a value that is not empty. *)
Definition gives (key : text) (l : text) : bool :=
  match split_max ":" 1 (removeprefix (T "#") l) with
  | [header; _ :: _] => text_eqb (attribute_of header) key
  | _ => false
  end.

(** The call raised. *)
Definition raised {A} (r : raises A) : bool :=
  match r with inl _ => true | inr _ => false end.

End HeaderDefs.

Section RoundTripDefs.
Import NotesParser.
Context `{PyFloat} `{MetaTagsDeserializer} `{PyRepr}.

(** The headers with the encoding taken out, as [Headers.__str__] leaves
    it out. *)
Definition without_encoding (h : Headers) : Headers :=
  {| unknown := unknown h; title := title h; artist := artist h;
     bpm := bpm h; gap := gap h; language := language h;
     edition := edition h; genre := genre h; album := album h;
     year := year h; creator := creator h; mp3 := mp3 h; cover := cover h;
     background := background h; video := video h; videogap := videogap h;
     h_start := h_start h; h_end := h_end h; previewstart := previewstart h;
     relative := relative h; p1 := p1 h; p2 := p2 h;
     medleystartbeat := medleystartbeat h; medleyendbeat := medleyendbeat h;
     encoding := None; comment := comment h; resolution := resolution h |}.

(** The text of a written attribute is a non-empty single line, a
    float is read back from its text as it was, and an integer is one
    that [str] and [int] convert. *)
Definition value_ok (v : value) : Prop :=
  value_str v <> [] /\ one_line (value_str v) = true
  /\ match v with
     | VStr _ => True
     | VFloat x => float_of_text (replace "," (T ".") (value_str v)) = Some x
     | VInt n => int_digits_ok n = true
     end.

(** The name of an unknown header is written and read back as itself (it
    is 7-bit, has no capital letter and is not [author]), is no attribute
    of the class, and has no separator or line feed; its value is a
    non-empty single line. *)
Definition unknown_ok (kv : text * text) : Prop :=
  is_7bit (fst kv) = true
  /\ attribute_of (upper (fst kv)) = fst kv
  /\ mem (fst kv) (str_headers ++ float_headers ++ int_headers) = false
  /\ contains ":" (fst kv) = false
  /\ one_line (fst kv) = true
  /\ snd kv <> [] /\ one_line (snd kv) = true.

Definition wf_headers (h : Headers) : Prop :=
  Forall (fun key => match getattr h key with
                     | Some v => value_ok v
                     | None => True
                     end) str_keys
  /\ Forall unknown_ok (unknown h)
  /\ NoDup (map fst (unknown h)).

(** A line with notes that the parser reads back. *)
Definition wf_line (l : Line) : bool :=
  nonempty_list (notes l) && forallb wf_note (notes l) && wf_break (line_break l).

(** Lines as [_player_lines] returns them: each with notes, the last one,
    and no other, with the terminal line break. *)
Fixpoint wf_lines (ls : list Line) : bool :=
  match ls with
  | [] => true
  | [l] => wf_line l && is_last l
  | l :: ls' => wf_line l && negb (is_last l) && wf_lines ls'
  end.

Definition wf_notes (p : PlayerNotes) : bool :=
  wf_lines (player_1 p)
  && match player_2 p with
     | Some ls => nonempty_list ls && wf_lines ls
     | None => true
     end.

Definition wf_chart (c : SongTxt) : Prop :=
  wf_headers (headers c) /\ wf_notes (notes_ c) = true.


(** The lines one [Line] is written as. *)
Definition line_lines (l : Line) : list text :=
  map Note_str (notes l)
  ++ match _line_break_str l with Some lb => [lb] | None => [] end.

(** The lines the notes are written as. *)
Definition body_lines (p : PlayerNotes) : list text :=
  match player_2 p with
  | Some (l :: ls) =>
      [T "P1"] ++ flat_map line_lines (player_1 p) ++ [T "P2"]
      ++ flat_map line_lines (l :: ls)
  | _ => flat_map line_lines (player_1 p)
  end ++ [T "E"].

(** The attributes that are written, in the order of [Headers.__str__]. *)
Definition entries (h : Headers) (keys : list string) : list (text * value) :=
  omap (fun key => (fun v => (T key, v)) <$> getattr h key) keys.

(** [kwargs] after the attributes have been set. *)
Definition store_all (kw : Kwargs) (es : list (text * value)) : Kwargs :=
  fold_left (fun kw e => mkKwargs (<[fst e := snd e]> (kw_fields kw)) (kw_unknown kw))
            es kw.

(** An attribute that [_set_header_value] stores under its own name. *)
Definition entry_ok (e : text * value) : Prop :=
  contains ":" (upper (fst e)) = false
  /\ attribute_of (upper (fst e)) = fst e
  /\ value_ok (snd e)
  /\ match snd e with
     | VStr _ => mem (fst e) str_headers = true
     | VFloat _ => mem (fst e) str_headers = false
                   /\ mem (fst e) float_headers = true
     | VInt _ => mem (fst e) str_headers = false
                 /\ mem (fst e) float_headers = false
                 /\ mem (fst e) int_headers = true
     end.

End RoundTripDefs.

(** ** Instances to evaluate the parser with *)

Section Instances.
Import NotesParser.

(** The floats with a whole value, as Python writes and reads them:
    [str(120.0)] is [120.0]; [float] reads a whole number with or without
    the fraction [.0].  Literals of other floats are outside this
    fragment and read as [None]. *)
Definition whole_float_str (x : Z) : text := str_int x ++ T ".0".

Definition whole_float_of_text (s : text) : option Z :=
  match split "." (strip s) with
  | [whole] => int_of_text whole
  | [whole; frac] =>
      if forallb (fun c => ascii_eqb c "0") frac
         && nonempty_text whole && negb (text_eqb whole (T "-"))
      then int_of_text whole else None
  | _ => None
  end.

#[local] Instance whole_floats : PyFloat :=
  {| float := Z;
     float_of_text := whole_float_of_text;
     float_str := whole_float_str;
     float_zero := 0 |}.

(** A stand-in for the meta tag deserializer: it keeps the text of the
    [#VIDEO] header and logs nothing. *)
#[local] Instance kept_meta_tags : MetaTagsDeserializer :=
  {| MetaTags := text; MetaTags_new := fun v => (v, []) |}.

(** [str] of a list of lines that hold no quote, no backslash and no
    control character: each line in single quotes, a comma and a space
    between two lines, square brackets around. *)
#[local] Instance plain_list_str : PyRepr :=
  {| list_str := fun ls =>
       T "[" ++ join (T ", ") (map (fun l => T "'" ++ l ++ T "'") ls) ++ T "]" |}.

(** A chart text with an encoding header. *)
Definition encoded_source : text :=
  T "#TITLE:Song" ++ [LF] ++ T "#ARTIST:Singer" ++ [LF]
  ++ T "#ENCODING:UTF8" ++ [LF] ++ T "#BPM:120" ++ [LF]
  ++ T ": 0 4 5 la" ++ [LF] ++ T "- 6" ++ [LF] ++ T ": 8 4 7 la" ++ [LF] ++ T "E".

(** The chart [try_parse] returns for it. *)
Definition encoded_chart : SongTxt :=
  {| headers :=
       {| unknown := []; title := T "Song"; artist := T "Singer";
          bpm := 120; gap := 0; language := None; edition := None;
          genre := None; album := None; year := None; creator := None;
          mp3 := None; cover := None; background := None; video := None;
          videogap := None; h_start := None; h_end := None;
          previewstart := None; relative := None; p1 := None; p2 := None;
          medleystartbeat := None; medleyendbeat := None;
          encoding := Some (T "UTF8"); comment := None; resolution := None |};
     notes_ :=
       mkPlayerNotes
         [mkLine [mkNote REGULAR 0 4 5 (T "la")] (Some (Bare 6));
          mkLine [mkNote REGULAR 8 4 7 (T "la")] None]
         None;
     meta_tags := [] |}.

End Instances.

(* ===================================================================== *)
(** * Further statements *)
(* ===================================================================== *)

Section NoteExamples.
Import NotesParser.

(** A golden note. *)
Definition golden_note : Note := mkNote GOLDEN 12 4 (-3) (T "day ").

(** The characters a note line starts with. *)
Definition is_kind_char (c : ascii) : bool :=
  existsb (ascii_eqb c) (T ":*FRG").

End NoteExamples.

Section AllocationExamples.
Import Utils.

(** The world after the path has been allocated in [quiet_world]. *)
Definition after_first : World :=
  mkWorld {[ queen_path := clock quiet_world 0 ]} (clock quiet_world) 1
          (fun _ => false).

(** The world after a second allocation of the same path. *)
Definition after_second : World :=
  mkWorld (<[suffixed_1 queen_path := clock quiet_world 2]>
             {[ queen_path := clock quiet_world 0 ]})
          (clock quiet_world) 3 (fun _ => false).

End AllocationExamples.

Section SearchExamples.
Import Db.


(** A store whose version stamp is 2, with its [meta] table. *)
Definition meta_v2 : Table :=
  mkTable ["id"; "version"; "ctime"]%string
    [{[ "id"%string := SqlInt 1; "version"%string := SqlInt 2;
        "ctime"%string := SqlInt 0 ]}].

End SearchExamples.

Section DuetProperties.
Import SongLoader.

(** The lines without the player markers. *)
Definition drop_markers (lines : list text) : list text :=
  filter (fun l => l <> P1_line /\ l <> P2_line) lines.

(** A note line the loop cannot read: it has fewer than four fields
    between blanks, so that the unpacking raises, or a second field that
    [int] does not convert. *)
Definition unreadable (line : text) : Prop :=
  is_note_line line = true
  /\ match split_max " " 4 line with
     | _type :: start :: _duration :: _pitch :: _syllable =>
         int_of_text start = None
     | _ => True
     end.

(** Between two [P2] markers no note starts before the note in front of
    it; [prev] is the start beat of the last note seen since the last
    marker, if there is one. *)
Fixpoint sorted_from (prev : option Z) (lines : list text) : bool :=
  match lines with
  | [] => true
  | l :: lines' =>
      if bool_decide (l = P2_line) then sorted_from None lines'
      else
        match note_start l with
        | Some (Some s) =>
            match prev with Some p => p <=? s | None => true end
            && sorted_from (Some s) lines'
        | _ => sorted_from prev lines'
        end
  end.

End DuetProperties.

Section StageExamples.
Import SongLoader SongLoaderStages.

(** A download that fails whatever it is asked for. *)
Definition no_download : text -> unit -> option text := fun _ _ => None.

End StageExamples.

Section NotesExamples.
Import NotesParser.

(** A duet of two lines and one line. *)
Definition duet_notes : PlayerNotes :=
  mkPlayerNotes
    [mkLine [golden_note; golden_note] (Some (Bare 16)); mkLine [golden_note] None]
    (Some [mkLine [golden_note] None]).

End NotesExamples.

Section MatcherDefs.
Import Regex NotesParser.

(** The texts a pattern stands for. *)
Fixpoint matches (r : regex) (u : text) : Prop :=
  match r with
  | One cl => exists c, u = [c] /\ cmatch cl c = true
  | Seq a b => exists u1 u2, u = u1 ++ u2 /\ matches a u1 /\ matches b u2
  | Alt a b => matches a u \/ matches b u
  | Opt a => u = [] \/ matches a u
  | Many cl => forallb (cmatch cl) u = true
  | Group _ a => matches a u
  end.

(** The groups [g'] are the groups [g] with the groups of the pattern
    that took part in a match, each set to a text its pattern stands
    for. *)
Fixpoint captured (r : regex) (g g' : groups) : Prop :=
  match r with
  | One _ | Many _ => g' = g
  | Seq a b => exists g1, captured a g g1 /\ captured b g1 g'
  | Alt a b => captured a g g' \/ captured b g g'
  | Opt a => g' = g \/ captured a g g'
  | Group n a => exists g1 u, captured a g g1 /\ matches a u /\ g' = <[n := u]> g1
  end.

(** The pattern has no group. *)
Fixpoint no_groups (r : regex) : bool :=
  match r with
  | One _ | Many _ => true
  | Seq a b | Alt a b => no_groups a && no_groups b
  | Opt a => no_groups a
  | Group _ _ => false
  end.

(** A line that the loop of [_player_lines] goes on after. *)
Definition open_line (l : Line) : bool := wf_line l && negb (is_last l).

End MatcherDefs.

Section HeaderRoundTripDefs.
Import NotesParser.
Context `{PyFloat}.

(** What the lines written for the attributes [keys] leave under the
    name [k], over [init]. *)
Definition written (h : Headers) (keys : list string) (k : text)
    (init : option value) : option value :=
  fold_left (fun acc key =>
               if text_eqb (T key) k
               then match getattr h key with Some v => Some v | None => acc end
               else acc)
            keys init.

(** The line of a written attribute and of an unknown header. *)
Definition entry_line (e : text * value) : text :=
  header_line (fst e) (value_str (snd e)).

Definition unknown_line (kv : text * text) : text :=
  header_line (fst kv) (snd kv).

(** The lines do not go on with a header. *)
Definition no_header_next (lines : list text) : Prop :=
  match lines with
  | l :: _ => startswith (T "#") l = false
  | [] => True
  end.

End HeaderRoundTripDefs.

Section TitleDefs.
Import Text.

(** The text has an opening square bracket and, later on the same line,
    a closing one. *)
Definition bracketed (s : text) : Prop :=
  exists pre mid post : text,
    s = pre ++ "["%char :: mid ++ "]"%char :: post /\ contains LF mid = false.

End TitleDefs.

(* ===================================================================== *)
(** * Properties *)
(* ===================================================================== *)

Import Text.

(** ** Facts about [text] *)

#[local] Arguments ascii_eqb : simpl never.

Lemma ascii_eqb_eq (a b : ascii) : ascii_eqb a b = true <-> a = b.
Proof. apply Ascii.eqb_eq. Qed.

Lemma ascii_eqb_refl (a : ascii) : ascii_eqb a a = true.
Proof. apply Ascii.eqb_refl. Qed.

Lemma ascii_eqb_neq (a b : ascii) : ascii_eqb a b = false <-> a <> b.
Proof. apply Ascii.eqb_neq. Qed.

Lemma text_eqb_eq (a b : text) : text_eqb a b = true <-> a = b.
Proof.
  revert b; induction a as [|x a IH]; intros [|y b]; simpl; try easy.
  rewrite andb_true_iff, ascii_eqb_eq, IH. split.
  - intros [-> ->]; reflexivity.
  - intros [= -> ->]; auto.
Qed.

Lemma text_eqb_refl (a : text) : text_eqb a a = true.
Proof. apply text_eqb_eq; reflexivity. Qed.

Lemma In_replace (c old : ascii) (new s : text) :
  In c (replace old new s) -> In c new \/ (In c s /\ c <> old).
Proof.
  unfold replace. rewrite in_flat_map. intros (x & Hx & Hc).
  destruct (ascii_eqb x old) eqn:E.
  - left; exact Hc.
  - right. destruct Hc as [<-|[]]. split; [exact Hx|].
    apply ascii_eqb_neq; exact E.
Qed.

Lemma In_lstrip_by (p : ascii -> bool) (c : ascii) (s : text) :
  In c (lstrip_by p s) -> In c s.
Proof.
  induction s as [|x s IH]; simpl; [easy|].
  destruct (p x); [right; auto | easy].
Qed.

Lemma In_rstrip_by (p : ascii -> bool) (c : ascii) (s : text) :
  In c (rstrip_by p s) -> In c s.
Proof.
  unfold rstrip_by. rewrite <- in_rev. intros Hc.
  apply In_lstrip_by in Hc. now apply in_rev.
Qed.

Lemma lstrip_by_head (p : ascii -> bool) (s : text) :
  match lstrip_by p s with
  | [] => True
  | c :: _ => p c = false
  end.
Proof.
  induction s as [|x s IH]; simpl; [exact I|].
  destruct (p x) eqn:E; [exact IH | exact E].
Qed.

(** ** sanitize_filename *)

Lemma rstrip_by_not_endswith (p : ascii -> bool) (c : ascii) (s : text) :
  p c = true -> endswith [c] (rstrip_by p s) = false.
Proof.
  intros Hp. unfold endswith, rstrip_by. rewrite rev_involutive. simpl.
  pose proof (lstrip_by_head p (rev s)) as Hh.
  destruct (lstrip_by p (rev s)) as [|x r]; [reflexivity|].
  destruct (ascii_eqb c x) eqn:E; [|reflexivity].
  apply ascii_eqb_eq in E; subst x. congruence.
Qed.

(** Closes a goal whose hypotheses say that a character is one of several
    and yet differs from each. *)
Ltac chars_absurd :=
  repeat match goal with
         | H : False |- _ => destruct H
         | H : _ \/ _ |- _ => destruct H as [H|H]
         | H : ?a = ?b |- _ => first [discriminate H | subst a | subst b]
         | H : _ <> _ |- _ => exfalso; apply H; reflexivity
         end.

(** C10.  For every input, [sanitize_filename] returns a string that holds
    none of the nine characters of [forbidden_chars] (question mark, colon,
    double quote, angle brackets, slash, backslash, bar, asterisk) and that
    does not end with a period. *)
Theorem C10_sanitize_filename_safe (fname : text) :
  (forall c, In c forbidden_chars -> ~ In c (Utils.sanitize_filename fname))
  /\ endswith (T ".") (Utils.sanitize_filename fname) = false.
Proof.
  unfold Utils.sanitize_filename.
  set (replaced := fold_left _ Utils.FILENAME_REPLACEMENTS fname).
  assert (Hclean : forall c, In c forbidden_chars -> ~ In c replaced).
  { intros c Hc Hin. subst replaced.
    unfold Utils.FILENAME_REPLACEMENTS in Hin.
    cbn [fold_left T list_ascii_of_string app] in Hin.
    cbv in Hc.
    repeat (apply In_replace in Hin;
            destruct Hin as [Hin|[Hin ?]];
            [ cbn in Hin; chars_absurd | ]).
    chars_absurd. }
  split.
  - intros c Hc Hin. apply (Hclean c Hc).
    destruct (endswith (T ".") replaced); [|exact Hin].
    now apply In_rstrip_by in Hin.
  - destruct (endswith (T ".") replaced) eqn:E; [|exact E].
    apply rstrip_by_not_endswith. reflexivity.
Qed.

(** ** DirectoryCache and next_unique_directory *)

Section Allocation.
Import Utils.

Lemma with_name_suffix_1 (path : Path) :
  segments path <> [] ->
  with_name path (name path ++ T " (" ++ str_int (0 + 1) ++ T ")")
  = Some (suffixed_1 path).
Proof.
  unfold with_name, suffixed_1. destruct (segments path); [easy|]. reflexivity.
Qed.

Lemma suffixed_1_neq (path : Path) :
  segments path <> [] -> path <> suffixed_1 path.
Proof.
  intros Hne Heq. unfold suffixed_1 in Heq.
  destruct path as [a segs]; simpl in *. injection Heq as Heq.
  rewrite (app_removelast_last [] Hne) in Heq at 1.
  apply app_inj_tail in Heq as [_ Heq]. unfold name in Heq; simpl in Heq.
  apply (f_equal (@length ascii)) in Heq. rewrite length_app in Heq.
  simpl in Heq. lia.
Qed.

(** A registry entry that is missing or has expired is replaced. *)
Lemma insert_fresh (path : Path) (w : World) :
  lifetime_over (_cache w !! path) (clock w (ticks w)) = true ->
  DirectoryCache_insert path w
  = (true, mkWorld (<[path := clock w (ticks w)]> (_cache w)) (clock w)
                   (S (ticks w)) (on_disk w)).
Proof.
  intros Hlt. unfold DirectoryCache_insert; cbn [_cache clock ticks on_disk].
  rewrite Hlt. reflexivity.
Qed.

(** A live registry entry is kept and the insertion refused. *)
Lemma insert_live (path : Path) (w : World) :
  lifetime_over (_cache w !! path) (clock w (ticks w)) = false ->
  DirectoryCache_insert path w
  = (false, mkWorld (_cache w) (clock w) (S (ticks w)) (on_disk w)).
Proof.
  intros Hle. unfold DirectoryCache_insert; cbn [_cache clock ticks on_disk].
  rewrite Hle. reflexivity.
Qed.

(** The first round of the loop ends it when the path is free. *)
Lemma allocate_free (fuel : nat) (path out_path : Path) (suffix : Z) (w : World) :
  lifetime_over (_cache w !! out_path) (clock w (ticks w)) = true ->
  on_disk w out_path = false ->
  next_unique_directory_loop (S fuel) path out_path suffix w
  = Allocated out_path
      (mkWorld (<[out_path := clock w (ticks w)]> (_cache w)) (clock w)
               (S (ticks w)) (on_disk w)).
Proof.
  intros Hlt Hdisk. cbn [next_unique_directory_loop].
  rewrite (insert_fresh _ _ Hlt). cbn [negb orb on_disk].
  rewrite Hdisk. reflexivity.
Qed.

(** C9, the claim as it is stated, at a time stamp just below 2^31 s:
    the entry of the path is older than [CACHE_LIFETIME] and the path is
    not on disk, and yet the allocation returns the sibling with
    [" (1)"], not the path: the sum of the time stamp and the lifetime is
    rounded up to the reading of the clock, so that the test of
    [DirectoryCache.insert] takes the entry for live. *)
Lemma C9_counterexample :
  _cache (rounding_world queen_path) !! queen_path = Some stamp_2_31
  /\ older_than_lifetime stamp_2_31
       (clock (rounding_world queen_path) (ticks (rounding_world queen_path))) = true
  /\ on_disk (rounding_world queen_path) queen_path = false
  /\ (exists w, next_unique_directory 2 queen_path (rounding_world queen_path)
                = Allocated (suffixed_1 queen_path) w)
  /\ suffixed_1 queen_path <> queen_path.
Proof.
  split; [reflexivity|]. split; [reflexivity|]. split; [reflexivity|].
  split; [eexists; reflexivity | discriminate].
Qed.

(** C9, amended.  With a clock past its first hour, a base path that is
    neither in the registry nor on disk, and its [" (1)"] sibling
    likewise: the first allocation returns the base path; a second one
    made while the test of [DirectoryCache.insert] finds the entry live
    returns the sibling, a different path; and once that test finds the
    entry of the base path expired, that is, once the rounded sum of its
    time stamp and [CACHE_LIFETIME] is below the reading of the clock,
    an allocation returns the base path again if it is not on disk. *)
Theorem C9_next_unique_directory (fuel : nat) (path : Path) (w : World) :
  let t0 := clock w (ticks w) in
  let t1 := clock w (S (ticks w)) in
  let t2 := clock w (S (S (ticks w))) in
  segments path <> [] ->
  _cache w !! path = None ->
  _cache w !! suffixed_1 path = None ->
  on_disk w path = false ->
  on_disk w (suffixed_1 path) = false ->
  lifetime_over None t0 = true ->
  lifetime_over (Some t0) t1 = false ->
  lifetime_over None t2 = true ->
  exists w1 w2,
    next_unique_directory (S (S fuel)) path w = Allocated path w1
    /\ next_unique_directory (S (S fuel)) path w1 = Allocated (suffixed_1 path) w2
    /\ path <> suffixed_1 path
    /\ name (suffixed_1 path) = name path ++ T " (1)"
    /\ _cache w2 !! path = Some t0
    /\ forall w3 : World,
         _cache w3 !! path = Some t0 ->
         lifetime_over (Some t0) (clock w3 (ticks w3)) = true ->
         on_disk w3 path = false ->
         exists w4, next_unique_directory (S (S fuel)) path w3 = Allocated path w4.
Proof.
  intros t0 t1 t2 Hseg Hc Hc1 Hd Hd1 Ht0 Ht1 Ht2.
  pose proof (suffixed_1_neq path Hseg) as Hneq.
  eexists _, _. split; [|split; [|split; [exact Hneq|split; [|split]]]].
  - unfold next_unique_directory. apply allocate_free; [|exact Hd].
    rewrite Hc. exact Ht0.
  - unfold next_unique_directory.
    cbn [next_unique_directory_loop]. rewrite insert_live.
    2:{ cbn [_cache clock ticks]. rewrite lookup_insert_eq. exact Ht1. }
    cbn [negb orb]. rewrite (with_name_suffix_1 path Hseg).
    apply allocate_free; cbn [_cache clock ticks on_disk]; [|exact Hd1].
    rewrite lookup_insert_ne by exact Hneq. rewrite Hc1. exact Ht2.
  - unfold name, suffixed_1; simpl. apply last_last.
  - cbn [_cache]. rewrite lookup_insert_ne by (intros E; apply Hneq; symmetry; exact E).
    apply lookup_insert_eq.
  - intros w3 Hc3 Ht3 Hd3. eexists. unfold next_unique_directory.
    apply allocate_free; [|exact Hd3]. rewrite Hc3. exact Ht3.
Qed.

Lemma C9_witness :
  exists w1 w2,
    next_unique_directory 2 queen_path quiet_world = Allocated queen_path w1
    /\ next_unique_directory 2 queen_path w1 = Allocated (suffixed_1 queen_path) w2
    /\ queen_path <> suffixed_1 queen_path
    /\ name (suffixed_1 queen_path) = name queen_path ++ T " (1)"
    /\ _cache w2 !! queen_path = Some (clock quiet_world 0)
    /\ forall w3 : World,
         _cache w3 !! queen_path = Some (clock quiet_world 0) ->
         lifetime_over (Some (clock quiet_world 0)) (clock w3 (ticks w3)) = true ->
         on_disk w3 queen_path = false ->
         exists w4, next_unique_directory 2 queen_path w3 = Allocated queen_path w4.
Proof.
  apply (C9_next_unique_directory 0 queen_path quiet_world); try reflexivity.
  discriminate.
Defined.

End Allocation.

(** ** _validate_schema *)

Section Schema.
Import Db.
Local Open Scope string_scope.

Lemma setup_script_meta :
  setup_script ∅ !! "meta" = Some (mkTable ["id"; "version"; "ctime"] []).
Proof. reflexivity. Qed.

(** C8.  A store whose [meta] table holds no row, or a first row whose
    version is not [SCHEMA_VERSION], makes [_validate_schema] raise
    [UnknownSchemaError] and leaves the store as it was; on a store with
    no table at all the schema is created and [meta] receives the one row
    that carries [SCHEMA_VERSION]. *)
Theorem C8_validate_schema (now : Z) (db : Store) (meta : Table) :
  db !! "meta" = Some meta ->
  "version" ∈ columns meta ->
  stamp_mismatch meta = true ->
  _validate_schema now db = (Some UnknownSchemaError, db)
  /\ _validate_schema now ∅ = (None, fresh_store now)
  /\ (fresh_store now !! "meta" ≫= fun t => head (rows t) ≫= (.!! "version"))
     = Some (SqlInt SCHEMA_VERSION).
Proof.
  intros Hmeta Hcol Hstamp. split; [|split].
  - unfold _validate_schema. rewrite Hmeta.
    rewrite bool_decide_eq_true_2 by exact Hcol.
    unfold stamp_mismatch in Hstamp.
    destruct (rows meta) as [|row rest]; [reflexivity|].
    rewrite Hstamp. reflexivity.
  - unfold _validate_schema. rewrite lookup_empty.
    unfold insert_row. rewrite setup_script_meta. reflexivity.
  - unfold fresh_store. rewrite lookup_insert_eq. reflexivity.
Qed.

Lemma C8_witness :
  _validate_schema 5 store_v2 = (Some UnknownSchemaError, store_v2)
  /\ _validate_schema 5 ∅ = (None, fresh_store 5)
  /\ (fresh_store 5 !! "meta" ≫= fun t => head (rows t) ≫= (.!! "version"))
     = Some (SqlInt SCHEMA_VERSION).
Proof.
  apply (C8_validate_schema 5 store_v2
           (mkTable ["id"; "version"; "ctime"]
              [{[ "id" := SqlInt 1; "version" := SqlInt 2; "ctime" := SqlInt 0 ]}])).
  - reflexivity.
  - simpl. apply list_elem_of_In. simpl. auto.
  - reflexivity.
Defined.

End Schema.

(** ** The audio stage *)

Section AudioStage.
Import SongLoader.

(** A failed download does not leave the headers as they were: the
    [#VIDEO] header is gone. *)
Lemma C4_counterexample :
  failed_audio_stage tagged_header <> tagged_header
  /\ tagged_header !! T "#VIDEO" = Some (T "v=abcdefghijk")
  /\ failed_audio_stage tagged_header !! T "#VIDEO" = None.
Proof.
  assert (H : failed_audio_stage tagged_header !! T "#VIDEO" = None)
    by (vm_compute; reflexivity).
  split; [|split; [vm_compute; reflexivity | exact H]].
  intros E. rewrite E in H. vm_compute in H. discriminate H.
Qed.

(** C4, amended.  When the audio stage is enabled, finds a resource and the
    download fails, it logs the failure as an error, writes no [#MP3]
    header, and changes no header but [#VIDEO], which it deletes if it is
    there with a non-empty value. *)
Theorem C4_audio_failure_frame {AudioOptions : Type}
    (song_id : Z) (audio_opts : AudioOptions) (audio video : option text)
    (download_video : text -> AudioOptions -> option text)
    (filename resource : text) (header : gmap text text) :
  (if truthy audio then audio else video) = Some resource ->
  resource <> [] ->
  truthy (download_video resource audio_opts) = false ->
  let '(header', lg) :=
    audio_stage song_id (Some audio_opts) audio video download_video filename header in
  lg = [Error (stage2 song_id "Failed.")]
  /\ header' !! T "#MP3" = header !! T "#MP3"
  /\ (forall key, key <> T "#VIDEO" -> header' !! key = header !! key)
  /\ header' = (if truthy (header !! T "#VIDEO")
                then delete (T "#VIDEO") header else header).
Proof.
  intros Hres Hne Hfail. unfold audio_stage. rewrite Hres.
  destruct resource as [|c r]; [congruence|].
  assert (Hlg : match download_video (c :: r) audio_opts with
                | Some (e :: xt) =>
                    (<[T "#MP3" := filename ++ T "." ++ e :: xt]> header,
                     [Info (stage2 song_id "Success.")])
                | _ => (header, [Error (stage2 song_id "Failed.")])
                end = (header, [Error (stage2 song_id "Failed.")])).
  { destruct (download_video (c :: r) audio_opts) as [[|e xt]|];
      simpl in Hfail; congruence. }
  rewrite Hlg. split; [reflexivity|].
  destruct (truthy (header !! T "#VIDEO")).
  - split; [|split; [|reflexivity]].
    + apply lookup_delete_ne. discriminate.
    + intros key Hkey. apply lookup_delete_ne. congruence.
  - auto.
Qed.

Lemma C4_witness :
  let '(header', lg) :=
    audio_stage 1 (Some tt) None (Some (T "abcdefghijk"))
      (fun _ _ => None) (T "Artist - Song") tagged_header in
  lg = [Error (stage2 1 "Failed.")]
  /\ header' !! T "#MP3" = tagged_header !! T "#MP3"
  /\ (forall key, key <> T "#VIDEO" -> header' !! key = tagged_header !! key)
  /\ header' = (if truthy (tagged_header !! T "#VIDEO")
                then delete (T "#VIDEO") tagged_header else tagged_header).
Proof.
  apply (C4_audio_failure_frame 1 tt None (Some (T "abcdefghijk"))
           (fun _ _ => None) (T "Artist - Song") (T "abcdefghijk") tagged_header).
  - reflexivity.
  - discriminate.
  - reflexivity.
Defined.

End AudioStage.

(** ** The duet reassignment *)

Section Duet.
Import SongLoader.

Lemma duet_loop_step (fuel idx : nat) (prev : Z) (notes : list text) (line : text) :
  notes !! idx = Some line ->
  duet_loop (S fuel) idx prev notes
  = match note_start line with
    | None => duet_loop fuel (S idx) prev notes
    | Some None => Raised
    | Some (Some s) =>
        duet_loop fuel (S idx) s
          (if s <? prev then list_insert_at idx P2_line notes else notes)
    end.
Proof.
  intros Hl. cbn [duet_loop]. rewrite Hl. unfold note_start.
  destruct (is_note_line line); [|reflexivity].
  destruct (split_max " " 4 line) as [|? [|beat [|? [|? ?]]]]; reflexivity.
Qed.

Lemma list_insert_at_middle {A} (done todo : list A) (x : A) :
  list_insert_at (length done) x (done ++ todo) = done ++ x :: todo.
Proof.
  unfold list_insert_at.
  rewrite take_app_length, drop_app_length. reflexivity.
Qed.

Lemma lookup_middle {A} (done todo : list A) (x : A) :
  (done ++ x :: todo) !! length done = Some x.
Proof. apply list_lookup_middle. reflexivity. Qed.

(** The loop, once it stands at the end of [done], does to the rest what
    the single pass does; a note it regresses on is visited twice. *)
Lemma duet_loop_mark (todo : list text) :
  forall (done : list text) (prev : Z) (fuel : nat),
    (2 * length todo + 1 <= fuel)%nat ->
    duet_loop fuel (length done) prev (done ++ todo)
    = match mark_regressions prev todo with
      | Some r => Done (done ++ r)
      | None => Raised
      end.
Proof.
  induction todo as [|line rest IH]; intros done prev fuel Hfuel.
  - destruct fuel as [|fuel]; [simpl in Hfuel; lia|].
    simpl. rewrite app_nil_r.
    rewrite lookup_ge_None_2 by lia. reflexivity.
  - destruct fuel as [|fuel]; [simpl in Hfuel; lia|].
    simpl in Hfuel.
    rewrite (duet_loop_step _ _ _ _ line) by apply lookup_middle.
    simpl mark_regressions.
    assert (Hcons : forall x : text, (done ++ [x]) ++ rest = done ++ x :: rest)
      by (intros; rewrite <- app_assoc; reflexivity).
    assert (Hlen : forall x : text, length (done ++ [x]) = S (length done))
      by (intros; rewrite length_app; simpl; lia).
    destruct (note_start line) as [[s|]|] eqn:Hstart; [| reflexivity |].
    + destruct (s <? prev) eqn:Hlt.
      * rewrite list_insert_at_middle.
        destruct fuel as [|fuel]; [lia|].
        replace (done ++ P2_line :: line :: rest)
          with ((done ++ [P2_line]) ++ line :: rest)
          by (rewrite <- app_assoc; reflexivity).
        rewrite <- (Hlen P2_line).
        rewrite (duet_loop_step _ _ _ _ line) by apply lookup_middle.
        rewrite Hstart, Z.ltb_irrefl.
        replace ((done ++ [P2_line]) ++ line :: rest)
          with (((done ++ [P2_line]) ++ [line]) ++ rest)
          by (rewrite <- !app_assoc; reflexivity).
        replace (S (length (done ++ [P2_line])))
          with (length ((done ++ [P2_line]) ++ [line]))
          by (rewrite !length_app; simpl; lia).
        rewrite IH by lia.
        destruct (mark_regressions s rest); simpl; [|reflexivity].
        rewrite <- !app_assoc. reflexivity.
      * rewrite <- (Hcons line), <- (Hlen line).
        rewrite IH by lia.
        destruct (mark_regressions s rest); simpl; [|reflexivity].
        rewrite <- app_assoc. reflexivity.
    + rewrite <- (Hcons line), <- (Hlen line).
      rewrite IH by lia.
      destruct (mark_regressions prev rest); simpl; [|reflexivity].
      rewrite <- app_assoc. reflexivity.
Qed.

(** The loop puts a [P1] marker at the front and a [P2] marker before
    every note that starts below the note before it, the first note
    being compared with 0. *)
Lemma duet_reassign_marks (notes : list text) :
  duet_reassign notes = as_result (mark_regressions 0 notes).
Proof.
  unfold duet_reassign.
  etransitivity;
    [apply (duet_loop_mark (P1_line :: notes) [] 0); simpl; lia|].
  change (mark_regressions 0 (P1_line :: notes))
    with ((fun r => P1_line :: r) <$> mark_regressions 0 notes).
  destruct (mark_regressions 0 notes); reflexivity.
Qed.

(** Once a note has been seen, the largest start beat of the notes under
    way is the start beat of the note before. *)
Lemma mark_below_seen (notes : list text) :
  forall m : Z, mark_below_running_max (Some m) notes = mark_regressions m notes.
Proof.
  induction notes as [|line notes IH]; intros m; [reflexivity|].
  cbn [mark_below_running_max mark_regressions].
  destruct (note_start line) as [[s|]|]; [| reflexivity |].
  - destruct (s <? m) eqn:Hlt.
    + rewrite IH. reflexivity.
    + apply Z.ltb_ge in Hlt. rewrite Z.max_r by exact Hlt.
      rewrite IH. reflexivity.
  - rewrite IH. reflexivity.
Qed.

(** On a stream whose first note does not start before beat 0 the loop
    follows the rule of the specification. *)
Lemma duet_reassign_running_max (notes : list text) :
  first_start_nonneg notes = true ->
  duet_reassign notes = as_result (mark_below_running_max None notes).
Proof.
  intros Hn. rewrite duet_reassign_marks. f_equal.
  induction notes as [|line notes IH]; [reflexivity|].
  cbn [mark_below_running_max mark_regressions first_start_nonneg] in *.
  destruct (note_start line) as [[s|]|]; [| reflexivity |].
  - apply Z.leb_le in Hn.
    assert (Hlt : (s <? 0) = false) by (apply Z.ltb_ge; exact Hn).
    rewrite Hlt, mark_below_seen. reflexivity.
  - rewrite (IH Hn). reflexivity.
Qed.

(** The start beats 0, 4, 8, 2, 6: one [P2] marker, before the note at
    beat 2, by the loop and by the rule of the specification. *)
Lemma duet_reassign_example :
  duet_reassign beats_example
  = Done [P1_line; note_at 0; note_at 4; note_at 8;
          P2_line; note_at 2; note_at 6]
  /\ as_result (mark_below_running_max None beats_example)
     = duet_reassign beats_example.
Proof. split; vm_compute; reflexivity. Qed.

(** C2, at the input on which it fails.  The loop starts with
    [prev_start = 0], so a first note that starts before beat 0 gets a
    [P2] marker, directly after the [P1] marker, although no start beat
    has been seen before it: the rule of the specification puts no marker
    there. *)
Theorem C2_first_note_before_zero :
  duet_reassign upbeat_example
  = Done [P1_line; P2_line; note_at (-3); note_at 1]
  /\ as_result (mark_below_running_max None upbeat_example)
     = Done [P1_line; note_at (-3); note_at 1]
  /\ first_start_nonneg upbeat_example = false.
Proof. repeat split; vm_compute; reflexivity. Qed.

End Duet.

(** ** SearchBuilder *)

Section Search.
Import Db.

(** Without a filter there is no WHERE clause, and every row is selected. *)
Lemma search_default_selects_all (row : SongRow) :
  _where_clause SearchBuilder_default = T ""
  /\ where_holds (_where_clause SearchBuilder_default)
                 (parameters SearchBuilder_default) row = Some true.
Proof. split; reflexivity. Qed.

(** Artist and rating filters select the rows on which both hold. *)
Lemma search_queen_5_conjunction (row : SongRow) :
  _where_clause search_queen_5
  = T " WHERE usdb_song.artist IN (?) AND usdb_song.rating IN (?)"
  /\ where_holds (_where_clause search_queen_5) (parameters search_queen_5) row
     = Some (same_text (r_artist row) (T "Queen") && (r_rating row =? 5)).
Proof.
  split; [reflexivity|].
  cbv -[same_text Z.eqb Z.leb Z.ltb r_artist r_rating r_views].
  destruct (same_text (r_artist row) _), (r_rating row =? 5); reflexivity.
Qed.

(** One range of view counts: from the lower bound, below the upper. *)
Lemma search_range_bounds (lo hi : Z) (row : SongRow) :
  let sb := mkSearchBuilder NONE false [] [] [] [] [] None [] [(lo, Some hi)] None in
  _where_clause sb = T " WHERE usdb_song.views >= ? AND usdb_song.views < ?"
  /\ where_holds (_where_clause sb) (parameters sb) row
     = Some ((lo <=? r_views row) && (r_views row <? hi)).
Proof.
  split; [reflexivity|].
  cbv -[same_text Z.eqb Z.leb Z.ltb r_artist r_rating r_views].
  destruct (lo <=? r_views row), (r_views row <? hi); reflexivity.
Qed.

(** An open range: from the lower bound. *)
Lemma search_range_open (lo : Z) (row : SongRow) :
  let sb := mkSearchBuilder NONE false [] [] [] [] [] None [] [(lo, None)] None in
  _where_clause sb = T " WHERE usdb_song.views >= ?"
  /\ where_holds (_where_clause sb) (parameters sb) row = Some (lo <=? r_views row).
Proof.
  split; [reflexivity|].
  cbv -[same_text Z.eqb Z.leb Z.ltb r_artist r_rating r_views].
  destruct (lo <=? r_views row); reflexivity.
Qed.

(** C3, at the input on which it fails.  With an artist filter and two
    view-count ranges the second range is joined by [OR] to the whole of
    what precedes it: a row of another artist is selected, though the
    filters do not all hold of it. *)
Theorem C3_ranges_escape_conjunction :
  _where_clause search_queen_views
  = T (" WHERE usdb_song.artist IN (?) AND usdb_song.views >= ?"
       ++ " AND usdb_song.views < ? OR usdb_song.views >= ?")
  /\ parameters search_queen_views = [PStr (T "Queen"); PInt 0; PInt 100; PInt 200]
  /\ where_holds (_where_clause search_queen_views)
                 (parameters search_queen_views) abba_row = Some true
  /\ all_filters_hold search_queen_views abba_row = false.
Proof. repeat split; vm_compute; reflexivity. Qed.

End Search.

(** ** Decimal integers *)

Lemma digit_cases (d : N) :
  (d < 10)%N ->
  d = 0%N \/ d = 1%N \/ d = 2%N \/ d = 3%N \/ d = 4%N \/ d = 5%N
  \/ d = 6%N \/ d = 7%N \/ d = 8%N \/ d = 9%N.
Proof. lia. Qed.

Ltac by_digit d H :=
  destruct (digit_cases d H) as [?|[?|[?|[?|[?|[?|[?|[?|[?|?]]]]]]]]]; subst d.

Lemma isdigit_digit_char (d : N) : (d < 10)%N -> isdigit (digit_char d) = true.
Proof. intros H. by_digit d H; reflexivity. Qed.

Lemma digit_val_digit_char (d : N) : (d < 10)%N -> digit_val (digit_char d) = Z.of_N d.
Proof. intros H. by_digit d H; reflexivity. Qed.

Lemma isdigit_not_space (c : ascii) : isdigit c = true -> isspace c = false.
Proof.
  unfold isdigit, isspace. intros H.
  apply andb_true_iff in H as [H1 H2].
  apply N.leb_le in H1, H2.
  repeat match goal with
         | |- context [(?a <=? ?b)%N] => destruct (N.leb_spec a b)
         | |- context [(?a =? ?b)%N] => destruct (N.eqb_spec a b)
         end; simpl; try reflexivity; lia.
Qed.

Lemma isdigit_neq (c x : ascii) : isdigit c = true -> isdigit x = false -> c <> x.
Proof. intros H1 H2 ->. congruence. Qed.

Lemma mod10_lt (n : N) : (n mod 10 < 10)%N.
Proof. apply N.mod_lt. discriminate. Qed.

Lemma digits_of_acc (fuel : nat) :
  forall n acc, digits_of fuel n acc = digits_of fuel n [] ++ acc.
Proof.
  induction fuel as [|fuel IH]; intros n acc; simpl; [reflexivity|].
  destruct (n / 10 =? 0)%N; [reflexivity|].
  rewrite IH, (IH _ [_]), <- app_assoc. reflexivity.
Qed.

Lemma digits_of_isdigit (fuel : nat) :
  forall n, forallb isdigit (digits_of fuel n []) = true.
Proof.
  induction fuel as [|fuel IH]; intros n; simpl.
  - rewrite isdigit_digit_char by apply mod10_lt. reflexivity.
  - destruct (n / 10 =? 0)%N; simpl.
    + rewrite isdigit_digit_char by apply mod10_lt. reflexivity.
    + rewrite digits_of_acc, forallb_app, IH. simpl.
      rewrite isdigit_digit_char by apply mod10_lt. reflexivity.
Qed.

Lemma digits_of_nonempty (fuel : nat) (n : N) : digits_of fuel n [] <> [].
Proof.
  destruct fuel; simpl; [discriminate|].
  destruct (n / 10 =? 0)%N; [discriminate|].
  rewrite digits_of_acc. intros H. apply app_eq_nil in H as [_ H]. discriminate.
Qed.

Lemma digits_val_snoc (ds : text) (c : ascii) :
  digits_val (ds ++ [c]) = 10 * digits_val ds + digit_val c.
Proof. unfold digits_val. rewrite fold_left_app. reflexivity. Qed.

Lemma digits_val_single (c : ascii) : digits_val [c] = digit_val c.
Proof. unfold digits_val; simpl. lia. Qed.

Lemma digits_of_val (fuel : nat) :
  forall n, (n < 2 ^ N.of_nat (S fuel))%N ->
            digits_val (digits_of fuel n []) = Z.of_N n.
Proof.
  induction fuel as [|fuel IH]; intros n Hn.
  - simpl in *. rewrite digits_val_single, digit_val_digit_char by apply mod10_lt.
    change (2 ^ 1)%N with 2%N in Hn. rewrite N.mod_small by lia. reflexivity.
  - cbn [digits_of].
    destruct (N.eqb_spec (n / 10) 0) as [Hz|Hz].
    + rewrite digits_val_single, digit_val_digit_char by apply mod10_lt.
      rewrite (N.div_mod n 10) at 2 by discriminate. rewrite Hz. lia.
    + assert (Hdiv : (n / 10 < 2 ^ N.of_nat (S fuel))%N).
      { rewrite Nat2N.inj_succ, N.pow_succ_r' in Hn.
        assert (n / 10 <= n / 2)%N by (apply N.div_le_compat_l; lia).
        assert (n / 2 < 2 ^ N.of_nat (S fuel))%N
          by (apply N.Div0.div_lt_upper_bound; lia).
        lia. }
      rewrite digits_of_acc, digits_val_snoc, (IH _ Hdiv).
      rewrite digit_val_digit_char by apply mod10_lt.
      rewrite (N.div_mod n 10) at 3 by discriminate. lia.
Qed.

Lemma pos_size_nat_gt (p : positive) : (Npos p < 2 ^ N.of_nat (Pos.size_nat p))%N.
Proof.
  induction p as [p IH|p IH|]; cbn [Pos.size_nat];
    rewrite ?Nat2N.inj_succ, ?N.pow_succ_r'; lia.
Qed.

Lemma str_N_val (n : N) : digits_val (str_N n) = Z.of_N n.
Proof.
  unfold str_N. apply digits_of_val.
  rewrite Nat2N.inj_succ, N.pow_succ_r'.
  destruct n as [|p]; [simpl; lia|].
  pose proof (pos_size_nat_gt p). simpl N.size_nat. lia.
Qed.

Lemma str_N_isdigit (n : N) : forallb isdigit (str_N n) = true.
Proof. apply digits_of_isdigit. Qed.

Lemma str_N_nonempty (n : N) : str_N n <> [].
Proof. apply digits_of_nonempty. Qed.

(** [str(n)] is an optional minus sign and a non-empty run of digits. *)
Lemma str_int_shape (z : Z) :
  exists (d : ascii) (ds : text),
    forallb isdigit (d :: ds) = true
    /\ ((0 <= z /\ str_int z = d :: ds /\ digits_val (d :: ds) = z)
        \/ (z < 0 /\ str_int z = "-"%char :: d :: ds /\ digits_val (d :: ds) = - z)).
Proof.
  destruct z as [|p|p].
  - exists "0"%char, []. split; [reflexivity|]. left.
    split; [lia|split; reflexivity].
  - pose proof (str_N_isdigit (Npos p)) as Hd.
    pose proof (str_N_val (Npos p)) as Hv.
    pose proof (str_N_nonempty (Npos p)) as Hn.
    unfold str_int; simpl Z.to_N.
    destruct (str_N (Npos p)) as [|d ds]; [congruence|].
    exists d, ds. split; [exact Hd|]. left.
    split; [lia|split; [reflexivity|]]. rewrite Hv. reflexivity.
  - pose proof (str_N_isdigit (Npos p)) as Hd.
    pose proof (str_N_val (Npos p)) as Hv.
    pose proof (str_N_nonempty (Npos p)) as Hn.
    unfold str_int.
    destruct (str_N (Npos p)) as [|d ds]; [congruence|].
    exists d, ds. split; [exact Hd|]. right.
    split; [lia|split; [reflexivity|]]. rewrite Hv. reflexivity.
Qed.

Lemma lstrip_by_id (p : ascii -> bool) (s : text) : stops p s -> lstrip_by p s = s.
Proof. destruct s as [|c s]; simpl; [reflexivity|]. intros ->. reflexivity. Qed.

Lemma rstrip_by_id (p : ascii -> bool) (s : text) :
  stops p (rev s) -> rstrip_by p s = s.
Proof.
  intros H. unfold rstrip_by. rewrite lstrip_by_id by exact H. apply rev_involutive.
Qed.

Lemma stops_rev_all (p : ascii -> bool) (s : text) :
  Forall (fun c => p c = false) s -> stops p (rev s).
Proof.
  intros H. apply Forall_rev in H.
  destruct (rev s) as [|c r]; simpl; [exact I|].
  now inversion H.
Qed.

Lemma stops_all (p : ascii -> bool) (s : text) :
  Forall (fun c => p c = false) s -> stops p s.
Proof. intros H. destruct s; simpl; [exact I|]. now inversion H. Qed.

Lemma strip_id (s : text) : Forall (fun c => isspace c = false) s -> strip s = s.
Proof.
  intros H. unfold strip, lstrip, rstrip.
  rewrite rstrip_by_id by (apply stops_rev_all; exact H).
  apply lstrip_by_id, stops_all, H.
Qed.

Lemma digits_not_space (ds : text) :
  forallb isdigit ds = true -> Forall (fun c => isspace c = false) ds.
Proof.
  intros H. apply Forall_forall. intros c Hc.
  apply isdigit_not_space. rewrite forallb_forall in H. apply H.
  apply list_elem_of_In. exact Hc.
Qed.

Lemma underscored_digits (s : text) :
  forall (b : bool) (acc : text),
    forallb isdigit s = true -> s <> [] ->
    underscored b s acc = Some (rev acc ++ s).
Proof.
  induction s as [|c s IH]; intros b acc Hd Hne; [congruence|].
  simpl in Hd. apply andb_true_iff in Hd as [Hc Hs].
  simpl. rewrite Hc. destruct s as [|c' s].
  - simpl. reflexivity.
  - rewrite IH by (auto; discriminate). simpl. rewrite <- app_assoc. reflexivity.
Qed.

Lemma isdigit_not_int_space (c : ascii) : isdigit c = true -> int_isspace c = false.
Proof.
  unfold isdigit, int_isspace. intros H.
  apply andb_true_iff in H as [H1 H2].
  apply N.leb_le in H1, H2.
  repeat match goal with
         | |- context [(?a <=? ?b)%N] => destruct (N.leb_spec a b)
         | |- context [(?a =? ?b)%N] => destruct (N.eqb_spec a b)
         end; simpl; try reflexivity; lia.
Qed.

Lemma int_strip_id (s : text) :
  Forall (fun c => int_isspace c = false) s -> int_strip s = s.
Proof.
  intros H. unfold int_strip.
  rewrite rstrip_by_id by (apply stops_rev_all; exact H).
  apply lstrip_by_id, stops_all, H.
Qed.

Lemma digits_not_int_space (ds : text) :
  forallb isdigit ds = true -> Forall (fun c => int_isspace c = false) ds.
Proof.
  intros H. apply Forall_forall. intros c Hc.
  apply isdigit_not_int_space. rewrite forallb_forall in H. apply H.
  apply list_elem_of_In. exact Hc.
Qed.

(** [int] of a non-empty run of digits. *)
Lemma int_of_text_digits (ds : text) :
  ds <> [] -> forallb isdigit ds = true ->
  int_of_text ds
  = if (N.of_nat (length ds) <=? int_max_str_digits)%N
    then Some (digits_val ds) else None.
Proof.
  intros Hne Hd. destruct ds as [|d ds]; [congruence|]. unfold int_of_text.
  rewrite int_strip_id by (apply digits_not_int_space; exact Hd).
  assert (Hdd : isdigit d = true)
    by (cbn [forallb] in Hd; apply andb_true_iff in Hd; tauto).
  destruct (ascii_eqb d "-") eqn:E1;
    [apply ascii_eqb_eq in E1; subst d; discriminate Hdd|].
  destruct (ascii_eqb d "+") eqn:E2;
    [apply ascii_eqb_eq in E2; subst d; discriminate Hdd|].
  rewrite underscored_digits by (auto; discriminate). simpl rev. simpl app.
  reflexivity.
Qed.

(** [int] of a minus sign and a non-empty run of digits. *)
Lemma int_of_text_minus_digits (ds : text) :
  ds <> [] -> forallb isdigit ds = true ->
  int_of_text ("-"%char :: ds)
  = if (N.of_nat (length ds) <=? int_max_str_digits)%N
    then Some (- digits_val ds) else None.
Proof.
  intros Hne Hd. unfold int_of_text.
  rewrite int_strip_id
    by (constructor; [reflexivity | apply digits_not_int_space; exact Hd]).
  rewrite ascii_eqb_refl. cbv iota beta.
  rewrite underscored_digits by (auto; discriminate). simpl rev. simpl app.
  reflexivity.
Qed.

Lemma str_int_abs (z : Z) :
  str_int z = (if z <? 0 then T "-" else []) ++ str_N (Z.abs_N z).
Proof. destruct z; reflexivity. Qed.

(** [int(str(n)) == n] for an integer within the limit of digits. *)
Lemma int_of_text_str_int (z : Z) :
  int_digits_ok z = true -> int_of_text (str_int z) = Some z.
Proof.
  unfold int_digits_ok. intros Hok.
  pose proof (str_N_isdigit (Z.abs_N z)) as Hd.
  pose proof (str_N_nonempty (Z.abs_N z)) as Hne.
  pose proof (str_N_val (Z.abs_N z)) as Hv.
  rewrite str_int_abs. destruct (z <? 0) eqn:Hz.
  - change (T "-" ++ str_N (Z.abs_N z)) with ("-"%char :: str_N (Z.abs_N z)).
    rewrite (int_of_text_minus_digits _ Hne Hd), Hok, Hv.
    apply Z.ltb_lt in Hz. f_equal. lia.
  - cbn [app]. rewrite (int_of_text_digits _ Hne Hd), Hok, Hv.
    apply Z.ltb_ge in Hz. f_equal. lia.
Qed.

(** A run of [k] digits stands for a number below [10^k]. *)
Lemma digits_val_bound (ds : text) :
  forallb isdigit ds = true ->
  0 <= digits_val ds < 10 ^ Z.of_nat (length ds).
Proof.
  unfold digits_val.
  assert (H : forall a, 0 <= a -> forallb isdigit ds = true ->
                        0 <= fold_left (fun a c => 10 * a + digit_val c) ds a
                        < (a + 1) * 10 ^ Z.of_nat (length ds)).
  { induction ds as [|d ds IH]; intros a Ha Hd.
    - cbn [fold_left length]. change (10 ^ Z.of_nat 0) with 1. lia.
    - cbn [forallb] in Hd. apply andb_true_iff in Hd as [Hd Hds].
      assert (Hv : 0 <= digit_val d <= 9).
      { unfold isdigit, digit_val in *. apply andb_true_iff in Hd as [H1 H2].
        apply N.leb_le in H1, H2. lia. }
      cbn [fold_left]. specialize (IH (10 * a + digit_val d) ltac:(lia) Hds).
      cbn [length]. rewrite Nat2Z.inj_succ, Z.pow_succ_r by lia.
      assert (Hp : 0 < 10 ^ Z.of_nat (length ds)) by (apply Z.pow_pos_nonneg; lia).
      nia. }
  intros Hd. specialize (H 0 ltac:(lia) Hd). lia.
Qed.

(** [str] writes a number below [10^k] with at most [k] digits. *)
Lemma digits_of_length (fuel : nat) :
  forall (n : N) (acc : text) (k : nat),
    (0 < k)%nat -> (n < 10 ^ N.of_nat k)%N ->
    (length (digits_of fuel n acc) <= k + length acc)%nat.
Proof.
  induction fuel as [|fuel IH]; intros n acc k Hk Hn; cbn [digits_of].
  - cbn [length]. lia.
  - destruct (N.eqb_spec (n / 10) 0) as [E|E]; [cbn [length]; lia|].
    destruct k as [|[|k]]; [lia| |].
    + exfalso. apply E. apply N.div_small. exact Hn.
    + specialize (IH (n / 10)%N (digit_char (n mod 10) :: acc) (S k) ltac:(lia)).
      cbn [length] in IH. rewrite <- Nat.add_succ_comm in IH. apply IH.
      apply N.Div0.div_lt_upper_bound.
      rewrite (Nat2N.inj_succ (S k)), N.pow_succ_r' in Hn. exact Hn.
Qed.

Lemma str_N_length (n : N) (k : nat) :
  (0 < k)%nat -> (n < 10 ^ N.of_nat k)%N -> (length (str_N n) <= k)%nat.
Proof.
  intros Hk Hn. pose proof (digits_of_length (N.size_nat n) n [] k Hk Hn) as H.
  cbn [length] in H. unfold str_N. lia.
Qed.

(** What [int] reads is an integer within the limit of digits. *)
Lemma digits_val_ok (ds : text) :
  ds <> [] -> forallb isdigit ds = true ->
  (N.of_nat (length ds) <=? int_max_str_digits)%N = true ->
  int_digits_ok (digits_val ds) = true /\ int_digits_ok (- digits_val ds) = true.
Proof.
  intros Hne Hd Hlen. pose proof (digits_val_bound ds Hd) as Hb.
  assert (Hk : (0 < length ds)%nat) by (destruct ds; [congruence | cbn; lia]).
  assert (Hs : (length (str_N (Z.to_N (digits_val ds))) <= length ds)%nat).
  { apply str_N_length; [exact Hk|].
    apply N2Z.inj_lt. rewrite Z2N.id by lia.
    rewrite N2Z.inj_pow, nat_N_Z. simpl Z.of_N. lia. }
  apply N.leb_le in Hlen. unfold int_digits_ok.
  replace (Z.abs_N (digits_val ds)) with (Z.to_N (digits_val ds))
    by (apply N2Z.inj; rewrite N2Z.inj_abs_N, Z2N.id; lia).
  replace (Z.abs_N (- digits_val ds)) with (Z.to_N (digits_val ds))
    by (apply N2Z.inj; rewrite N2Z.inj_abs_N, Z2N.id; lia).
  split; apply N.leb_le; lia.
Qed.

(** ** The matcher on text that matches at the first try *)

Section Matching.
Import Regex.

Lemma many_ok {R} (p : ascii -> bool) (u s : text) (k : text -> option R) (r : R) :
  forallb p u = true -> stops p s -> k s = Some r ->
  many p (u ++ s) k = Some r.
Proof.
  intros Hu Hs Hk. induction u as [|c u IH]; simpl.
  - destruct s as [|c s]; simpl; [exact Hk|]. simpl in Hs. rewrite Hs. exact Hk.
  - simpl in Hu. apply andb_true_iff in Hu as [Hc Hu].
    rewrite Hc, (IH Hu). reflexivity.
Qed.

Lemma take_consumed (u s : text) : take (length (u ++ s) - length s) (u ++ s) = u.
Proof.
  rewrite length_app. replace (length u + length s - length s)%nat with (length u) by lia.
  apply take_app_length.
Qed.

Lemma run_seq (a b : regex) (s : text) (g : groups)
    (k : text -> groups -> option groups) :
  run (Seq a b) s g k = run a s g (fun s' g' => run b s' g' k).
Proof. reflexivity. Qed.

Lemma run_opt_skip (a : regex) (s : text) (g : groups)
    (k : text -> groups -> option groups) (r : groups) :
  run a s g k = None -> k s g = Some r -> run (Opt a) s g k = Some r.
Proof. intros Ha Hk. cbn [run]. rewrite Ha. exact Hk. Qed.

Lemma run_opt_take (a : regex) (s : text) (g : groups)
    (k : text -> groups -> option groups) (r : groups) :
  run a s g k = Some r -> run (Opt a) s g k = Some r.
Proof. intros Ha. cbn [run]. rewrite Ha. reflexivity. Qed.

Lemma run_chr (c : ascii) (s : text) (g : groups)
    (k : text -> groups -> option groups) :
  run (One (Chr c)) (c :: s) g k = k s g.
Proof. cbn [run cmatch]. rewrite ascii_eqb_refl. reflexivity. Qed.

Lemma run_chr_other (c x : ascii) (s : text) (g : groups)
    (k : text -> groups -> option groups) :
  c <> x -> run (One (Chr c)) (x :: s) g k = None.
Proof.
  intros H. cbn [run cmatch]. apply ascii_eqb_neq in H. rewrite H. reflexivity.
Qed.

Lemma run_opt (a : regex) (s : text) (g : groups)
    (k : text -> groups -> option groups) :
  run (Opt a) s g k
  = match run a s g k with Some r => Some r | None => k s g end.
Proof. reflexivity. Qed.

Lemma run_one_fail (cl : cclass) (c : ascii) (s : text) (g : groups)
    (k : text -> groups -> option groups) :
  cmatch cl c = false -> run (One cl) (c :: s) g k = None.
Proof. intros H. cbn [run]. rewrite H. reflexivity. Qed.

Lemma run_one (cl : cclass) (c : ascii) (s : text) (g : groups)
    (k : text -> groups -> option groups) :
  run (One cl) (c :: s) g k = if cmatch cl c then k s g else None.
Proof. reflexivity. Qed.

Lemma run_group (n : nat) (a : regex) (s : text) (g : groups)
    (k : text -> groups -> option groups) :
  run (Group n a) s g k
  = run a s g (fun s' g' => k s' (<[n := take (length s - length s') s]> g')).
Proof. reflexivity. Qed.

(** [c+] over a non-empty run of the class. *)
Lemma run_many1_ok (cl : cclass) (c : ascii) (u s : text) (g : groups)
    (k : text -> groups -> option groups) (r : groups) :
  forallb (cmatch cl) (c :: u) = true -> stops (cmatch cl) s ->
  k s g = Some r ->
  run (Many1 cl) (c :: u ++ s) g k = Some r.
Proof.
  intros Hu Hs Hk. simpl in Hu. apply andb_true_iff in Hu as [Hc Hu].
  cbn [run Many1]. rewrite Hc. apply many_ok; assumption.
Qed.

(** [c*] over a run of the class. *)
Lemma run_many_ok (cl : cclass) (u s : text) (g : groups)
    (k : text -> groups -> option groups) (r : groups) :
  forallb (cmatch cl) u = true -> stops (cmatch cl) s ->
  k s g = Some r ->
  run (Many cl) (u ++ s) g k = Some r.
Proof. intros Hu Hs Hk. cbn [run]. apply many_ok; assumption. Qed.

(** [(-?\d+)] over a printed integer. *)
Lemma run_int_group (n : nat) (z : Z) (s : text) (g : groups)
    (k : text -> groups -> option groups) (r : groups) :
  stops isdigit s ->
  k s (<[n := str_int z]> g) = Some r ->
  run (Group n (Seq (Opt (One (Chr "-"))) (Many1 Digit))) (str_int z ++ s) g k = Some r.
Proof.
  intros Hs Hk. rewrite run_group, run_seq.
  destruct (str_int_shape z) as (d & ds & Hd & [(Hz & Hz' & _)|(Hz & Hz' & _)]);
    rewrite Hz' in *.
  - assert (Hdd : isdigit d = true) by (simpl in Hd; apply andb_true_iff in Hd; tauto).
    apply run_opt_skip.
    { apply run_chr_other. intros <-. discriminate Hdd. }
    apply (run_many1_ok Digit d ds s); [exact Hd | exact Hs |].
    rewrite take_consumed. exact Hk.
  - apply run_opt_take.
    change (("-"%char :: d :: ds) ++ s) with ("-"%char :: (d :: ds) ++ s).
    rewrite run_chr.
    apply (run_many1_ok Digit d ds s); [exact Hd | exact Hs |].
    change ("-"%char :: (d :: ds) ++ s) with (("-"%char :: d :: ds) ++ s).
    rewrite take_consumed. exact Hk.
Qed.

(** [(\d+)] over a printed natural number. *)
Lemma run_nat_group (n : nat) (z : Z) (s : text) (g : groups)
    (k : text -> groups -> option groups) (r : groups) :
  0 <= z -> stops isdigit s ->
  k s (<[n := str_int z]> g) = Some r ->
  run (Group n (Many1 Digit)) (str_int z ++ s) g k = Some r.
Proof.
  intros Hz Hs Hk. rewrite run_group.
  destruct (str_int_shape z) as (d & ds & Hd & [(_ & Hz' & _)|(Hneg & _)]); [|lia].
  rewrite Hz' in *.
  apply (run_many1_ok Digit d ds s); [exact Hd | exact Hs |].
  rewrite take_consumed. exact Hk.
Qed.

(** [(.+)] over the rest of a line. *)
Lemma run_rest_group (n : nat) (c : ascii) (t : text) (g : groups)
    (k : text -> groups -> option groups) (r : groups) :
  one_line (c :: t) = true ->
  k [] (<[n := c :: t]> g) = Some r ->
  run (Group n (Many1 Dot)) (c :: t) g k = Some r.
Proof.
  intros Hl Hk. rewrite run_group.
  rewrite <- (app_nil_r t) at 1.
  apply (run_many1_ok Dot c t []).
  - unfold one_line, contains in Hl. rewrite negb_true_iff in Hl.
    apply forallb_forall. intros x Hx. unfold cmatch.
    destruct (ascii_eqb x LF) eqn:E; [|reflexivity].
    apply ascii_eqb_eq in E; subst x.
    assert (existsb (ascii_eqb LF) (c :: t) = true); [|congruence].
    apply existsb_exists. exists LF. split; [|apply ascii_eqb_refl].
    exact Hx.
  - exact I.
  - replace (length (c :: t) - length (@nil ascii))%nat with (length (c :: t))
      by (simpl; lia).
    rewrite firstn_all. exact Hk.
Qed.

(** The first character of a printed integer is a digit or a minus. *)
Lemma str_int_head (z : Z) (s : text) :
  stops (cmatch (Chr " ")) (str_int z ++ s)
  /\ stops isspace (str_int z ++ s).
Proof.
  destruct (str_int_shape z) as (d & ds & Hd & [(_ & -> & _)|(_ & -> & _)]).
  - simpl in Hd. apply andb_true_iff in Hd as [Hd _]. simpl. split.
    + apply ascii_eqb_neq. intros <-. discriminate Hd.
    + apply isdigit_not_space, Hd.
  - split; reflexivity.
Qed.

End Matching.

(** ** Notes and line breaks read back *)

Section NotesReadBack.
Import Regex NotesParser.

(** One space before a printed integer. *)
Lemma run_space_before_int (z : Z) (s : text) (g : groups)
    (k : text -> groups -> option groups) (r : groups) :
  k (str_int z ++ s) g = Some r ->
  run (Many1 (Chr " ")) (" "%char :: str_int z ++ s) g k = Some r.
Proof.
  intros Hk.
  apply (run_many1_ok (Chr " ") " "%char [] (str_int z ++ s));
    [reflexivity | apply str_int_head | exact Hk].
Qed.

Lemma stops_digit_space (s : text) : stops isdigit (" "%char :: s).
Proof. reflexivity. Qed.

Lemma Note_str_eq (n : Note) :
  Note_str n
  = NoteKind_value (kind n)
    ++ " "%char :: str_int (start n)
    ++ " "%char :: str_int (duration n)
    ++ " "%char :: str_int (pitch n)
    ++ " "%char :: NotesParser.text_ n.
Proof. reflexivity. Qed.

Lemma wf_note_parts (n : Note) :
  wf_note n = true ->
  0 <= duration n /\ nonempty_text (NotesParser.text_ n) = true
  /\ one_line (NotesParser.text_ n) = true
  /\ int_digits_ok (start n) = true /\ int_digits_ok (duration n) = true
  /\ int_digits_ok (pitch n) = true.
Proof.
  unfold wf_note. rewrite !andb_true_iff, Z.leb_le. tauto.
Qed.

Lemma note_tail_ok (n : Note) (g : groups) :
  wf_note n = true ->
  run note_tail_regex
      (" "%char :: str_int (start n)
       ++ " "%char :: str_int (duration n)
       ++ " "%char :: str_int (pitch n)
       ++ " "%char :: NotesParser.text_ n) g at_end
  = Some (<[5%nat := NotesParser.text_ n]>
            (<[4%nat := str_int (pitch n)]>
               (<[3%nat := str_int (duration n)]>
                  (<[2%nat := str_int (start n)]> g)))).
Proof.
  intros Hwf. apply wf_note_parts in Hwf as (Hd & Ht & Hl & _).
  destruct (NotesParser.text_ n) as [|c t] eqn:Htext; [discriminate Ht|].
  unfold note_tail_regex.
  rewrite run_seq. apply run_opt_skip; [apply run_chr_other; discriminate|].
  rewrite run_seq. apply run_space_before_int.
  rewrite run_seq. apply run_int_group; [apply stops_digit_space|].
  rewrite run_seq. apply run_space_before_int.
  rewrite run_seq. apply run_nat_group; [exact Hd | apply stops_digit_space|].
  rewrite run_seq. apply run_space_before_int.
  rewrite run_seq. apply run_int_group; [apply stops_digit_space|].
  rewrite run_seq, run_chr.
  apply run_rest_group; [exact Hl|]. reflexivity.
Qed.

Lemma NoteKind_of_value (k : NoteKind) : NoteKind_of (NoteKind_value k) = Some k.
Proof. destruct k; reflexivity. Qed.

Lemma fullmatch_note (n : Note) :
  wf_note n = true ->
  fullmatch note_regex (Note_str n)
  = Some (<[5%nat := NotesParser.text_ n]>
            (<[4%nat := str_int (pitch n)]>
               (<[3%nat := str_int (duration n)]>
                  (<[2%nat := str_int (start n)]>
                     (<[1%nat := NoteKind_value (kind n)]> ∅))))).
Proof.
  intros Hwf. rewrite Note_str_eq. unfold fullmatch.
  change note_regex
    with (Seq (Group 1 (One (Chr ":") || One (Chr "*") || One (Chr "F")
                        || One (Chr "R") || One (Chr "G"))%re) note_tail_regex).
  rewrite run_seq.
  pose proof (fun g => note_tail_ok n g Hwf) as Htail.
  set (rest := " "%char :: _) in *.
  change (fun s' g => match s' with [] => Some g | _ :: _ => None end) with at_end.
  destruct (kind n); cbn [NoteKind_value T list_ascii_of_string app];
    cbn [run cmatch ascii_eqb Ascii.eqb Bool.eqb];
    cbv beta;
    replace (length (_ :: rest) - length rest)%nat with 1%nat by (simpl; lia);
    cbn [take firstn]; rewrite Htail; reflexivity.
Qed.

(** A note is read back as it was written. *)
Lemma Note_parse_str (n : Note) : wf_note n = true -> Note_parse (Note_str n) = inr n.
Proof.
  intros Hwf. unfold Note_parse. rewrite (fullmatch_note n Hwf).
  unfold group.
  rewrite lookup_insert_eq.
  do 4 rewrite lookup_insert_ne by discriminate. rewrite lookup_insert_eq.
  do 3 rewrite lookup_insert_ne by discriminate. rewrite lookup_insert_eq.
  do 2 rewrite lookup_insert_ne by discriminate. rewrite lookup_insert_eq.
  do 1 rewrite lookup_insert_ne by discriminate. rewrite lookup_insert_eq.
  cbn [mbind option_bind].
  apply wf_note_parts in Hwf as (_ & _ & _ & Hs & Hd & Hp).
  rewrite NoteKind_of_value, !int_of_text_str_int by assumption.
  destruct n; reflexivity.
Qed.

End NotesReadBack.

Section LineBreaks.
Import Regex NotesParser.

Lemma lstrip_by_keeps_last (p : ascii -> bool) (c : ascii) (u : text) :
  p c = false -> exists r, lstrip_by p (u ++ [c]) = r ++ [c].
Proof.
  intros Hc. induction u as [|x u IH]; simpl.
  - rewrite Hc. exists []. reflexivity.
  - destruct (p x); [exact IH|]. exists (x :: u). reflexivity.
Qed.

(** [rstrip] keeps a first character that is not white space. *)
Lemma rstrip_head (c : ascii) (s : text) :
  isspace c = false -> exists r, rstrip (c :: s) = c :: r.
Proof.
  intros Hc. unfold rstrip, rstrip_by. simpl rev.
  destruct (lstrip_by_keeps_last isspace c (rev s) Hc) as [r Hr].
  rewrite Hr, rev_app_distr. exists (rev r). reflexivity.
Qed.

(** A line whose first character is neither white space nor [E] nor [P]
    is no terminator, and [lstrip] leaves it as it is. *)
Lemma not_terminator (c : ascii) (s : text) :
  isspace c = false -> c <> "E"%char -> c <> "P"%char ->
  lstrip (c :: s) = c :: s
  /\ text_eqb (rstrip (lstrip (c :: s))) (T "E")
     || text_eqb (rstrip (lstrip (c :: s))) (T "P2") = false.
Proof.
  intros Hc HE HP.
  assert (Hl : lstrip (c :: s) = c :: s) by (apply lstrip_by_id; exact Hc).
  split; [exact Hl|]. rewrite Hl.
  destruct (rstrip_head c s Hc) as [r ->].
  apply ascii_eqb_neq in HE, HP. simpl. rewrite HE, HP. reflexivity.
Qed.

Lemma line_break_regex_eq :
  line_break_regex
  = (One (Chr "-") ;; Many (Chr " ") ;;
     Group 1 (Opt (One (Chr "-")) ;; Many1 Digit) ;; line_break_tail_regex)%re.
Proof. reflexivity. Qed.

(** The pattern up to the first beat. *)
Lemma fullmatch_line_break_head (a : Z) (s : text) (r : groups) :
  stops isdigit s ->
  run line_break_tail_regex s (<[1%nat := str_int a]> ∅) at_end = Some r ->
  fullmatch line_break_regex ("-"%char :: " "%char :: str_int a ++ s) = Some r.
Proof.
  intros Hs Hr. unfold fullmatch. rewrite line_break_regex_eq.
  change (fun s' g => match s' with [] => Some g | _ :: _ => None end) with at_end.
  rewrite run_seq, run_chr. rewrite run_seq.
  apply (run_many_ok (Chr " ") [" "%char] (str_int a ++ s));
    [reflexivity | apply str_int_head |].
  rewrite run_seq. apply run_int_group; [exact Hs|]. exact Hr.
Qed.

Lemma line_break_tail_end (g : groups) :
  run line_break_tail_regex [] g at_end = Some g.
Proof. reflexivity. Qed.

Lemma spaces_match (k : nat) : forallb (cmatch (Chr " ")) (spaces k) = true.
Proof. induction k as [|k IH]; [reflexivity | exact IH]. Qed.

Lemma stops_space_other (c : ascii) (t : text) :
  c <> " "%char -> stops (cmatch (Chr " ")) (c :: t).
Proof. intros H. simpl. apply ascii_eqb_neq. congruence. Qed.

(** Blanks and then text stop a run of digits, unless the text comes
    first and starts with one. *)
Lemma stops_digit_spaces (k : nat) (c : ascii) (t : text) :
  (k = 0%nat -> isdigit c = false) -> stops isdigit (spaces k ++ c :: t).
Proof. destruct k as [|k]; intros H; [apply H|]; reflexivity. Qed.

Lemma no_beat_stops (c : ascii) (t : text) :
  no_beat (c :: t) = true -> isdigit c = false.
Proof.
  cbn [no_beat]. destruct (ascii_eqb c "-") eqn:E.
  - apply ascii_eqb_eq in E. subst c. reflexivity.
  - intros H. apply negb_true_iff in H. exact H.
Qed.

(** The second beat has no match at text that is [no_beat]. *)
Lemma run_second_none (s : text) (g : groups)
    (k : text -> groups -> option groups) :
  no_beat s = true ->
  run (Group 2 (Opt (One (Chr "-")) ;; Many1 Digit)) s g k = None.
Proof.
  intros H. rewrite run_group.
  generalize (fun s' g' => k s' (<[2%nat := take (length s - length s') s]> g')).
  intros K. rewrite run_seq, run_opt.
  destruct s as [|c t]; [reflexivity|].
  cbn [no_beat] in H. destruct (ascii_eqb c "-") eqn:E.
  - apply ascii_eqb_eq in E. subst c. rewrite run_chr.
    assert (Ht : run (Many1 Digit) t g K = None).
    { destruct t as [|d t']; [reflexivity|].
      unfold Many1. rewrite run_seq. apply run_one_fail.
      apply negb_true_iff in H. exact H. }
    rewrite Ht. unfold Many1. rewrite run_seq. apply run_one_fail. reflexivity.
  - rewrite (run_chr_other "-" c t)
      by (intros <-; rewrite ascii_eqb_refl in E; discriminate).
    unfold Many1. rewrite run_seq. apply run_one_fail.
    apply negb_true_iff in H. exact H.
Qed.

(** The rest of the line after the beats and any blanks. *)
Lemma run_rest_opt (c : ascii) (t : text) (g : groups) :
  one_line (c :: t) = true ->
  run (Opt (Group 3 (Many1 Dot))) (c :: t) g at_end = Some (<[3%nat := c :: t]> g).
Proof.
  intros Hl. apply run_opt_take. apply run_rest_group; [exact Hl|]. reflexivity.
Qed.

Lemma line_break_tail_second (b : Z) (g : groups) :
  run line_break_tail_regex (" "%char :: str_int b) g at_end
  = Some (<[2%nat := str_int b]> g).
Proof.
  unfold line_break_tail_regex. rewrite run_seq.
  replace (" "%char :: str_int b) with ([" "%char] ++ str_int b ++ [])
    by (rewrite app_nil_r; reflexivity).
  apply (run_many_ok (Chr " ") [" "%char] (str_int b ++ []));
    [reflexivity | apply str_int_head |].
  rewrite run_seq. apply run_opt_take.
  apply run_int_group; [exact I|]. reflexivity.
Qed.

Lemma line_break_tail_second_rest (b : Z) (k : nat) (c : ascii) (t : text)
    (g : groups) :
  c <> " "%char -> one_line (c :: t) = true ->
  (k = 0%nat -> isdigit c = false) ->
  run line_break_tail_regex (" "%char :: str_int b ++ spaces k ++ c :: t) g at_end
  = Some (<[3%nat := c :: t]> (<[2%nat := str_int b]> g)).
Proof.
  intros Hsp Hl Hd. unfold line_break_tail_regex. rewrite run_seq.
  apply (run_many_ok (Chr " ") [" "%char] (str_int b ++ spaces k ++ c :: t));
    [reflexivity | apply str_int_head |].
  rewrite run_seq. apply run_opt_take.
  apply run_int_group; [apply stops_digit_spaces; exact Hd|].
  rewrite run_seq.
  apply (run_many_ok (Chr " ") (spaces k) (c :: t));
    [apply spaces_match | apply stops_space_other; exact Hsp |].
  apply run_rest_opt. exact Hl.
Qed.

Lemma line_break_tail_rest (k : nat) (c : ascii) (t : text) (g : groups) :
  c <> " "%char -> one_line (c :: t) = true -> no_beat (c :: t) = true ->
  run line_break_tail_regex (spaces k ++ c :: t) g at_end
  = Some (<[3%nat := c :: t]> g).
Proof.
  intros Hsp Hl Hn. unfold line_break_tail_regex. rewrite run_seq.
  apply (run_many_ok (Chr " ") (spaces k) (c :: t));
    [apply spaces_match | apply stops_space_other; exact Hsp |].
  rewrite run_seq. apply run_opt_skip; [apply run_second_none; exact Hn|].
  cbv beta. rewrite run_seq.
  apply (run_many_ok (Chr " ") [] (c :: t));
    [reflexivity | apply stops_space_other; exact Hsp |].
  cbv beta. apply run_rest_opt. exact Hl.
Qed.

Lemma line_break_text_eq (a : Z) (s : text) :
  T "- " ++ str_int a ++ s = "-"%char :: " "%char :: str_int a ++ s.
Proof. reflexivity. Qed.

Lemma str_int_truthy (z : Z) : truthy (Some (str_int z)) = true.
Proof.
  destruct (str_int_shape z) as (d & ds & _ & [(_ & -> & _)|(_ & -> & _)]);
    reflexivity.
Qed.

(** [- a] *)
Lemma parse_line_break_bare (a : Z) :
  int_digits_ok a = true ->
  _parse_line_break (T "- " ++ str_int a) = inr (Bare a, None).
Proof.
  intros Ha. unfold _parse_line_break.
  rewrite <- (app_nil_r (str_int a)), line_break_text_eq.
  rewrite (fullmatch_line_break_head a [] _ I (line_break_tail_end _)).
  unfold group.
  rewrite !lookup_insert_ne, !lookup_empty by discriminate. cbn [truthy].
  rewrite lookup_insert_eq. cbn [mbind option_bind].
  rewrite (int_of_text_str_int a Ha). reflexivity.
Qed.

(** [- a b] *)
Lemma parse_line_break_paired (a b : Z) :
  int_digits_ok a = true -> int_digits_ok b = true ->
  _parse_line_break (T "- " ++ str_int a ++ T " " ++ str_int b)
  = inr (Paired a b, None).
Proof.
  intros Ha Hb. unfold _parse_line_break. rewrite line_break_text_eq.
  change (T " " ++ str_int b) with (" "%char :: str_int b).
  rewrite (fullmatch_line_break_head a _ _ (stops_digit_space _)
             (line_break_tail_second b _)).
  unfold group.
  rewrite lookup_insert_eq, str_int_truthy.
  rewrite lookup_insert_ne, lookup_insert_eq by discriminate.
  cbn [mbind option_bind].
  rewrite (int_of_text_str_int a Ha), (int_of_text_str_int b Hb).
  rewrite !lookup_insert_ne, !lookup_empty by discriminate. reflexivity.
Qed.

(** [- a b], blanks or none, and more on the same line *)
Lemma parse_line_break_paired_rest (a b : Z) (k : nat) (c : ascii) (t : text) :
  int_digits_ok a = true -> int_digits_ok b = true ->
  c <> " "%char -> one_line (c :: t) = true ->
  (k = 0%nat -> isdigit c = false) ->
  _parse_line_break
    (T "- " ++ str_int a ++ T " " ++ str_int b ++ spaces k ++ c :: t)
  = inr (Paired a b, Some (c :: t)).
Proof.
  intros Ha Hb Hsp Hl Hd. unfold _parse_line_break. rewrite line_break_text_eq.
  change (T " " ++ str_int b ++ spaces k ++ c :: t)
    with (" "%char :: str_int b ++ spaces k ++ c :: t).
  rewrite (fullmatch_line_break_head a _ _ (stops_digit_space _)
             (line_break_tail_second_rest b k c t _ Hsp Hl Hd)).
  unfold group.
  rewrite lookup_insert_ne, lookup_insert_eq, str_int_truthy by discriminate.
  rewrite !lookup_insert_ne, lookup_insert_eq by discriminate.
  cbn [mbind option_bind].
  rewrite (int_of_text_str_int a Ha), (int_of_text_str_int b Hb).
  rewrite lookup_insert_eq. reflexivity.
Qed.

(** [- a], blanks or none, and more on the same line *)
Lemma parse_line_break_bare_rest (a : Z) (k : nat) (c : ascii) (t : text) :
  int_digits_ok a = true ->
  c <> " "%char -> one_line (c :: t) = true -> no_beat (c :: t) = true ->
  _parse_line_break (T "- " ++ str_int a ++ spaces k ++ c :: t)
  = inr (Bare a, Some (c :: t)).
Proof.
  intros Ha Hsp Hl Hn. unfold _parse_line_break. rewrite line_break_text_eq.
  rewrite (fullmatch_line_break_head a (spaces k ++ c :: t) _
             (stops_digit_spaces k c t (fun _ => no_beat_stops c t Hn))
             (line_break_tail_rest k c t _ Hsp Hl Hn)).
  unfold group.
  rewrite (lookup_insert_ne _ 3%nat 2%nat), (lookup_insert_ne _ 1%nat 2%nat),
    lookup_empty by discriminate.
  cbn [truthy].
  rewrite (lookup_insert_ne _ 3%nat 1%nat), lookup_insert_eq by discriminate.
  cbn [mbind option_bind]. rewrite (int_of_text_str_int a Ha).
  rewrite lookup_insert_eq. reflexivity.
Qed.

(** [Line.parse] on a line that starts with a minus. *)
Lemma Line_parse_from_break (notes : list Note) (s : text) (lines : list text) :
  Line_parse_from notes (("-"%char :: s) :: lines)
  = match _parse_line_break ("-"%char :: s) with
    | inl (NotesParseError err) =>
        let '(r, lg) := Line_parse_from notes lines in (r, Warning err :: lg)
    | inl ValueError => (RaisesValueError, [])
    | inr (lb, next_line) =>
        (Returns (mkLine notes (Some lb),
                  match next_line with
                  | Some (c :: t) => (c :: t) :: lines
                  | _ => lines
                  end),
         [])
    end.
Proof.
  cbn [Line_parse_from].
  destruct (not_terminator "-" s) as [Hl Ht]; [reflexivity | discriminate.. |].
  rewrite Ht, Hl. reflexivity.
Qed.

(** C5.  The record [- 10 20] is read as the paired break (10, 20) and
    [- 10] as the bare break 10; [- abc] raises [NotesParseError], which
    [Line.parse] logs as a warning before it goes on with the next line.
    Text that follows the beats on the line of a break, after any number
    of blanks or none, is returned, and [Line.parse] puts it back as the
    first of the lines left: after two beats [a] and [b] whenever the text
    does not continue the digits of [b], after a single beat [a] whenever
    the text cannot itself be read as a second beat; and whatever text
    [_parse_line_break] returns beside a break, [Line.parse] puts back.
    The beats are any integers that [int] converts. *)
Theorem C5_line_breaks (a b : Z) (k : nat) (c : ascii) (t : text)
    (notes : list Note) (lines : list text) :
  int_digits_ok a = true -> int_digits_ok b = true ->
  c <> " "%char -> one_line (c :: t) = true ->
  _parse_line_break (T "- 10 20") = inr (Paired 10 20, None)
  /\ _parse_line_break (T "- 10") = inr (Bare 10, None)
  /\ _parse_line_break (T "- abc")
     = inl (NotesParseError (invalid_line_break (T "- abc")))
  /\ Line_parse_from notes (T "- abc" :: lines)
     = (let '(r, lg) := Line_parse_from notes lines in
        (r, Warning (invalid_line_break (T "- abc")) :: lg))
  /\ ((k = 0%nat -> isdigit c = false) ->
      _parse_line_break
        (T "- " ++ str_int a ++ T " " ++ str_int b ++ spaces k ++ c :: t)
      = inr (Paired a b, Some (c :: t))
      /\ Line_parse_from notes
           ((T "- " ++ str_int a ++ T " " ++ str_int b ++ spaces k ++ c :: t)
              :: lines)
         = (Returns (mkLine notes (Some (Paired a b)), (c :: t) :: lines), []))
  /\ (no_beat (c :: t) = true ->
      _parse_line_break (T "- " ++ str_int a ++ spaces k ++ c :: t)
      = inr (Bare a, Some (c :: t))
      /\ Line_parse_from notes
           ((T "- " ++ str_int a ++ spaces k ++ c :: t) :: lines)
         = (Returns (mkLine notes (Some (Bare a)), (c :: t) :: lines), []))
  /\ (forall (v : text) (lb : LineBreak),
        _parse_line_break ("-"%char :: v) = inr (lb, Some (c :: t)) ->
        Line_parse_from notes (("-"%char :: v) :: lines)
        = (Returns (mkLine notes (Some lb), (c :: t) :: lines), [])).
Proof.
  intros Ha Hb Hsp Hl.
  split; [vm_compute; reflexivity|].
  split; [vm_compute; reflexivity|].
  split; [vm_compute; reflexivity|].
  split.
  { change (T "- abc") with ("-"%char :: T " abc").
    rewrite Line_parse_from_break.
    change (_parse_line_break ("-"%char :: T " abc"))
      with (@inl exn (LineBreak * option text)
              (NotesParseError (invalid_line_break (T "- abc")))).
    reflexivity. }
  split.
  { intros Hd.
    pose proof (parse_line_break_paired_rest a b k c t Ha Hb Hsp Hl Hd) as Hp.
    split; [exact Hp|].
    change (T "- " ++ str_int a ++ T " " ++ str_int b ++ spaces k ++ c :: t)
      with ("-"%char
              :: " "%char :: str_int a ++ T " " ++ str_int b ++ spaces k ++ c :: t)
      in Hp |- *.
    rewrite Line_parse_from_break, Hp. reflexivity. }
  split.
  { intros Hn.
    pose proof (parse_line_break_bare_rest a k c t Ha Hsp Hl Hn) as Hp.
    split; [exact Hp|].
    change (T "- " ++ str_int a ++ spaces k ++ c :: t)
      with ("-"%char :: " "%char :: str_int a ++ spaces k ++ c :: t) in Hp |- *.
    rewrite Line_parse_from_break, Hp. reflexivity. }
  intros v lb Hp. rewrite Line_parse_from_break, Hp. reflexivity.
Qed.

Lemma C5_witness :
  _parse_line_break (T "- 10 20") = inr (Paired 10 20, None)
  /\ _parse_line_break (T "- 10") = inr (Bare 10, None)
  /\ _parse_line_break (T "- abc")
     = inl (NotesParseError (invalid_line_break (T "- abc")))
  /\ Line_parse_from [] (T "- abc" :: [T "E"])
     = (let '(r, lg) := Line_parse_from [] [T "E"] in
        (r, Warning (invalid_line_break (T "- abc")) :: lg))
  /\ ((1 = 0 -> isdigit ":" = false)%nat ->
      _parse_line_break
        (T "- " ++ str_int 10 ++ T " " ++ str_int 20 ++ spaces 1 ++ T ": 22 2 5 la")
      = inr (Paired 10 20, Some (T ": 22 2 5 la"))
      /\ Line_parse_from []
           ((T "- " ++ str_int 10 ++ T " " ++ str_int 20 ++ spaces 1
               ++ T ": 22 2 5 la") :: [T "E"])
         = (Returns (mkLine [] (Some (Paired 10 20)), T ": 22 2 5 la" :: [T "E"]),
            []))
  /\ (no_beat (T ": 22 2 5 la") = true ->
      _parse_line_break (T "- " ++ str_int 10 ++ spaces 1 ++ T ": 22 2 5 la")
      = inr (Bare 10, Some (T ": 22 2 5 la"))
      /\ Line_parse_from []
           ((T "- " ++ str_int 10 ++ spaces 1 ++ T ": 22 2 5 la") :: [T "E"])
         = (Returns (mkLine [] (Some (Bare 10)), T ": 22 2 5 la" :: [T "E"]), []))
  /\ (forall (v : text) (lb : LineBreak),
        _parse_line_break ("-"%char :: v) = inr (lb, Some (T ": 22 2 5 la")) ->
        Line_parse_from [] (("-"%char :: v) :: [T "E"])
        = (Returns (mkLine [] (Some lb), T ": 22 2 5 la" :: [T "E"]), [])).
Proof.
  apply (C5_line_breaks 10 20 1 ":"%char (T " 22 2 5 la") [] [T "E"]).
  - reflexivity.
  - reflexivity.
  - discriminate.
  - reflexivity.
Defined.

End LineBreaks.

(** ** What the matcher finds *)

Section MatcherSoundness.
Import Text Regex.

(** Greedy repetition: what was taken is a run of the class. *)
Lemma many_split {R} (p : ascii -> bool) (s : text) (k : text -> option R) (r : R) :
  many p s k = Some r ->
  exists u s', s = u ++ s' /\ forallb p u = true /\ k s' = Some r.
Proof.
  induction s as [|c s IH]; simpl.
  - intros H. exists [], []. auto.
  - destruct (p c) eqn:Hc.
    + destruct (many p s k) as [r'|] eqn:E.
      * intros [= <-]. destruct (IH eq_refl) as (u & s' & -> & Hu & Hk).
        exists (c :: u), s'. split; [reflexivity|]. split; [|exact Hk].
        simpl. rewrite Hc. exact Hu.
      * intros H. exists [], (c :: s). auto.
    + intros H. exists [], (c :: s). auto.
Qed.

(** A match that [run] finds is a match of the pattern: the text taken
    is one the pattern stands for, and so is the text of every group
    set. *)
Lemma run_sound (r : regex) :
  forall (s : text) (g : groups) (k : text -> groups -> option groups) (gf : groups),
    run r s g k = Some gf ->
    exists u s' g',
      s = u ++ s' /\ matches r u /\ captured r g g' /\ k s' g' = Some gf.
Proof.
  induction r as [cl|a IHa b IHb|a IHa b IHb|a IHa|cl|n a IHa];
    intros s g k gf Hrun; cbn [run] in Hrun.
  - destruct s as [|c s]; [discriminate|].
    destruct (cmatch cl c) eqn:Hc; [|discriminate].
    exists [c], s, g. repeat split; [|exact Hrun]. exists c. auto.
  - apply IHa in Hrun as (u1 & s1 & g1 & -> & Hm1 & Hc1 & Hrun).
    apply IHb in Hrun as (u2 & s2 & g2 & -> & Hm2 & Hc2 & Hk).
    exists (u1 ++ u2), s2, g2. rewrite app_assoc. repeat split.
    + exists u1, u2. auto.
    + exists g1. auto.
    + exact Hk.
  - destruct (run a s g k) as [r'|] eqn:Ea.
    + injection Hrun as <-.
      apply IHa in Ea as (u & s' & g' & -> & Hm & Hc & Hk).
      exists u, s', g'. cbn [matches captured]. auto.
    + apply IHb in Hrun as (u & s' & g' & -> & Hm & Hc & Hk).
      exists u, s', g'. cbn [matches captured]. auto.
  - destruct (run a s g k) as [r'|] eqn:Ea.
    + injection Hrun as <-.
      apply IHa in Ea as (u & s' & g' & -> & Hm & Hc & Hk).
      exists u, s', g'. cbn [matches captured]. auto.
    + exists [], s, g. cbn [matches captured]. auto.
  - apply many_split in Hrun as (u & s' & -> & Hu & Hk).
    exists u, s', g. cbn [matches captured]. auto.
  - apply IHa in Hrun as (u & s' & g' & -> & Hm & Hc & Hk). cbv beta in Hk.
    rewrite take_consumed in Hk.
    exists u, s', (<[n := u]> g'). cbn [matches captured].
    repeat split; [exact Hm | | exact Hk]. exists g', u. auto.
Qed.

Lemma fullmatch_sound (r : regex) (s : text) (m : groups) :
  fullmatch r s = Some m -> matches r s /\ captured r ∅ m.
Proof.
  unfold fullmatch. intros Hrun.
  apply run_sound in Hrun as (u & s' & g' & -> & Hm & Hc & Hk).
  destruct s'; [|discriminate]. injection Hk as <-.
  rewrite app_nil_r. auto.
Qed.

Lemma captured_no_groups (r : regex) :
  forall g g' : groups, no_groups r = true -> captured r g g' -> g' = g.
Proof.
  induction r as [cl|a IHa b IHb|a IHa b IHb|a IHa|cl|n a IHa];
    intros g g' Hn Hc; cbn [no_groups captured] in *.
  - exact Hc.
  - apply andb_true_iff in Hn as [Ha Hb]. destruct Hc as (g1 & H1 & H2).
    rewrite (IHb _ _ Hb H2). apply (IHa _ _ Ha H1).
  - apply andb_true_iff in Hn as [Ha Hb]. destruct Hc as [H1|H2]; eauto.
  - destruct Hc as [->|H1]; eauto.
  - exact Hc.
  - discriminate Hn.
Qed.

Lemma captured_group (n : nat) (a : regex) (g g' : groups) :
  no_groups a = true -> captured (Group n a) g g' ->
  exists u, matches a u /\ g' = <[n := u]> g.
Proof.
  intros Hn (g1 & u & Hc & Hm & ->).
  rewrite (captured_no_groups a g g1 Hn Hc). exists u. auto.
Qed.

Lemma captured_seq_plain (a b : regex) (g g' : groups) :
  no_groups a = true -> captured (Seq a b) g g' -> captured b g g'.
Proof.
  intros Hn (g1 & Hc & Hb). rewrite (captured_no_groups a g g1 Hn Hc) in Hb. exact Hb.
Qed.

Lemma captured_seq_group (n : nat) (a b : regex) (g g' : groups) :
  no_groups a = true -> captured (Seq (Group n a) b) g g' ->
  exists u, matches a u /\ captured b (<[n := u]> g) g'.
Proof.
  intros Hn (g1 & Hc & Hb).
  apply captured_group in Hc as (u & Hm & ->); [|exact Hn]. exists u. auto.
Qed.

Lemma matches_many1 (cl : cclass) (u : text) :
  matches (Many1 cl) u -> u <> [] /\ forallb (cmatch cl) u = true.
Proof.
  cbn [Many1 matches]. intros (u1 & u2 & -> & (c & -> & Hc) & Hu).
  split; [discriminate|]. cbn [app forallb]. rewrite Hc. exact Hu.
Qed.

End MatcherSoundness.

(** ** The parsing loops end *)

Section Termination.
Import Regex NotesParser.

Lemma many_inv {R} (p : ascii -> bool) (s : text) (k : text -> option R) (r : R) :
  many p s k = Some r ->
  exists s', (length s' <= length s)%nat /\ k s' = Some r.
Proof.
  induction s as [|c s IH]; simpl.
  - intros H. exists []. auto.
  - destruct (p c).
    + destruct (many p s k) as [r'|] eqn:E.
      * intros [= <-]. destruct (IH eq_refl) as (s' & Hlen & Hk).
        exists s'. split; [lia | exact Hk].
      * intros H. exists (c :: s). auto.
    + intros H. exists (c :: s). auto.
Qed.

Lemma bounded_insert (n i : nat) (c : text) (g : groups) :
  (length c <= n)%nat -> bounded n g -> bounded n (<[i := c]> g).
Proof.
  intros Hc Hg j c' Hj. destruct (decide (i = j)) as [->|Hne].
  - rewrite lookup_insert_eq in Hj. injection Hj as <-. exact Hc.
  - rewrite lookup_insert_ne in Hj by exact Hne. apply (Hg j c' Hj).
Qed.

Lemma bounded_empty (n : nat) : bounded n ∅.
Proof. intros i c H. rewrite lookup_empty in H. discriminate. Qed.

(** No group of a match is longer than the text matched. *)
Lemma run_bounded (r : regex) :
  forall (s : text) (g : groups) (k : text -> groups -> option groups)
         (gf : groups) (n : nat),
    (length s <= n)%nat -> bounded n g ->
    (forall s' g' gf', (length s' <= length s)%nat -> bounded n g' ->
                       k s' g' = Some gf' -> bounded n gf') ->
    run r s g k = Some gf -> bounded n gf.
Proof.
  induction r as [cl|a IHa b IHb|a IHa b IHb|a IHa|cl|i a IHa];
    intros s g k gf n Hlen Hg Hk Hrun; cbn [run] in Hrun.
  - destruct s as [|c s]; [discriminate|].
    destruct (cmatch cl c); [|discriminate].
    apply (Hk s g gf); [simpl; lia | exact Hg | exact Hrun].
  - refine (IHa s g _ gf n Hlen Hg _ Hrun).
    intros s' g' gf' Hs' Hg' Hb.
    apply (IHb s' g' k gf' n); [lia | exact Hg' | | exact Hb].
    intros s'' g'' gf'' Hs'' Hg''. apply Hk; [lia | exact Hg''].
  - destruct (run a s g k) as [r'|] eqn:Ea.
    + injection Hrun as <-. apply (IHa s g k r' n Hlen Hg Hk Ea).
    + apply (IHb s g k gf n Hlen Hg Hk Hrun).
  - destruct (run a s g k) as [r'|] eqn:Ea.
    + injection Hrun as <-. apply (IHa s g k r' n Hlen Hg Hk Ea).
    + apply (Hk s g gf); [lia | exact Hg | exact Hrun].
  - apply many_inv in Hrun as (s' & Hs' & Hrun).
    apply (Hk s' g gf Hs' Hg Hrun).
  - refine (IHa s g _ gf n Hlen Hg _ Hrun).
    intros s' g' gf' Hs' Hg' Hk'. cbv beta in Hk'.
    refine (Hk s' _ gf' Hs' _ Hk').
    apply bounded_insert; [|exact Hg'].
    rewrite length_take. lia.
Qed.

(** Every group of a line break is shorter than its line. *)
Lemma line_break_groups_shorter (v : text) (m : groups) :
  fullmatch line_break_regex v = Some m ->
  forall (i : nat) (c : text), m !! i = Some c -> (length c < length v)%nat.
Proof.
  intros Hm. unfold fullmatch in Hm. rewrite line_break_regex_eq, run_seq in Hm.
  destruct v as [|c v]; [discriminate Hm|].
  rewrite run_one in Hm. destruct (cmatch (Chr "-") c); [|discriminate Hm].
  intros i x Hx.
  enough (bounded (length v) m) as Hbd by (specialize (Hbd i x Hx); simpl; lia).
  eapply run_bounded; [| | |exact Hm].
  - reflexivity.
  - apply bounded_empty.
  - intros s' g' gf' _ Hg'. destruct s'; [|discriminate].
    intros [= <-]. exact Hg'.
Qed.

(** What follows a line break on its line is shorter than the line. *)
Lemma line_break_rest_shorter (v : text) (lb : LineBreak) (t : text) :
  _parse_line_break v = inr (lb, Some t) -> (length t < length v)%nat.
Proof.
  unfold _parse_line_break.
  destruct (fullmatch line_break_regex v) as [m|] eqn:Hm; [|discriminate].
  pose proof (line_break_groups_shorter v m Hm) as Hb.
  destruct (truthy (group m 2)).
  - destruct (group m 1 ≫= int_of_text); [|discriminate].
    destruct (group m 2 ≫= int_of_text); [|discriminate].
    intros [= _ H3]. apply (Hb 3%nat t H3).
  - destruct (group m 1 ≫= int_of_text); [|discriminate].
    intros [= _ H3]. apply (Hb 3%nat t H3).
Qed.

(** A beat is a run of digits, after a minus or not. *)
Lemma matches_beat (u : text) :
  matches beat_regex u ->
  exists ds, ds <> [] /\ forallb isdigit ds = true
             /\ (u = ds \/ u = "-"%char :: ds).
Proof.
  unfold beat_regex. cbn [matches].
  intros (u1 & u2 & -> & [->|(c & -> & Hc)] & Hm);
    apply matches_many1 in Hm as [Hne Hd]; exists u2; repeat split; auto.
  right. cbn [cmatch] in Hc. apply ascii_eqb_eq in Hc. subst c. reflexivity.
Qed.

(** [int] converts every beat of a short line. *)
Lemma int_of_beat_short (u : text) :
  matches beat_regex u -> short u -> is_Some (int_of_text u).
Proof.
  intros Hm Hs. apply matches_beat in Hm as (ds & Hne & Hd & [->| ->]).
  - rewrite (int_of_text_digits ds Hne Hd).
    apply N.leb_le in Hs. rewrite Hs. eauto.
  - rewrite (int_of_text_minus_digits ds Hne Hd).
    assert (Hl : (N.of_nat (length ds) <=? int_max_str_digits)%N = true).
    { apply N.leb_le. unfold short in Hs. cbn [length] in Hs. lia. }
    rewrite Hl. eauto.
Qed.

(** The groups of a line break: the first beat, and the second if it
    took part. *)
Lemma line_break_beats (v : text) (m : groups) :
  fullmatch line_break_regex v = Some m ->
  (exists u1, m !! 1%nat = Some u1 /\ matches beat_regex u1)
  /\ (m !! 2%nat = None \/ exists u2, m !! 2%nat = Some u2 /\ matches beat_regex u2).
Proof.
  intros Hm. apply fullmatch_sound in Hm as [_ Hc].
  unfold line_break_regex in Hc.
  apply captured_seq_plain in Hc; [|reflexivity].
  apply captured_seq_plain in Hc; [|reflexivity].
  apply captured_seq_group in Hc as (u1 & Hm1 & Hc); [|reflexivity].
  apply captured_seq_plain in Hc; [|reflexivity].
  destruct Hc as (g2 & H2 & Hc).
  apply captured_seq_plain in Hc; [|reflexivity].
  assert (H1 : g2 !! 1%nat = Some u1
               /\ (g2 !! 2%nat = None
                   \/ exists u2, g2 !! 2%nat = Some u2 /\ matches beat_regex u2)).
  { destruct H2 as [->|H2].
    - rewrite lookup_insert_eq, lookup_insert_ne, lookup_empty by discriminate.
      auto.
    - apply captured_group in H2 as (u2 & Hm2 & ->); [|reflexivity].
      rewrite lookup_insert_ne, !lookup_insert_eq by discriminate.
      split; [reflexivity|]. right. exists u2. auto. }
  destruct Hc as [->|H3].
  - destruct H1 as [H1 H2']. split; [exists u1; auto | exact H2'].
  - apply captured_group in H3 as (u3 & _ & ->); [|reflexivity].
    rewrite !(lookup_insert_ne _ 3%nat) by discriminate.
    destruct H1 as [H1 H2']. split; [exists u1; auto | exact H2'].
Qed.

(** [_parse_line_break] raises no [ValueError] on a short line. *)
Lemma line_break_short (v : text) :
  short v -> _parse_line_break v <> inl ValueError.
Proof.
  intros Hs. unfold _parse_line_break.
  destruct (fullmatch line_break_regex v) as [m|] eqn:Hm; [|discriminate].
  pose proof (line_break_groups_shorter v m Hm) as Hb.
  assert (Hshort : forall (i : nat) (c : text), m !! i = Some c -> short c).
  { intros i c Hc. specialize (Hb i c Hc). unfold short in *. lia. }
  destruct (line_break_beats v m Hm) as [(u1 & H1 & Hm1) H2].
  unfold group. rewrite H1. cbn [mbind option_bind].
  destruct (int_of_beat_short u1 Hm1 (Hshort _ _ H1)) as [b1 ->].
  destruct H2 as [->|(u2 & H2 & Hm2)]; [discriminate|].
  rewrite H2. cbn [mbind option_bind].
  destruct (int_of_beat_short u2 Hm2 (Hshort _ _ H2)) as [b2 ->].
  destruct (truthy (Some u2)); discriminate.
Qed.

Lemma length_lstrip_by (p : ascii -> bool) (s : text) :
  (length (lstrip_by p s) <= length s)%nat.
Proof.
  induction s as [|c s IH]; simpl; [lia|].
  destruct (p c); simpl; lia.
Qed.

Lemma lines_measure_cons (l : text) (ls : list text) :
  lines_measure (l :: ls) = (S (length l) + lines_measure ls)%nat.
Proof. reflexivity. Qed.

(** A call of [Line.parse] that returns on lines that are not exhausted
    leaves fewer characters and lines than it found. *)
Lemma Line_parse_from_measure (lines : list text) :
  forall (notes : list Note) (line : Line) (rest : list text) (lg : log),
    Line_parse_from notes lines = (Returns (line, rest), lg) ->
    match lines with
    | [] => rest = []
    | _ :: _ => (lines_measure rest < lines_measure lines)%nat
    end.
Proof.
  induction lines as [|l lines IH]; intros notes line rest lg;
    [intros [= _ <- _]; reflexivity|].
  assert (Hrec : forall ns line' rest' lg',
             Line_parse_from ns lines = (Returns (line', rest'), lg') ->
             (lines_measure rest' < lines_measure (l :: lines))%nat).
  { intros ns line' rest' lg' E. specialize (IH ns line' rest' lg' E).
    rewrite lines_measure_cons.
    destruct lines; [rewrite IH; simpl; lia | lia]. }
  cbn [Line_parse_from].
  destruct (text_eqb (rstrip (lstrip l)) (T "E")
            || text_eqb (rstrip (lstrip l)) (T "P2")).
  { intros [= _ <- _]. simpl. lia. }
  destruct (startswith (T "-") (lstrip l)).
  - destruct (_parse_line_break (lstrip l)) as [[err|]|[lb next]] eqn:Hlb.
    + destruct (Line_parse_from notes lines) as [[[line' rest']|] lg'] eqn:E;
        [|discriminate].
      intros [= _ <- _]. apply (Hrec notes line' rest' lg' E).
    + discriminate.
    + intros [= _ <- _]. destruct next as [[|c t]|]; try (simpl; lia).
      apply line_break_rest_shorter in Hlb.
      pose proof (length_lstrip_by isspace l) as Hl. unfold lstrip in Hlb.
      rewrite !lines_measure_cons. lia.
  - destruct (Note_parse (lstrip l)) as [err|n].
    + destruct (Line_parse_from notes lines) as [[[line' rest']|] lg'] eqn:E;
        [|discriminate].
      intros [= _ <- _]. apply (Hrec notes line' rest' lg' E).
    + apply Hrec.
Qed.

(** On short lines [Line.parse] returns, and leaves short lines. *)
Lemma Line_parse_from_short (lines : list text) :
  Forall short lines ->
  forall notes : list Note,
    exists (line : Line) (rest : list text) (lg : log),
      Line_parse_from notes lines = (Returns (line, rest), lg)
      /\ Forall short rest.
Proof.
  induction lines as [|l lines IH]; intros Hs notes; [simpl; eauto|].
  apply Forall_cons in Hs as [Hl Hs]. specialize (IH Hs).
  assert (Hll : short (lstrip l)).
  { pose proof (length_lstrip_by isspace l). unfold short, lstrip in *. lia. }
  cbn [Line_parse_from].
  destruct (text_eqb (rstrip (lstrip l)) (T "E")
            || text_eqb (rstrip (lstrip l)) (T "P2")); [eauto|].
  destruct (startswith (T "-") (lstrip l)).
  - destruct (_parse_line_break (lstrip l)) as [[err|]|[lb next]] eqn:Hlb.
    + destruct (IH notes) as (line & rest & lg & -> & Hr). eauto.
    + destruct (line_break_short _ Hll Hlb).
    + eexists _, _, _. split; [reflexivity|].
      destruct next as [[|c t]|]; try exact Hs.
      apply Forall_cons. split; [|exact Hs].
      apply line_break_rest_shorter in Hlb. unfold short in *. lia.
  - destruct (Note_parse (lstrip l)) as [err|n].
    + destruct (IH notes) as (line & rest & lg & -> & Hr). eauto.
    + apply IH.
Qed.

(** The loop of [_player_lines] ends within the measure of its lines. *)
Lemma _player_lines_loop_total (fuel : nat) :
  forall (acc : list Line) (lines : list text),
    (lines_measure lines <= fuel)%nat ->
    is_Some (_player_lines_loop fuel acc lines).
Proof.
  induction fuel as [|fuel IH]; intros acc lines Hm.
  - destruct lines as [|l lines]; [simpl; eauto|].
    rewrite lines_measure_cons in Hm. lia.
  - destruct lines as [|l lines]; [simpl; eauto|].
    cbn [_player_lines_loop]. unfold Line_parse.
    pose proof (Line_parse_from_measure (l :: lines) []) as Hlt.
    destruct (Line_parse_from [] (l :: lines)) as [[[line rest]|] lg]; [|eauto].
    specialize (Hlt line rest lg eq_refl). cbv beta iota in Hlt.
    destruct (is_last line); [eauto|].
    destruct (IH (match notes line with [] => acc | _ :: _ => acc ++ [line] end) rest)
      as [[r lg'] ->]; [lia|]. eauto.
Qed.

(** On short lines the loop returns, and leaves short lines. *)
Lemma _player_lines_loop_short (fuel : nat) :
  forall (acc : list Line) (lines : list text),
    Forall short lines -> (lines_measure lines <= fuel)%nat ->
    exists (ls : list Line) (rest : list text) (lg : log),
      _player_lines_loop fuel acc lines = Some (Returns (ls, rest), lg)
      /\ Forall short rest.
Proof.
  induction fuel as [|fuel IH]; intros acc lines Hs Hm.
  - destruct lines as [|l lines]; [simpl; eauto|].
    rewrite lines_measure_cons in Hm. lia.
  - destruct lines as [|l lines]; [simpl; eauto|].
    cbn [_player_lines_loop]. unfold Line_parse.
    pose proof (Line_parse_from_measure (l :: lines) []) as Hlt.
    destruct (Line_parse_from_short (l :: lines) Hs []) as (line & rest & lg & E & Hr).
    rewrite E. specialize (Hlt line rest lg E). cbv beta iota in Hlt.
    destruct (is_last line); [eauto|].
    destruct (IH (match notes line with [] => acc | _ :: _ => acc ++ [line] end)
                rest Hr) as (ls & rest' & lg' & -> & Hr'); [lia|]. eauto.
Qed.

Lemma _player_lines_total (lines : list text) : is_Some (_player_lines lines).
Proof.
  unfold _player_lines.
  set (lines0 := match lines with
                 | l :: lines' => if startswith (T "P") l then lines' else lines
                 | [] => lines
                 end).
  destruct (_player_lines_loop_total (lines_measure lines0) [] lines0 (le_n _))
    as [[[[ns rest]|] lg] ->]; eauto.
Qed.

Lemma _player_lines_short (lines : list text) :
  Forall short lines ->
  exists (ls : list Line) (rest : list text) (lg : log),
    _player_lines lines = Some (Returns (ls, rest), lg) /\ Forall short rest.
Proof.
  intros Hs. unfold _player_lines.
  set (lines0 := match lines with
                 | l :: lines' => if startswith (T "P") l then lines' else lines
                 | [] => lines
                 end).
  assert (Hs0 : Forall short lines0).
  { unfold lines0. destruct lines as [|l lines']; [exact Hs|].
    destruct (startswith (T "P") l); [|exact Hs].
    apply Forall_cons in Hs as [_ Hs]. exact Hs. }
  destruct (_player_lines_loop_short (lines_measure lines0) [] lines0 Hs0 (le_n _))
    as (ls & rest & lg & -> & Hr). eauto.
Qed.

(** [PlayerNotes.parse] ends on every input. *)
Lemma PlayerNotes_parse_total (lines : list text) :
  is_Some (PlayerNotes_parse lines).
Proof.
  unfold PlayerNotes_parse.
  destruct (_player_lines_total lines) as [[[[ls1 rest1]|] lg1] ->]; [|eauto].
  destruct (_player_lines_total rest1) as [[[[ls2 rest2]|] lg2] ->]; eauto.
Qed.

(** [PlayerNotes.parse] returns on short lines, and leaves short lines. *)
Lemma PlayerNotes_parse_short (lines : list text) :
  Forall short lines ->
  exists (p : PlayerNotes) (rest : list text) (lg : log),
    PlayerNotes_parse lines = Some (Returns (p, rest), lg) /\ Forall short rest.
Proof.
  intros Hs. unfold PlayerNotes_parse.
  destruct (_player_lines_short lines Hs) as (ls1 & rest1 & lg1 & -> & Hs1).
  destruct (_player_lines_short rest1 Hs1) as (ls2 & rest2 & lg2 & -> & Hs2).
  eauto.
Qed.

(** Lines of which none is long are all short. *)
Lemma short_or_long (lines : list text) :
  Forall short lines \/ Exists long lines.
Proof.
  induction lines as [|l lines [IH|IH]].
  - left. constructor.
  - destruct (N.le_gt_cases (N.of_nat (length l)) int_max_str_digits) as [Hl|Hl].
    + left. constructor; assumption.
    + right. apply Exists_cons_hd. exact Hl.
  - right. apply Exists_cons_tl. exact IH.
Qed.

Lemma clear_last_break_terminal (ls : list Line) : ends_terminal (clear_last_break ls).
Proof.
  unfold ends_terminal. induction ls as [|l ls IH]; [exact I|].
  destruct ls as [|l' ls]; [reflexivity|].
  change (clear_last_break (l :: l' :: ls)) with (l :: clear_last_break (l' :: ls)).
  destruct (clear_last_break (l' :: ls)) as [|x xs] eqn:E.
  - destruct ls; discriminate E.
  - exact IH.
Qed.

Lemma clear_last_break_nil (ls : list Line) : clear_last_break ls = [] -> ls = [].
Proof. destruct ls as [|l [|l' ls]]; simpl; congruence. Qed.

Lemma _player_lines_terminal (lines rest : list text) (ls : list Line) (lg : log) :
  _player_lines lines = Some (Returns (ls, rest), lg) -> ends_terminal ls.
Proof.
  unfold _player_lines.
  destruct (_player_lines_loop _ _ _) as [[[[ns r]|] l]|]; [|discriminate..].
  intros [= <- _ _]. apply clear_last_break_terminal.
Qed.

(** C7.  On every input [PlayerNotes.parse] ends.  Whenever it returns,
    the last line of each player's sequence it returns has the terminal
    line break ([line_break = None]), and a second player's sequence that
    is there is not empty.  It returns unless [int] raises its
    [ValueError] on a beat of a line-break record, which takes a line of
    more than 4300 characters. *)
Theorem C7_last_line_terminal (lines : list text) :
  exists (out : outcome (PlayerNotes * list text)) (lg : log),
    PlayerNotes_parse lines = Some (out, lg)
    /\ match out with
       | Returns (p, rest) =>
           ends_terminal (player_1 p)
           /\ match player_2 p with
              | Some ls => ls <> [] /\ ends_terminal ls
              | None => True
              end
       | RaisesValueError => Exists long lines
       end.
Proof.
  destruct (PlayerNotes_parse_total lines) as [[out lg] Hp].
  exists out, lg. split; [exact Hp|].
  destruct out as [[p rest]|].
  - unfold PlayerNotes_parse in Hp.
    destruct (_player_lines lines) as [[[[ls1 rest1]|] lg1]|] eqn:H1;
      [|discriminate..].
    destruct (_player_lines rest1) as [[[[ls2 rest2]|] lg2]|] eqn:H2;
      [|discriminate..].
    injection Hp as <- _ _. cbn [player_1 player_2]. split.
    + apply (_player_lines_terminal _ _ _ _ H1).
    + destruct ls2 as [|l ls2]; [exact I|].
      split; [discriminate|]. apply (_player_lines_terminal _ _ _ _ H2).
  - destruct (short_or_long lines) as [Hs|Hl]; [|exact Hl].
    destruct (PlayerNotes_parse_short lines Hs) as (p & rest & lg' & Hp' & _).
    rewrite Hp' in Hp. discriminate Hp.
Qed.

(** A line break recorded before the end marker is dropped. *)
Lemma trailing_break_dropped :
  PlayerNotes_parse trailing_break_lines
  = Some (Returns (mkPlayerNotes [mkLine [mkNote REGULAR 1 2 3 (T "la")] None] None,
                   []), []).
Proof. vm_compute. reflexivity. Qed.

End Termination.

(** ** Headers.parse *)

Section HeadersParse.
Import NotesParser.
Context `{PyFloat}.

Lemma mem_true (k : text) (l : list text) : mem k l = true <-> In k l.
Proof.
  unfold mem. rewrite existsb_exists. split.
  - intros (x & Hx & E). apply text_eqb_eq in E. subst x. exact Hx.
  - intros Hin. exists k. split; [exact Hin | apply text_eqb_refl].
Qed.

Lemma mem_false_neq (a key : text) (l : list text) :
  mem a l = false -> In key l -> a <> key.
Proof.
  intros Hm Hin ->. apply mem_true in Hin. congruence.
Qed.

(** Splitting at the first colon. *)
Lemma split_max_1_cases (line : text) :
  (contains ":" line = false /\ split_max ":" 1 line = [line])
  \/ (contains ":" line = true
      /\ exists header val, split_max ":" 1 line = [header; val]
                            /\ line = header ++ ":"%char :: val
                            /\ contains ":" header = false).
Proof.
  induction line as [|c line IH].
  - left. split; reflexivity.
  - unfold contains in *. cbn [existsb split_max].
    destruct (ascii_eqb c ":") eqn:E.
    + right. rewrite Ascii.eqb_sym in E. fold (ascii_eqb ":" c). 
      unfold ascii_eqb in *. rewrite E. split; [reflexivity|].
      apply Ascii.eqb_eq in E. subst c.
      exists [], line. repeat split; reflexivity.
    + assert (E' : ascii_eqb ":" c = false).
      { unfold ascii_eqb in *. rewrite Ascii.eqb_sym. exact E. }
      rewrite E'. cbn [orb].
      destruct IH as [[Hc Hs]|[Hc (h & v & Hs & Hl & Hh)]].
      * left. split; [exact Hc|].
        cbn [split_max] in Hs. rewrite Hs. reflexivity.
      * right. split; [exact Hc|]. exists (c :: h), v.
        cbn [split_max] in Hs. rewrite Hs.
        repeat split; [rewrite Hl; reflexivity|].
        cbn [existsb]. rewrite E'. exact Hh.
Qed.

(** What [_set_header_value] does to an attribute of string type. *)
Lemma set_header_value_key (key : text) (kw kw' : Kwargs) (header val : text) :
  In key str_headers ->
  _set_header_value kw header val = Some kw' ->
  (is_Some (kw_fields kw' !! key)
   <-> is_Some (kw_fields kw !! key) \/ attribute_of header = key).
Proof.
  intros Hkey. unfold _set_header_value. fold (attribute_of header).
  set (a := attribute_of header).
  assert (Hins : forall v,
             is_Some (<[a := v]> (kw_fields kw) !! key)
             <-> is_Some (kw_fields kw !! key) \/ a = key).
  { intros v. destruct (decide (a = key)) as [->|Hne].
    - rewrite lookup_insert_eq. split; [right; reflexivity | eauto].
    - rewrite lookup_insert_ne by exact Hne. tauto. }
  destruct (mem a str_headers) eqn:Hs.
  { intros [= <-]. apply Hins. }
  pose proof (mem_false_neq a key _ Hs Hkey) as Hne.
  assert (Hkeep : forall v,
             is_Some (<[a := v]> (kw_fields kw) !! key)
             <-> is_Some (kw_fields kw !! key) \/ a = key) by exact Hins.
  destruct (mem a float_headers).
  { destruct (float_of_text _); [|discriminate]. intros [= <-]. apply Hins. }
  destruct (mem a int_headers).
  { destruct (int_of_text val); [|discriminate]. intros [= <-]. apply Hins. }
  intros [= <-]. cbn [kw_fields]. tauto.
Qed.

(** A value for an attribute of string type is always accepted. *)
Lemma set_header_value_str (key : text) (kw : Kwargs) (header val : text) :
  In key str_headers -> attribute_of header = key ->
  is_Some (_set_header_value kw header val).
Proof.
  intros Hkey Ha. unfold _set_header_value. fold (attribute_of header).
  rewrite Ha. apply mem_true in Hkey. rewrite Hkey. eauto.
Qed.

(** An attribute of string type is set after the header section exactly
    if it was set before or a line of the section gives it. *)
Lemma Headers_parse_loop_key (key : text) (lines : list text) :
  In key str_headers ->
  forall kw : Kwargs,
    is_Some (kw_fields (Headers_parse_loop kw lines).1.1 !! key)
    <-> is_Some (kw_fields kw !! key)
        \/ existsb (gives key) (header_section lines) = true.
Proof.
  intros Hkey. induction lines as [|l lines IH]; intros kw.
  - simpl. split; [auto | intros [?|?]; [assumption | discriminate]].
  - cbn [Headers_parse_loop header_section].
    destruct (startswith (T "#") l) eqn:Hsharp; cbn [negb].
    2:{ simpl. split; [auto | intros [?|?]; [assumption | discriminate]]. }
    cbn [existsb]. unfold gives at 1.
    destruct (split_max_1_cases (removeprefix (T "#") l))
      as [[Hc Hs]|[Hc (h & v & Hs & _ & _)]]; rewrite Hc, Hs; cbn [negb].
    + specialize (IH kw).
      destruct (Headers_parse_loop kw lines) as [[kw' rest] lg].
      cbn [fst] in *. rewrite IH. cbn [orb]. tauto.
    + destruct v as [|c v].
      { rewrite (IH kw). cbn [orb]. tauto. }
      destruct (_set_header_value kw h (c :: v)) as [kw1|] eqn:Hset.
      * rewrite (IH kw1), (set_header_value_key key kw kw1 h (c :: v) Hkey Hset).
        rewrite orb_true_iff, text_eqb_eq. tauto.
      * assert (Hne : text_eqb (attribute_of h) key = false).
        { destruct (text_eqb (attribute_of h) key) eqn:E; [|reflexivity].
          apply text_eqb_eq in E.
          destruct (set_header_value_str key kw h (c :: v) Hkey E) as [x Hx].
          congruence. }
        rewrite Hne. cbn [orb]. specialize (IH kw).
        destruct (Headers_parse_loop kw lines) as [[kw' rest] lg].
        cbn [fst] in *. exact IH.
Qed.

Lemma is_Some_bool {A} (o : option A) (b : bool) :
  (is_Some o <-> b = true) ->
  match o with Some _ => b = true | None => b = false end.
Proof.
  intros Hiff. destruct o.
  - apply Hiff. eauto.
  - destruct b; [|reflexivity].
    destruct (proj2 Hiff eq_refl) as [x Hx]. discriminate.
Qed.

(** A header line without a separator is logged and skipped. *)
Lemma Headers_parse_loop_no_separator (kw : Kwargs) (l : text) (lines : list text) :
  startswith (T "#") l = true ->
  contains ":" (removeprefix (T "#") l) = false ->
  Headers_parse_loop kw (l :: lines)
  = (let '(kw', rest, lg) := Headers_parse_loop kw lines in
     (kw', rest,
      Warning (T "header without value: '" ++ removeprefix (T "#") l ++ T "'") :: lg)).
Proof.
  intros Hs Hc. cbn [Headers_parse_loop]. rewrite Hs, Hc. reflexivity.
Qed.

Lemma split_max_1_header (header val : text) :
  contains ":" header = false ->
  split_max ":" 1 (header ++ ":"%char :: val) = [header; val]
  /\ contains ":" (header ++ ":"%char :: val) = true.
Proof.
  intros Hh. induction header as [|c header IH].
  - split; reflexivity.
  - unfold contains in *. cbn [existsb] in Hh.
    apply orb_false_iff in Hh as [Hc Hh]. destruct (IH Hh) as [IH1 IH2].
    assert (Hc' : ascii_eqb c ":" = false).
    { unfold ascii_eqb in *. rewrite Ascii.eqb_sym. exact Hc. }
    split.
    + change ((c :: header) ++ ":"%char :: val)
        with (c :: (header ++ ":"%char :: val)).
      cbn [split_max]. rewrite Hc'. cbn [split_max] in IH1. rewrite IH1.
      reflexivity.
    + change ((c :: header) ++ ":"%char :: val)
        with (c :: (header ++ ":"%char :: val)).
      cbn [existsb]. rewrite Hc, IH2. reflexivity.
Qed.

(** A header line whose value does not convert is logged and skipped. *)
Lemma Headers_parse_loop_bad_value (kw : Kwargs) (header val : text)
    (lines : list text) :
  contains ":" header = false -> val <> [] ->
  _set_header_value kw header val = None ->
  Headers_parse_loop kw ((T "#" ++ header ++ T ":" ++ val) :: lines)
  = (let '(kw', rest, lg) := Headers_parse_loop kw lines in
     (kw', rest,
      Warning (T "invalid header value: '" ++ header ++ T ":" ++ val ++ T "'") :: lg)).
Proof.
  intros Hh Hv Hset.
  change (T "#" ++ header ++ T ":" ++ val) with ("#"%char :: header ++ ":"%char :: val).
  cbn [Headers_parse_loop].
  change (startswith (T "#") ("#"%char :: header ++ ":"%char :: val)) with true.
  change (removeprefix (T "#") ("#"%char :: header ++ ":"%char :: val))
    with (header ++ ":"%char :: val).
  destruct (split_max_1_header header val Hh) as [-> ->]. cbn [negb].
  destruct val as [|c val]; [congruence|]. rewrite Hset.
  destruct (Headers_parse_loop kw lines) as [[kw' rest] lg].
  change (T ":" ++ (c :: val) ++ T "'") with (":"%char :: (c :: val) ++ T "'").
  rewrite <- !app_assoc. reflexivity.
Qed.

(** The numeric attributes are not of string type, and the integer ones
    are not floats. *)
Lemma float_header_kind (k : text) :
  mem k float_headers = true -> mem k str_headers = false.
Proof.
  intros Hk. apply mem_true in Hk. unfold float_headers in Hk. simpl in Hk.
  repeat (destruct Hk as [<-|Hk]; [reflexivity|]). destruct Hk.
Qed.

Lemma int_header_kind (k : text) :
  mem k int_headers = true ->
  mem k str_headers = false /\ mem k float_headers = false.
Proof.
  intros Hk. apply mem_true in Hk. unfold int_headers in Hk. simpl in Hk.
  repeat (destruct Hk as [<-|Hk]; [split; reflexivity|]). destruct Hk.
Qed.

(** A value for a numeric attribute that does not convert is refused. *)
Lemma set_header_value_numeric (kw : Kwargs) (header val : text) :
  (mem (attribute_of header) float_headers = true
   /\ float_of_text (replace "," (T ".") val) = None)
  \/ (mem (attribute_of header) int_headers = true /\ int_of_text val = None) ->
  _set_header_value kw header val = None.
Proof.
  unfold _set_header_value. fold (attribute_of header).
  intros [[Hf Hv]|[Hi Hv]].
  - rewrite (float_header_kind _ Hf), Hf, Hv. reflexivity.
  - destruct (int_header_kind _ Hi) as [Hs Hf].
    rewrite Hs, Hf, Hi, Hv. reflexivity.
Qed.

(** C6.  [Headers.parse] raises exactly if no line of the header section
    gives the title or none gives the artist; a header line without a
    separator, or with a value for a numeric attribute that does not
    convert, is logged as a warning and leaves the attributes as they
    were, and the loop goes on; when title and artist are there but no
    bpm, the headers are returned and the warning [missing bpm] is
    logged. *)
Theorem C6_headers_parse (lines : list text) :
  raised (Headers_parse lines).1.1
  = negb (existsb (gives (T "title")) (header_section lines)
          && existsb (gives (T "artist")) (header_section lines))
  /\ (forall (kw : Kwargs) (l : text),
        startswith (T "#") l = true ->
        contains ":" (removeprefix (T "#") l) = false ->
        Headers_parse_loop kw (l :: lines)
        = (let '(kw', rest, lg) := Headers_parse_loop kw lines in
           (kw', rest,
            Warning (T "header without value: '" ++ removeprefix (T "#") l ++ T "'")
              :: lg)))
  /\ (forall (kw : Kwargs) (header val : text),
        contains ":" header = false -> val <> [] ->
        (mem (attribute_of header) float_headers = true
         /\ float_of_text (replace "," (T ".") val) = None)
        \/ (mem (attribute_of header) int_headers = true /\ int_of_text val = None) ->
        Headers_parse_loop kw ((T "#" ++ header ++ T ":" ++ val) :: lines)
        = (let '(kw', rest, lg) := Headers_parse_loop kw lines in
           (kw', rest,
            Warning (T "invalid header value: '" ++ header ++ T ":" ++ val ++ T "'")
              :: lg)))
  /\ (let '(kw, rest, lg) := Headers_parse_loop kwargs0 lines in
      raised (Headers_parse lines).1.1 = false ->
      kw_fields kw !! T "bpm" = None ->
      exists h : Headers,
        Headers_parse lines = (inr h, rest, lg ++ [Warning (T "missing bpm")])
        /\ bpm h = float_zero).
Proof.
  split; [|split; [|split]].
  - unfold Headers_parse.
    pose proof (Headers_parse_loop_key (T "title") lines) as Ht.
    pose proof (Headers_parse_loop_key (T "artist") lines) as Ha.
    specialize (Ht ltac:(cbv; auto) kwargs0).
    specialize (Ha ltac:(cbv; auto 10) kwargs0).
    destruct (Headers_parse_loop kwargs0 lines) as [[kw rest] lg].
    cbn [fst] in *.
    assert (Ht' : is_Some (kw_fields kw !! T "title")
                  <-> existsb (gives (T "title")) (header_section lines) = true).
    { rewrite Ht. cbn [kwargs0 kw_fields]. rewrite lookup_empty.
      split; [intros [[x Hx]|?]; [discriminate|assumption] | auto]. }
    assert (Ha' : is_Some (kw_fields kw !! T "artist")
                  <-> existsb (gives (T "artist")) (header_section lines) = true).
    { rewrite Ha. cbn [kwargs0 kw_fields]. rewrite lookup_empty.
      split; [intros [[x Hx]|?]; [discriminate|assumption] | auto]. }
    apply is_Some_bool in Ht', Ha'.
    destruct (kw_fields kw !! T "title"), (kw_fields kw !! T "artist");
      rewrite ?Ht', ?Ha'; cbn [fst raised negb andb];
      rewrite ?andb_false_r; reflexivity.
  - intros kw l. apply Headers_parse_loop_no_separator.
  - intros kw header val Hh Hv Hbad.
    apply Headers_parse_loop_bad_value; [exact Hh | exact Hv |].
    apply set_header_value_numeric. exact Hbad.
  - unfold Headers_parse.
    destruct (Headers_parse_loop kwargs0 lines) as [[kw rest] lg].
    destruct (kw_fields kw !! T "title") eqn:Et; [|discriminate].
    destruct (kw_fields kw !! T "artist") eqn:Ea; [|discriminate].
    intros _ Hbpm. rewrite Hbpm. eexists. split; [reflexivity|].
    cbn [bpm Headers_init]. unfold kw_float. rewrite Hbpm. reflexivity.
Qed.

End HeadersParse.

(** ** The round trip *)

Section RoundTripExample.
Import NotesParser.
#[local] Existing Instance plain_list_str.

Lemma encoded_source_parses :
  try_parse encoded_source = Some (Returns (Some encoded_chart), []).
Proof. reflexivity. Qed.

End RoundTripExample.

(* ===================================================================== *)
(** * Further properties of the code *)
(* ===================================================================== *)

(** ** Notes and lines *)

Section NoteProperties.
Import Regex NotesParser.

(** [Note.parse] reads a note back from the text [Note.__str__] writes,
    if its duration is not negative, its text is a non-empty line, and
    its beats and pitch are integers that [str] and [int] convert. *)
Theorem X_note_round_trip (n : Note) :
  wf_note n = true -> Note_parse (Note_str n) = inr n.
Proof. apply Note_parse_str. Qed.

Lemma X_note_round_trip_witness :
  Note_parse (Note_str golden_note) = inr golden_note.
Proof. apply (X_note_round_trip golden_note). reflexivity. Defined.

(** [_parse_line_break] reads every line break back from the text
    [Line._line_break_str] writes, with nothing left over; the beats
    are any integers, of either sign, that [str] and [int] convert. *)
Theorem X_line_break_round_trip (ns : list Note) (lb : LineBreak) :
  wf_break (Some lb) = true ->
  _parse_line_break <$> _line_break_str (mkLine ns (Some lb))
  = Some (inr (lb, None)).
Proof.
  destruct lb as [b|a b]; cbn [wf_break]; intros Hwf;
    cbn [_line_break_str line_break fmap option_fmap option_map].
  - rewrite (parse_line_break_bare b Hwf). reflexivity.
  - apply andb_true_iff in Hwf as [Ha Hb].
    rewrite (parse_line_break_paired a b Ha Hb). reflexivity.
Qed.

Lemma X_line_break_round_trip_witness :
  _parse_line_break <$> _line_break_str (mkLine [] (Some (Paired (-4) 12)))
  = Some (inr (Paired (-4) 12, None)).
Proof. apply (X_line_break_round_trip [] (Paired (-4) 12)). reflexivity. Defined.

(** The first character of a written note. *)
Lemma Note_str_head (n : Note) :
  exists (c : ascii) (s : text),
    Note_str n = c :: s /\ is_kind_char c = true.
Proof.
  rewrite Note_str_eq.
  destruct (kind n); cbn [NoteKind_value T list_ascii_of_string app];
    eexists; eexists; (split; [reflexivity|reflexivity]).
Qed.

Lemma kind_char_plain (c : ascii) :
  is_kind_char c = true ->
  isspace c = false /\ c <> "E"%char /\ c <> "P"%char /\ c <> "-"%char
  /\ c <> "#"%char.
Proof.
  unfold is_kind_char. cbn [existsb T list_ascii_of_string].
  rewrite !orb_true_iff, !ascii_eqb_eq.
  intros Hc.
  repeat (destruct Hc as [->|Hc];
          [repeat split; first [reflexivity | discriminate]|]).
  discriminate Hc.
Qed.

(** [Line.parse] takes a written note and goes on. *)
Lemma Line_parse_from_note (acc : list Note) (n : Note) (rest : list text) :
  wf_note n = true ->
  Line_parse_from acc (Note_str n :: rest) = Line_parse_from (acc ++ [n]) rest.
Proof.
  intros Hwf. pose proof (Note_parse_str n Hwf) as Hp.
  destruct (Note_str_head n) as (c & s & Hs & Hc). rewrite Hs in *.
  destruct (kind_char_plain c Hc) as (Hsp & HE & HP & Hm & _).
  cbn [Line_parse_from].
  destruct (not_terminator c s Hsp HE HP) as [Hl Ht]. rewrite Ht, Hl.
  assert (Hd : startswith (T "-") (c :: s) = false).
  { cbn [startswith T list_ascii_of_string].
    apply not_eq_sym, ascii_eqb_neq in Hm. rewrite Hm. reflexivity. }
  rewrite Hd, Hp. reflexivity.
Qed.

Lemma Line_parse_from_notes (ns : list Note) :
  forall (acc : list Note) (rest : list text),
    forallb wf_note ns = true ->
    Line_parse_from acc (map Note_str ns ++ rest) = Line_parse_from (acc ++ ns) rest.
Proof.
  induction ns as [|n ns IH]; intros acc rest Hwf.
  - rewrite app_nil_r. reflexivity.
  - cbn [forallb] in Hwf. apply andb_true_iff in Hwf as [Hn Hns].
    cbn [map app]. rewrite (Line_parse_from_note acc n _ Hn), (IH _ _ Hns).
    rewrite <- app_assoc. reflexivity.
Qed.

(** When the lines run out before a terminator, [Line.parse] returns the
    notes read so far as a last line and logs [unterminated line]. *)
Theorem X_unterminated_line (ns : list Note) :
  forallb wf_note ns = true ->
  Line_parse (map Note_str ns)
  = (Returns (mkLine ns None, []), [Warning (T "unterminated line")]).
Proof.
  intros Hwf. unfold Line_parse.
  rewrite <- (app_nil_r (map Note_str ns)).
  rewrite (Line_parse_from_notes ns [] [] Hwf). reflexivity.
Qed.

Lemma X_unterminated_line_witness :
  Line_parse (map Note_str [golden_note; golden_note])
  = (Returns (mkLine [golden_note; golden_note] None, []),
     [Warning (T "unterminated line")]).
Proof. apply (X_unterminated_line [golden_note; golden_note]). reflexivity. Defined.

(** [Note.parse] raises for the empty text and for every text that does
    not start with one of the five kind characters. *)
Theorem X_note_parse_needs_kind (value : text) :
  match value with
  | [] => True
  | c :: _ => is_kind_char c = false
  end ->
  Note_parse value = inl (invalid_note value).
Proof.
  intros Hc. unfold Note_parse.
  assert (Hm : fullmatch note_regex value = None); [|rewrite Hm; reflexivity].
  unfold fullmatch.
  change note_regex
    with (Seq (Group 1 (One (Chr ":") || One (Chr "*") || One (Chr "F")
                        || One (Chr "R") || One (Chr "G"))%re) note_tail_regex).
  rewrite run_seq, run_group.
  destruct value as [|c s]; [reflexivity|].
  unfold is_kind_char in Hc. cbn [existsb T list_ascii_of_string] in Hc.
  rewrite !orb_false_iff in Hc. destruct Hc as (H1 & H2 & H3 & H4 & H5 & _).
  assert (Hsym : forall x, ascii_eqb c x = false -> cmatch (Chr x) c = false).
  { intros x Hx. unfold cmatch, ascii_eqb in *. rewrite Ascii.eqb_sym. exact Hx. }
  cbn [run]. rewrite (Hsym _ H1), (Hsym _ H2), (Hsym _ H3), (Hsym _ H4), (Hsym _ H5).
  reflexivity.
Qed.

Lemma X_note_parse_needs_kind_witness :
  Note_parse (T "E") = inl (invalid_note (T "E")).
Proof. apply (X_note_parse_needs_kind (T "E")). reflexivity. Defined.

End NoteProperties.

(** ** sanitize_filename, continued *)

Section SanitizeProperties.
Import Utils.

Lemma replace_absent (old : ascii) (new s : text) :
  ~ In old s -> replace old new s = s.
Proof.
  unfold replace. induction s as [|c s IH]; intros Hn; [reflexivity|].
  cbn [flat_map]. destruct (ascii_eqb c old) eqn:E.
  - apply ascii_eqb_eq in E. subst c. exfalso. apply Hn. left. reflexivity.
  - rewrite IH; [reflexivity|]. intros Hin. apply Hn. right. exact Hin.
Qed.

(** The replacement passes of [sanitize_filename]. *)
Lemma sanitize_filename_unfold (fname : text) :
  sanitize_filename fname
  = (let replaced :=
       replace "*" (T "-") (replace "|" (T "-") (replace "\" (T "-")
         (replace "/" (T "-") (replace ">" (T ")") (replace "<" (T "(")
           (replace dquote (T "") (replace ":" (T "") (replace "?" (T "") fname))))))))
     in
     if endswith (T ".") replaced
     then rstrip_by (fun c => ascii_eqb c " " || ascii_eqb c ".") replaced
     else replaced).
Proof. reflexivity. Qed.

Lemma replaced_is_clean (c : ascii) (fname : text) :
  In c forbidden_chars ->
  ~ In c (replace "*" (T "-") (replace "|" (T "-") (replace "\" (T "-")
         (replace "/" (T "-") (replace ">" (T ")") (replace "<" (T "(")
           (replace dquote (T "") (replace ":" (T "") (replace "?" (T "") fname))))))))).
Proof.
  intros Hc Hin. cbv in Hc.
  repeat (apply In_replace in Hin;
          destruct Hin as [Hin|[Hin ?]];
          [ cbn in Hin; chars_absurd | ]).
  chars_absurd.
Qed.

Lemma replaced_of_clean (fname : text) :
  (forall c, In c forbidden_chars -> ~ In c fname) ->
  replace "*" (T "-") (replace "|" (T "-") (replace "\" (T "-")
    (replace "/" (T "-") (replace ">" (T ")") (replace "<" (T "(")
      (replace dquote (T "") (replace ":" (T "") (replace "?" (T "") fname))))))))
  = fname.
Proof.
  intros Hclean.
  rewrite (replace_absent "?" _ fname) by (apply Hclean; cbv; tauto).
  rewrite (replace_absent ":" _ fname) by (apply Hclean; cbv; tauto).
  rewrite (replace_absent dquote _ fname) by (apply Hclean; cbv; tauto).
  rewrite (replace_absent "<" _ fname) by (apply Hclean; cbv; tauto).
  rewrite (replace_absent ">" _ fname) by (apply Hclean; cbv; tauto).
  rewrite (replace_absent "/" _ fname) by (apply Hclean; cbv; tauto).
  rewrite (replace_absent "\" _ fname) by (apply Hclean; cbv; tauto).
  rewrite (replace_absent "|" _ fname) by (apply Hclean; cbv; tauto).
  rewrite (replace_absent "*" _ fname) by (apply Hclean; cbv; tauto).
  reflexivity.
Qed.

(** A name without any of the nine characters and without a period at
    its end is returned as it is. *)
Theorem X_sanitize_filename_keeps_clean (fname : text) :
  (forall c, In c forbidden_chars -> ~ In c fname) ->
  endswith (T ".") fname = false ->
  sanitize_filename fname = fname.
Proof.
  intros Hclean Hend. rewrite sanitize_filename_unfold.
  rewrite (replaced_of_clean fname Hclean).
  cbv zeta. rewrite Hend. reflexivity.
Qed.

Lemma X_sanitize_filename_keeps_clean_witness :
  sanitize_filename (T "Queen - Bohemian Rhapsody") = T "Queen - Bohemian Rhapsody".
Proof.
  apply (X_sanitize_filename_keeps_clean (T "Queen - Bohemian Rhapsody")).
  - intros c Hc Hin. cbv in Hc, Hin. chars_absurd.
  - reflexivity.
Defined.

(** Sanitizing twice is sanitizing once. *)
Theorem X_sanitize_filename_idempotent (fname : text) :
  sanitize_filename (sanitize_filename fname) = sanitize_filename fname.
Proof.
  set (out := sanitize_filename fname).
  assert (Hclean : forall c, In c forbidden_chars -> ~ In c out).
  { intros c Hc Hin. subst out. rewrite sanitize_filename_unfold in Hin.
    cbv zeta in Hin. apply (replaced_is_clean c fname Hc).
    destruct (endswith (T ".") _); [|exact Hin].
    now apply In_rstrip_by in Hin. }
  assert (Hend : endswith (T ".") out = false).
  { subst out. rewrite sanitize_filename_unfold. cbv zeta.
    set (replaced := replace "*" _ _).
    destruct (endswith (T ".") replaced) eqn:E; [|exact E].
    apply rstrip_by_not_endswith. reflexivity. }
  rewrite sanitize_filename_unfold, (replaced_of_clean out Hclean).
  cbv zeta. rewrite Hend. reflexivity.
Qed.

End SanitizeProperties.

(** ** Allocation of directories, continued *)

Section AllocationProperties.
Import Utils UtilsNames Regex.

(** What one call of [DirectoryCache.insert] does to the world. *)
Lemma insert_spec (path : Path) (w : World) :
  let '(fresh, w') := DirectoryCache_insert path w in
  ticks w' = S (ticks w) /\ clock w' = clock w /\ on_disk w' = on_disk w
  /\ lifetime_over (_cache w !! path) (clock w (ticks w)) = fresh
  /\ _cache w'
     = if fresh then <[path := clock w (ticks w)]> (_cache w) else _cache w.
Proof.
  unfold DirectoryCache_insert. cbn [_cache clock ticks on_disk].
  destruct (lifetime_over _ _); cbn [_cache clock ticks on_disk]; auto.
Qed.

(** What an allocation that returns has done. *)
Lemma loop_allocated (fuel : nat) :
  forall (path out : Path) (suffix : Z) (w : World) (q : Path) (w' : World),
    next_unique_directory_loop fuel path out suffix w = Allocated q w' ->
    (ticks w < ticks w')%nat /\ clock w' = clock w /\ on_disk w' = on_disk w
    /\ on_disk w q = false
    /\ (exists n, (ticks w <= n < ticks w')%nat /\ _cache w' !! q = Some (clock w n))
    /\ (q = out
        \/ exists k, suffix < k
                     /\ with_name path (name path ++ T " (" ++ str_int k ++ T ")")
                        = Some q).
Proof.
  induction fuel as [|fuel IH]; intros path out suffix w q w' Hrun; [discriminate|].
  cbn [next_unique_directory_loop] in Hrun.
  pose proof (insert_spec out w) as Hins.
  destruct (DirectoryCache_insert out w) as [fresh w1].
  destruct Hins as (Ht & Hc & Hd & Hfresh).
  destruct (negb fresh || on_disk w1 out) eqn:Hbusy.
  - destruct (with_name path _) as [out'|] eqn:Hname; [|discriminate].
    apply IH in Hrun as (Ht' & Hc' & Hd' & Hq & (n & Hn & Hcache) & Hshape).
    split; [lia|]. split; [congruence|]. split; [congruence|].
    split; [congruence|]. split.
    + exists n. split; [lia|]. rewrite Hcache. congruence.
    + right. destruct Hshape as [->|(k & Hk & Hw)].
      * exists (suffix + 1). split; [lia | exact Hname].
      * exists k. split; [lia | exact Hw].
  - injection Hrun as <- <-.
    apply orb_false_iff in Hbusy as [Hf Hdisk]. apply negb_false_iff in Hf.
    subst fresh. destruct Hfresh as [_ Hcache].
    split; [lia|]. split; [exact Hc|]. split; [exact Hd|].
    split; [congruence|]. split; [|left; reflexivity].
    exists (ticks w). split; [lia|]. rewrite Hcache. apply lookup_insert_eq.
Qed.

(** An allocation never returns a path whose registry entry stays live
    throughout the call. *)
Lemma loop_never_live (fuel : nat) :
  forall (path out : Path) (suffix : Z) (w : World) (q' : Path) (w' : World)
         (q : Path) (t : float64),
    next_unique_directory_loop fuel path out suffix w = Allocated q' w' ->
    _cache w !! q = Some t ->
    (forall m, (ticks w <= m < ticks w')%nat ->
               lifetime_over (Some t) (clock w m) = false) ->
    q' <> q.
Proof.
  induction fuel as [|fuel IH]; intros path out suffix w q' w' q t Hrun Hq Hlive;
    [discriminate|].
  pose proof (loop_allocated _ _ _ _ _ _ _ Hrun) as (Hticks & _).
  cbn [next_unique_directory_loop] in Hrun.
  pose proof (insert_spec out w) as Hins.
  destruct (DirectoryCache_insert out w) as [fresh w1].
  destruct Hins as (Ht & Hc & Hd & Hfresh).
  assert (Hkeep : _cache w1 !! q = Some t /\ (fresh = true -> out <> q)).
  { destruct fresh; destruct Hfresh as [Hnow Hcache]; rewrite Hcache.
    - assert (Hne : out <> q).
      { intros ->. rewrite Hq in Hnow.
        rewrite (Hlive (ticks w)) in Hnow by lia. discriminate Hnow. }
      rewrite lookup_insert_ne by exact Hne. auto.
    - split; [exact Hq | discriminate]. }
  destruct Hkeep as [Hq1 Hout].
  destruct (negb fresh || on_disk w1 out) eqn:Hbusy.
  - destruct (with_name path _) as [out'|] eqn:Hname; [|discriminate].
    apply (IH _ _ _ _ _ _ q t Hrun Hq1).
    intros m Hm. rewrite Hc. apply Hlive. lia.
  - injection Hrun as <- <-.
    apply orb_false_iff in Hbusy as [Hf _]. apply negb_false_iff in Hf.
    apply Hout, Hf.
Qed.

(** Two allocations never return the same directory, whatever paths they
    ask for, as long as the second is made within [CACHE_LIFETIME] of the
    first: at every clock reading of the second, the test of
    [DirectoryCache.insert] finds an entry stamped with any reading of the
    first still live. *)
Theorem X_allocations_never_collide (fuel1 fuel2 : nat) (path1 path2 : Path)
    (w w1 w2 : World) (q1 q2 : Path) :
  next_unique_directory fuel1 path1 w = Allocated q1 w1 ->
  next_unique_directory fuel2 path2 w1 = Allocated q2 w2 ->
  (forall n m, (ticks w <= n < ticks w1)%nat -> (ticks w1 <= m < ticks w2)%nat ->
               lifetime_over (Some (clock w n)) (clock w m) = false) ->
  q2 <> q1.
Proof.
  intros H1 H2 Hlive. unfold next_unique_directory in *.
  pose proof (loop_allocated _ _ _ _ _ _ _ H1)
    as (_ & Hc & _ & _ & (n & Hn & Hcache) & _).
  apply (loop_never_live _ _ _ _ _ _ _ q1 (clock w n) H2 Hcache).
  intros m Hm. rewrite Hc. apply Hlive; assumption.
Qed.

Lemma X_allocations_never_collide_witness :
  suffixed_1 queen_path <> queen_path.
Proof.
  apply (X_allocations_never_collide 2 2 queen_path queen_path quiet_world
           after_first after_second).
  - reflexivity.
  - reflexivity.
  - intros n m Hn Hm. cbn [ticks quiet_world after_first after_second] in Hn, Hm.
    assert (n = 0%nat) by lia. subst n.
    assert (m = 1%nat \/ m = 2%nat) as [->| ->] by lia; vm_compute; reflexivity.
Defined.

(** An allocation returns a path that is not on disk and registers it;
    the path is the one asked for or one that [with_name] makes of it with
    a positive number in brackets after the name. *)
Theorem X_allocation_result (fuel : nat) (path : Path) (w : World)
    (q : Path) (w' : World) :
  next_unique_directory fuel path w = Allocated q w' ->
  on_disk w q = false
  /\ is_Some (_cache w' !! q)
  /\ (q = path
      \/ exists k, 0 < k
                   /\ with_name path (name path ++ T " (" ++ str_int k ++ T ")")
                      = Some q).
Proof.
  intros Hrun. unfold next_unique_directory in Hrun.
  apply loop_allocated in Hrun as (_ & _ & _ & Hd & (n & _ & Hc) & Hshape).
  split; [exact Hd|]. split; [rewrite Hc; eauto | exact Hshape].
Qed.

Lemma X_allocation_result_witness :
  on_disk quiet_world queen_path = false
  /\ is_Some (_cache after_first !! queen_path)
  /\ (queen_path = queen_path
      \/ exists k, 0 < k
                   /\ with_name queen_path
                        (name queen_path ++ T " (" ++ str_int k ++ T ")")
                      = Some queen_path).
Proof.
  apply (X_allocation_result 1 queen_path quiet_world queen_path after_first).
  reflexivity.
Defined.

End AllocationProperties.

(** ** Names with a suffix *)

Section NameProperties.
Import Utils UtilsNames Regex.

Lemma startswith_app (p s : text) : startswith p (p ++ s) = true.
Proof.
  induction p as [|c p IH]; [reflexivity|].
  cbn [app startswith]. rewrite ascii_eqb_refl. exact IH.
Qed.

Lemma startswith_split (p s : text) :
  startswith p s = true -> s = p ++ drop (length p) s.
Proof.
  revert s. induction p as [|c p IH]; intros s Hs; [reflexivity|].
  destruct s as [|x s]; [discriminate|].
  cbn [startswith] in Hs. apply andb_true_iff in Hs as [Hc Hs].
  apply ascii_eqb_eq in Hc. subst x. cbn [length drop app].
  f_equal. apply IH, Hs.
Qed.

Lemma removeprefix_app (p s : text) : removeprefix p (p ++ s) = s.
Proof.
  unfold removeprefix. rewrite startswith_app. apply drop_app_length.
Qed.

Lemma startswith_refl (p : text) : startswith p p = true.
Proof. pose proof (startswith_app p []) as H. rewrite app_nil_r in H. exact H. Qed.

Lemma removeprefix_refl (p : text) : removeprefix p p = [].
Proof. pose proof (removeprefix_app p []) as H. rewrite app_nil_r in H. exact H. Qed.

Lemma fullmatch_suffix (ds : text) :
  ds <> [] -> forallb isdigit ds = true ->
  is_Some (fullmatch suffix_regex (T " (" ++ ds ++ T ")")).
Proof.
  intros Hne Hd. destruct ds as [|d ds]; [congruence|].
  unfold fullmatch, suffix_regex.
  change (T " (" ++ (d :: ds) ++ T ")") with (" "%char :: "("%char :: d :: ds ++ T ")").
  rewrite run_seq, run_chr, run_seq, run_chr, run_seq.
  erewrite (run_many1_ok Digit d ds (T ")")); [eauto | exact Hd | reflexivity |].
  reflexivity.
Qed.

Lemma fullmatch_suffix_inv (tail : text) :
  is_Some (fullmatch suffix_regex tail) ->
  exists ds, ds <> [] /\ forallb isdigit ds = true /\ tail = T " (" ++ ds ++ T ")".
Proof.
  intros [g Hg]. unfold fullmatch, suffix_regex in Hg.
  rewrite run_seq in Hg.
  destruct tail as [|c1 tail]; [discriminate|]. rewrite run_one in Hg.
  destruct (cmatch (Chr " ") c1) eqn:E1; [|discriminate].
  cbn [cmatch] in E1. apply ascii_eqb_eq in E1. subst c1. rewrite run_seq in Hg.
  destruct tail as [|c2 tail]; [discriminate|]. rewrite run_one in Hg.
  destruct (cmatch (Chr "(") c2) eqn:E2; [|discriminate].
  cbn [cmatch] in E2. apply ascii_eqb_eq in E2. subst c2. rewrite run_seq in Hg.
  unfold Many1 in Hg. rewrite run_seq in Hg.
  destruct tail as [|d tail]; [discriminate|]. rewrite run_one in Hg.
  destruct (cmatch Digit d) eqn:Ed; [|discriminate].
  cbn [run] in Hg. apply many_split in Hg as (u & s' & -> & Hu & Hk).
  destruct s' as [|c3 s']; [discriminate|].
  destruct (cmatch (Chr ")") c3) eqn:E3; [|discriminate].
  cbn [cmatch] in E3. apply ascii_eqb_eq in E3. subst c3.
  destruct s'; [|discriminate].
  exists (d :: u). split; [discriminate|]. split.
  - cbn [forallb]. cbn [cmatch] in Ed. rewrite Ed. exact Hu.
  - reflexivity.
Qed.

(** On 7-bit text, where the digits of the pattern are the ten digits
    0 to 9, [is_name_maybe_with_suffix] holds exactly of the name itself
    and of the name followed by a space and a non-empty run of digits in
    brackets. *)
Theorem X_is_name_maybe_with_suffix_spec (txt name : text) :
  is_7bit txt = true ->
  is_name_maybe_with_suffix txt name = true
  <-> txt = name
      \/ exists ds, ds <> [] /\ forallb isdigit ds = true
                    /\ txt = name ++ T " (" ++ ds ++ T ")".
Proof.
  intros _. unfold is_name_maybe_with_suffix. split.
  - intros H.
    destruct (startswith name txt) eqn:Hs; cbn [negb] in H; [|discriminate].
    pose proof (startswith_split _ _ Hs) as Hsplit.
    assert (Hrp : removeprefix name txt = drop (length name) txt)
      by (unfold removeprefix; rewrite Hs; reflexivity).
    rewrite Hrp in H. clear Hrp.
    remember (drop (length name) txt) as tail eqn:Htail. clear Htail.
    destruct tail as [|c tail].
    + left. rewrite Hsplit. apply app_nil_r.
    + destruct (fullmatch suffix_regex (c :: tail)) as [g|] eqn:Hm; [|discriminate].
      right.
      destruct (fullmatch_suffix_inv (c :: tail)) as (ds & Hne & Hd & Ht);
        [rewrite Hm; eauto|].
      exists ds. split; [exact Hne|]. split; [exact Hd|].
      rewrite Hsplit, Ht. reflexivity.
  - intros [->|(ds & Hne & Hd & ->)].
    + rewrite startswith_refl, removeprefix_refl. reflexivity.
    + rewrite startswith_app, removeprefix_app. cbn [negb].
      destruct (fullmatch_suffix ds Hne Hd) as [g Hg].
      change (T " (" ++ ds ++ T ")") with (" "%char :: "("%char :: ds ++ T ")") in *.
      rewrite Hg. reflexivity.
Qed.

Lemma X_is_name_maybe_with_suffix_spec_witness :
  is_name_maybe_with_suffix (T "Queen (12)") (T "Queen") = true
  <-> T "Queen (12)" = T "Queen"
      \/ exists ds, ds <> [] /\ forallb isdigit ds = true
                    /\ T "Queen (12)" = T "Queen" ++ T " (" ++ ds ++ T ")".
Proof.
  apply (X_is_name_maybe_with_suffix_spec (T "Queen (12)") (T "Queen")).
  reflexivity.
Defined.

Lemma name_with_name (path q : Path) (n : text) :
  with_name path n = Some q -> name q = n.
Proof.
  unfold with_name. destruct (segments path); [discriminate|].
  intros [= <-]. unfold name. cbn [segments]. apply last_last.
Qed.

Lemma str_int_digits (k : Z) :
  0 <= k -> str_int k <> [] /\ forallb isdigit (str_int k) = true.
Proof.
  intros Hk.
  destruct (str_int_shape k) as (d & ds & Hd & [(_ & -> & _)|(Hneg & _)]); [|lia].
  split; [discriminate | exact Hd].
Qed.

(** The name of a directory that [next_unique_directory] returns is one
    that [is_name_maybe_with_suffix] accepts for the name asked for. *)
Theorem X_allocated_name_recognised (fuel : nat) (path : Path) (w : World)
    (q : Path) (w' : World) :
  next_unique_directory fuel path w = Allocated q w' ->
  is_name_maybe_with_suffix (name q) (name path) = true.
Proof.
  intros Hrun. unfold next_unique_directory in Hrun.
  apply loop_allocated in Hrun as (_ & _ & _ & _ & _ & Hshape).
  assert (Hspec : name q = name path
                  \/ exists ds, ds <> [] /\ forallb isdigit ds = true
                                /\ name q = name path ++ T " (" ++ ds ++ T ")").
  { destruct Hshape as [->|(k & Hk & Hw)]; [left; reflexivity|].
    right. apply name_with_name in Hw.
    destruct (str_int_digits k ltac:(lia)) as [Hne Hd].
    exists (str_int k). auto. }
  unfold is_name_maybe_with_suffix.
  destruct Hspec as [->|(ds & Hne & Hd & ->)].
  - rewrite startswith_refl, removeprefix_refl. reflexivity.
  - rewrite startswith_app, removeprefix_app. cbn [negb].
    destruct (fullmatch_suffix ds Hne Hd) as [g Hg].
    change (T " (" ++ ds ++ T ")") with (" "%char :: "("%char :: ds ++ T ")") in *.
    rewrite Hg. reflexivity.
Qed.

Lemma X_allocated_name_recognised_witness :
  is_name_maybe_with_suffix (name (suffixed_1 queen_path)) (name queen_path) = true.
Proof.
  apply (X_allocated_name_recognised 2 queen_path after_first
           (suffixed_1 queen_path) after_second).
  reflexivity.
Defined.

End NameProperties.

(** ** Statements and the values bound to them *)

Section StatementProperties.
Import Db DbStatements.

Lemma placeholders_app (a b : text) :
  placeholders (a ++ b) = (placeholders a + placeholders b)%nat.
Proof. unfold placeholders. rewrite filter_app, length_app. reflexivity. Qed.

Lemma placeholders_join (sep : text) (parts : list text) :
  placeholders sep = 0%nat ->
  placeholders (join sep parts) = sum_list_with placeholders parts.
Proof.
  intros Hsep. induction parts as [|p parts IH]; [reflexivity|].
  destruct parts as [|p' parts].
  - cbn [join sum_list_with]. lia.
  - change (join sep (p :: p' :: parts)) with (p ++ sep ++ join sep (p' :: parts)).
    rewrite !placeholders_app, Hsep, IH. reflexivity.
Qed.

Lemma placeholders_marks {A} (l : list A) :
  placeholders (join (T ", ") (map (fun _ => T "?") l)) = length l.
Proof.
  rewrite placeholders_join by reflexivity.
  induction l as [|x l IH]; [reflexivity|].
  cbn [map sum_list_with]. rewrite IH. reflexivity.
Qed.

Lemma placeholders_in_values {A} (attribute : text) (values : list A) :
  placeholders attribute = 0%nat ->
  placeholders (_in_values_clause attribute values) = length values.
Proof.
  intros Ha. unfold _in_values_clause.
  rewrite !placeholders_app, Ha, placeholders_marks.
  change (placeholders (T " IN (")) with 0%nat.
  change (placeholders (T ")")) with 0%nat. lia.
Qed.

Lemma placeholders_in_ranges (attribute : text) (values : list (Z * option Z)) :
  placeholders attribute = 0%nat ->
  placeholders (_in_ranges_clause attribute values)
  = length (flat_map (fun '(min_views, max_views) =>
                        PInt min_views
                        :: match max_views with Some m => [PInt m] | None => [] end)
                     values).
Proof.
  intros Ha. unfold _in_ranges_clause. rewrite placeholders_join by reflexivity.
  induction values as [|[lo hi] values IH]; [reflexivity|].
  cbn [map sum_list_with flat_map snd]. rewrite length_app, IH.
  f_equal. rewrite !placeholders_app, Ha.
  change (placeholders (T " >= ?")) with 1%nat.
  destruct hi; [rewrite !placeholders_app, Ha|]; reflexivity.
Qed.

Lemma sum_when {A} (f : A -> nat) (b : bool) (x : A) :
  sum_list_with f (when b x) = if b then f x else 0%nat.
Proof. destruct b; cbn [when sum_list_with]; lia. Qed.

Lemma when_nonempty_length {A} (l : list A) :
  (if nonempty l then length l else 0%nat) = length l.
Proof. destruct l; reflexivity. Qed.

(** The WHERE and ORDER BY clauses have as many placeholders as
    [parameters] yields values, whatever the filters are. *)
Theorem X_placeholders_match_parameters (sb : SearchBuilder) :
  placeholders (_where_clause sb ++ _order_by_clause sb) = length (parameters sb).
Proof.
  rewrite placeholders_app.
  assert (Horder : placeholders (_order_by_clause sb) = 0%nat).
  { unfold _order_by_clause. destruct (order sb), (descending sb); reflexivity. }
  rewrite Horder, Nat.add_0_r.
  assert (Hfilters : sum_list_with placeholders (_filters sb) = length (parameters sb)).
  { unfold _filters, parameters.
    rewrite !sum_list_with_app, !length_app, !sum_when, !length_map.
    rewrite !placeholders_in_values, placeholders_in_ranges by reflexivity.
    rewrite !when_nonempty_length.
    assert (Hg : (if bool_decide (golden_notes sb <> None) then 1 else 0)%nat
                 = length (match golden_notes sb with
                           | Some b => [PBool b] | None => []
                           end)).
    { destruct (golden_notes sb); reflexivity. }
    assert (Hd : sum_list_with placeholders
                   (match downloaded sb with
                    | None => []
                    | Some d =>
                        [T "sync_meta.sync_meta_id IS "
                         ++ (if d then T "NOT " else T "") ++ T "NULL"]
                    end) = 0%nat).
    { destruct (downloaded sb) as [[|]|]; reflexivity. }
    change (placeholders (T "usdb_song.golden_notes = ?")) with 1%nat.
    change (placeholders (T "fts_usdb_song MATCH ?")) with 1%nat.
    rewrite Hg, Hd.
    destruct (nonempty (_fts5_phrases (Db.text_ sb))), (views sb);
      cbn [when length nonempty flat_map]; lia. }
  unfold _where_clause. cbv zeta.
  pose proof (placeholders_join (T " AND ") (_filters sb) eq_refl) as Hj.
  destruct (nonempty (join (T " AND ") (_filters sb))) eqn:Hn.
  - rewrite placeholders_app, Hj, Hfilters. reflexivity.
  - rewrite <- Hfilters, <- Hj.
    destruct (join (T " AND ") (_filters sb)); [reflexivity | discriminate].
Qed.

(** The DELETE statements for sync metas and for resource files have as
    many placeholders as values are bound to them. *)
Theorem X_delete_statements_bind (ids : list Z) (files : list (Z * ResourceFileKind)) :
  placeholders (fst (delete_sync_metas_stmt ids))
  = length (snd (delete_sync_metas_stmt ids))
  /\ placeholders (fst (delete_resource_files_stmt files))
     = length (snd (delete_resource_files_stmt files))
  /\ length (snd (delete_resource_files_stmt files)) = (2 * length files)%nat.
Proof.
  assert (Hlen : length (flat_map (fun '(i, k) =>
                           [PInt i; PStr (ResourceFileKind_value k)]) files)
                 = (2 * length files)%nat).
  { induction files as [|[i k] files IH]; [reflexivity|].
    cbn [flat_map length app]. rewrite IH. lia. }
  split; [|split].
  - unfold delete_sync_metas_stmt. cbn [fst snd].
    rewrite !placeholders_app, placeholders_marks, length_map.
    change (placeholders (T "DELETE FROM sync_meta WHERE sync_meta_id IN ("))
      with 0%nat.
    change (placeholders (T ")")) with 0%nat. lia.
  - unfold delete_resource_files_stmt. cbn [fst snd].
    rewrite !placeholders_app, placeholders_join by reflexivity.
    rewrite Hlen.
    replace (2 * length files / 2)%nat with (length files)
      by (rewrite Nat.mul_comm, Nat.div_mul; [reflexivity | discriminate]).
    change (placeholders (T "DELETE FROM resource_file WHERE (sync_meta_id, kind) IN ("))
      with 0%nat.
    change (placeholders (T ")")) with 0%nat.
    assert (Hs : forall n a, sum_list_with placeholders
                               (map (fun _ => T "(?, ?)") (seq a n)) = (2 * n)%nat).
    { induction n as [|n IHn]; intros a; [reflexivity|].
      cbn [seq map sum_list_with]. rewrite IHn.
      change (placeholders (T "(?, ?)")) with 2%nat. lia. }
    rewrite Hs. lia.
  - exact Hlen.
Qed.

(** ** Full-text phrases *)




End StatementProperties.

(** ** The duet reassignment, continued *)

Section DuetMore.
Import SongLoader.

Lemma mark_regressions_frame (notes : list text) :
  forall (prev : Z) (out : list text),
    mark_regressions prev notes = Some out ->
    drop_markers out = drop_markers notes.
Proof.
  unfold drop_markers.
  induction notes as [|line notes IH]; intros prev out Hm.
  - injection Hm as <-. reflexivity.
  - cbn [mark_regressions] in Hm.
    destruct (note_start line) as [[s|]|] eqn:Hs; [| discriminate |].
    + destruct (mark_regressions s notes) as [r|] eqn:Hr; [|discriminate].
      injection Hm as <-. specialize (IH s r Hr).
      destruct (s <? prev).
      * rewrite filter_cons_False by (intros [_ H]; apply H; reflexivity).
        rewrite !filter_cons, IH. reflexivity.
      * rewrite !filter_cons, IH. reflexivity.
    + destruct (mark_regressions prev notes) as [r|] eqn:Hr; [|discriminate].
      injection Hm as <-. specialize (IH prev r Hr).
      rewrite !filter_cons, IH. reflexivity.
Qed.

Lemma note_start_unreadable (line : text) :
  note_start line = Some None <-> unreadable line.
Proof.
  unfold note_start, unreadable. destruct (is_note_line line); [|split; [discriminate|]].
  - destruct (split_max " " 4 line) as [|? [|beat [|? [|? ?]]]];
      try (split; [auto | reflexivity]).
    split; [intros [= ->]; auto | intros [_ ->]; reflexivity].
  - intros [Hn _]. discriminate Hn.
Qed.

Lemma mark_regressions_raises (notes : list text) :
  forall prev : Z,
    mark_regressions prev notes = None -> Exists unreadable notes.
Proof.
  induction notes as [|line notes IH]; intros prev Hm; [discriminate|].
  cbn [mark_regressions] in Hm.
  destruct (note_start line) as [[s|]|] eqn:Hs.
  - destruct (mark_regressions s notes) eqn:Hr; [discriminate|].
    apply Exists_cons_tl, (IH s Hr).
  - apply Exists_cons_hd, note_start_unreadable, Hs.
  - destruct (mark_regressions prev notes) eqn:Hr; [discriminate|].
    apply Exists_cons_tl, (IH prev Hr).
Qed.

Lemma mark_regressions_reads (notes : list text) :
  forall (prev : Z) (out : list text),
    mark_regressions prev notes = Some out ->
    Forall (fun line => ~ unreadable line) notes.
Proof.
  induction notes as [|line notes IH]; intros prev out Hm; [constructor|].
  cbn [mark_regressions] in Hm.
  destruct (note_start line) as [[s|]|] eqn:Hs; [| discriminate |].
  - destruct (mark_regressions s notes) as [r|] eqn:Hr; [|discriminate].
    constructor; [|apply (IH s r Hr)].
    intros Hu. apply note_start_unreadable in Hu. congruence.
  - destruct (mark_regressions prev notes) as [r|] eqn:Hr; [|discriminate].
    constructor; [|apply (IH prev r Hr)].
    intros Hu. apply note_start_unreadable in Hu. congruence.
Qed.

(** The reassignment only inserts markers: without the markers its
    result is the note lines it was given.  It raises exactly when some
    note line cannot be read: the line has fewer than four fields between
    blanks, or its second field is not an integer that [int] converts.
    Its loop always ends. *)
Theorem X_duet_reassign_frame (notes : list text) :
  match duet_reassign notes with
  | Done out =>
      drop_markers out = drop_markers notes
      /\ Forall (fun line => ~ unreadable line) notes
  | Raised => Exists unreadable notes
  | OutOfFuel => False
  end.
Proof.
  rewrite duet_reassign_marks.
  destruct (mark_regressions 0 notes) as [out|] eqn:Hm; cbn [as_result].
  - split; [|apply (mark_regressions_reads notes 0 out Hm)].
    unfold drop_markers.
    rewrite filter_cons_False by (intros [H _]; apply H; reflexivity).
    apply (mark_regressions_frame notes 0 out Hm).
  - apply (mark_regressions_raises notes 0 Hm).
Qed.

(** A note line with the start beat alone, and one whose start beat is
    no number. *)
Lemma unreadable_examples :
  unreadable (T ": 5 3" ++ [LF]) /\ unreadable (T ": x 3 5 la" ++ [LF])
  /\ duet_reassign [T ": 5 3" ++ [LF]] = Raised
  /\ duet_reassign [T ": x 3 5 la" ++ [LF]] = Raised.
Proof. repeat split; vm_compute; reflexivity. Qed.

Lemma sorted_from_weaken (lines : list text) :
  forall prev : option Z,
    sorted_from prev lines = true -> sorted_from None lines = true.
Proof.
  induction lines as [|l lines IH]; intros prev Hs; [reflexivity|].
  cbn [sorted_from] in *. destruct (bool_decide (l = P2_line)); [exact Hs|].
  destruct (note_start l) as [[s|]|].
  - apply andb_true_iff in Hs as [_ Hs]. exact Hs.
  - apply (IH prev Hs).
  - apply (IH prev Hs).
Qed.

Lemma note_line_not_marker (l : text) (s : option Z) :
  note_start l = Some s -> bool_decide (l = P2_line) = false.
Proof.
  intros Hs. apply bool_decide_eq_false. intros ->. discriminate Hs.
Qed.

Lemma mark_regressions_sorted (notes : list text) :
  forall (prev : Z) (out : list text),
    mark_regressions prev notes = Some out ->
    sorted_from (Some prev) out = true.
Proof.
  induction notes as [|line notes IH]; intros prev out Hm.
  - injection Hm as <-. reflexivity.
  - cbn [mark_regressions] in Hm.
    destruct (note_start line) as [[s|]|] eqn:Hs; [| discriminate |].
    + destruct (mark_regressions s notes) as [r|] eqn:Hr; [|discriminate].
      injection Hm as <-. specialize (IH s r Hr).
      destruct (s <? prev) eqn:Hlt.
      * cbn [sorted_from]. rewrite bool_decide_eq_true_2 by reflexivity.
        rewrite (note_line_not_marker line _ Hs), Hs. exact IH.
      * cbn [sorted_from]. rewrite (note_line_not_marker line _ Hs), Hs, IH.
        apply Z.ltb_ge in Hlt. apply Z.leb_le in Hlt. rewrite Hlt. reflexivity.
    + destruct (mark_regressions prev notes) as [r|] eqn:Hr; [|discriminate].
      injection Hm as <-. specialize (IH prev r Hr).
      cbn [sorted_from]. rewrite Hs.
      destruct (bool_decide (line = P2_line)); [|exact IH].
      apply (sorted_from_weaken r _ IH).
Qed.

(** In the result of the reassignment no note starts before the note in
    front of it unless a [P2] marker stands between the two. *)
Theorem X_duet_reassign_sorted (notes out : list text) :
  duet_reassign notes = Done out -> sorted_from (Some 0) out = true.
Proof.
  rewrite duet_reassign_marks.
  destruct (mark_regressions 0 notes) as [r|] eqn:Hm; [|discriminate].
  intros [= <-]. cbn [sorted_from].
  change (bool_decide (P1_line = P2_line)) with false.
  change (note_start P1_line) with (@None (option Z)).
  apply (mark_regressions_sorted notes 0 r Hm).
Qed.

Lemma X_duet_reassign_sorted_witness :
  sorted_from (Some 0)
    [P1_line; note_at 0; note_at 4; note_at 8; P2_line; note_at 2; note_at 6] = true.
Proof.
  apply (X_duet_reassign_sorted beats_example). vm_compute. reflexivity.
Defined.

End DuetMore.

(** ** The stages of the pipeline, continued *)

Section StageProperties.
Import SongLoader SongLoaderStages.

(** When the audio download succeeds, the audio stage logs the success,
    sets [#MP3] to the file name with the extension returned, deletes a
    [#VIDEO] header that has a value, and leaves the other headers. *)
Theorem X_audio_stage_success {AudioOptions : Type}
    (song_id : Z) (audio_opts : AudioOptions) (audio video : option text)
    (download_video : text -> AudioOptions -> option text)
    (filename resource ext : text) (header : gmap text text) :
  (if truthy audio then audio else video) = Some resource ->
  resource <> [] ->
  download_video resource audio_opts = Some ext ->
  ext <> [] ->
  let '(header', lg) :=
    audio_stage song_id (Some audio_opts) audio video download_video filename header in
  lg = [Info (stage2 song_id "Success.")]
  /\ header' !! T "#MP3" = Some (filename ++ T "." ++ ext)
  /\ (truthy (header !! T "#VIDEO") = true -> header' !! T "#VIDEO" = None)
  /\ (forall key, key <> T "#VIDEO" -> key <> T "#MP3" ->
                  header' !! key = header !! key).
Proof.
  intros Hres Hne Hdl Hext. unfold audio_stage. rewrite Hres.
  destruct resource as [|c r]; [congruence|]. rewrite Hdl.
  destruct ext as [|e xt]; [congruence|].
  split; [reflexivity|].
  assert (Hv : <[T "#MP3" := filename ++ T "." ++ e :: xt]> header !! T "#VIDEO"
               = header !! T "#VIDEO") by (apply lookup_insert_ne; discriminate).
  rewrite Hv.
  destruct (truthy (header !! T "#VIDEO")).
  - split; [|split].
    + rewrite lookup_delete_ne by discriminate. apply lookup_insert_eq.
    + intros _. apply lookup_delete_eq.
    + intros key Hk1 Hk2.
      rewrite lookup_delete_ne by congruence. apply lookup_insert_ne. congruence.
  - split; [|split].
    + apply lookup_insert_eq.
    + discriminate.
    + intros key Hk1 Hk2. apply lookup_insert_ne. congruence.
Qed.

Lemma X_audio_stage_success_witness :
  let '(header', lg) :=
    audio_stage 1 (Some tt) None (Some (T "abcdefghijk"))
      (fun _ _ => Some (T "m4a")) (T "Artist - Song") tagged_header in
  lg = [Info (stage2 1 "Success.")]
  /\ header' !! T "#MP3" = Some (T "Artist - Song" ++ T "." ++ T "m4a")
  /\ (truthy (tagged_header !! T "#VIDEO") = true -> header' !! T "#VIDEO" = None)
  /\ (forall key, key <> T "#VIDEO" -> key <> T "#MP3" ->
                  header' !! key = tagged_header !! key).
Proof.
  apply (X_audio_stage_success 1 tt None (Some (T "abcdefghijk"))
           (fun _ _ => Some (T "m4a")) (T "Artist - Song") (T "abcdefghijk")
           (T "m4a") tagged_header).
  - reflexivity.
  - discriminate.
  - reflexivity.
  - discriminate.
Defined.

(** With the audio and the video stage enabled and a video resource in
    the meta tags, the chart has a [#VIDEO] header after both stages only
    if the video download succeeded, and then it names the downloaded
    file: a [#VIDEO] header that held the tags is gone when the download
    fails, whatever the audio download did. *)
Theorem X_video_header_after_stages {AudioOptions VideoOptions : Type}
    (song_id : Z) (audio_opts : AudioOptions) (video_opts : VideoOptions)
    (audio : option text) (resource : text)
    (download_audio : text -> AudioOptions -> option text)
    (download_video : text -> VideoOptions -> option text)
    (filename : text) (header : gmap text text) :
  resource <> [] ->
  truthy (header !! T "#VIDEO") = true ->
  let header1 :=
    fst (audio_stage song_id (Some audio_opts) audio (Some resource)
           download_audio filename header) in
  let '(header2, has_video, lg) :=
    video_stage song_id (Some video_opts) (Some resource) download_video
      filename header1 in
  has_video = truthy (download_video resource video_opts)
  /\ header2 !! T "#VIDEO"
     = (if has_video
        then (fun ext => filename ++ T "." ++ ext) <$> download_video resource video_opts
        else None).
Proof.
  intros Hne Hv.
  assert (H1 : fst (audio_stage song_id (Some audio_opts) audio (Some resource)
                      download_audio filename header) !! T "#VIDEO" = None).
  { unfold audio_stage. destruct resource as [|c r]; [congruence|].
    assert (Hres : exists c' r', (if truthy audio then audio else Some (c :: r))
                                 = Some (c' :: r')).
    { destruct audio as [[|a au]|]; cbn [truthy]; eauto. }
    destruct Hres as (c' & r' & ->).
    destruct (download_audio (c' :: r') audio_opts) as [[|e xt]|]; cbn [fst].
    - rewrite Hv. apply lookup_delete_eq.
    - rewrite lookup_insert_ne by discriminate. rewrite Hv. apply lookup_delete_eq.
    - rewrite Hv. apply lookup_delete_eq. }
  cbv zeta. unfold video_stage. destruct resource as [|c r]; [congruence|].
  destruct (download_video (c :: r) video_opts) as [[|e xt]|]; cbn [truthy fmap option_fmap option_map].
  - split; [reflexivity | exact H1].
  - split; [reflexivity | apply lookup_insert_eq].
  - split; [reflexivity | exact H1].
Qed.

Lemma X_video_header_after_stages_witness :
  let header1 :=
    fst (audio_stage 1 (Some tt) None (Some (T "abcdefghijk"))
           (fun _ _ => Some (T "m4a")) (T "Artist - Song") tagged_header) in
  let '(header2, has_video, lg) :=
    video_stage 1 (Some tt) (Some (T "abcdefghijk")) no_download
      (T "Artist - Song") header1 in
  has_video = truthy (no_download (T "abcdefghijk") tt)
  /\ header2 !! T "#VIDEO"
     = (if has_video
        then (fun ext => T "Artist - Song" ++ T "." ++ ext)
               <$> no_download (T "abcdefghijk") tt
        else None).
Proof.
  apply (X_video_header_after_stages 1 tt tt None (T "abcdefghijk")
           (fun _ _ => Some (T "m4a")) no_download (T "Artist - Song") tagged_header).
  - discriminate.
  - reflexivity.
Defined.

(** ** The padded song id *)

Lemma digits_val_zeros (n : nat) (ds : text) :
  digits_val (repeat "0"%char n ++ ds) = digits_val ds.
Proof.
  unfold digits_val. rewrite fold_left_app.
  assert (Hz : fold_left (fun a c => 10 * a + digit_val c) (repeat "0"%char n) 0 = 0).
  { induction n as [|n IH]; [reflexivity|]. cbn [repeat fold_left]. exact IH. }
  rewrite Hz. reflexivity.
Qed.

Lemma forallb_repeat_zero (n : nat) : forallb isdigit (repeat "0"%char n) = true.
Proof. induction n as [|n IH]; [reflexivity|]. cbn [repeat forallb]. exact IH. Qed.

(** The song id padded with zeros to five characters is read back by
    [int] as the id, for every id that [str] and [int] convert, and is at
    least five characters long. *)
Theorem X_idp_reads_back (id : Z) :
  int_digits_ok id = true ->
  int_of_text (idp id) = Some id /\ (5 <= length (idp id))%nat.
Proof.
  intros Hok. unfold int_digits_ok in Hok. apply N.leb_le in Hok.
  pose proof (f_equal (@length ascii) (str_int_abs id)) as Hl.
  rewrite length_app in Hl. unfold int_max_str_digits in *.
  unfold idp, zfill.
  destruct (str_int_shape id) as (d & ds & Hd & [(Hz & Hs & Hv)|(Hz & Hs & Hv)]);
    rewrite Hs in Hl |- *.
  - assert (Hdd : isdigit d = true) by (simpl in Hd; apply andb_true_iff in Hd; tauto).
    assert (E1 : ascii_eqb d "-" = false)
      by (apply ascii_eqb_neq; intros ->; discriminate Hdd).
    assert (E2 : ascii_eqb d "+" = false)
      by (apply ascii_eqb_neq; intros ->; discriminate Hdd).
    rewrite E1, E2. cbn [orb].
    destruct (Z.ltb_spec id 0) as [?|_]; [lia|]. cbn [T list_ascii_of_string] in Hl.
    set (pad := repeat "0"%char (5 - length (d :: ds))) in *.
    assert (Hall : forallb isdigit (pad ++ d :: ds) = true)
      by (rewrite forallb_app; subst pad; rewrite forallb_repeat_zero; exact Hd).
    assert (Hlen : length (pad ++ d :: ds) = (5 - length (d :: ds) + length (d :: ds))%nat)
      by (rewrite length_app; subst pad; rewrite repeat_length; reflexivity).
    split; [|lia].
    rewrite (int_of_text_digits (pad ++ d :: ds))
      by (first [exact Hall | destruct pad; discriminate]).
    assert (Hfit : (N.of_nat (length (pad ++ d :: ds)) <=? 4300)%N = true)
      by (apply N.leb_le; cbn [length] in *; lia).
    unfold int_max_str_digits. rewrite Hfit.
    subst pad. rewrite digits_val_zeros, Hv. reflexivity.
  - rewrite ascii_eqb_refl. cbn [orb].
    destruct (Z.ltb_spec id 0) as [_|?]; [|lia]. cbn [T list_ascii_of_string] in Hl.
    set (pad := repeat "0"%char (5 - length ("-"%char :: d :: ds))) in *.
    assert (Hall : forallb isdigit (pad ++ d :: ds) = true)
      by (rewrite forallb_app; subst pad; rewrite forallb_repeat_zero; exact Hd).
    assert (Hlen : length (pad ++ d :: ds)
                   = (5 - length ("-"%char :: d :: ds) + length (d :: ds))%nat)
      by (rewrite length_app; subst pad; rewrite repeat_length; reflexivity).
    split; [|cbn [length] in *; lia].
    rewrite (int_of_text_minus_digits (pad ++ d :: ds))
      by (first [exact Hall | destruct pad; discriminate]).
    assert (Hfit : (N.of_nat (length (pad ++ d :: ds)) <=? 4300)%N = true)
      by (apply N.leb_le; cbn [length] in *; lia).
    unfold int_max_str_digits. rewrite Hfit.
    subst pad. rewrite digits_val_zeros, Hv. f_equal. lia.
Qed.

Lemma X_idp_reads_back_witness :
  int_of_text (idp 42) = Some 42 /\ (5 <= length (idp 42))%nat.
Proof. apply (X_idp_reads_back 42). reflexivity. Defined.

End StageProperties.

(** ** The connection *)

Section ConnectionProperties.
Import Db DbStatements.
Local Open Scope string_scope.

(** A failed connection is not undone: when the store has a version
    stamp that does not match, [connect] raises [UnknownSchemaError], but
    [_connection] is set, so that [connection()] afterwards returns the
    connection to that store instead of raising; after [close] it raises
    [DatabaseError]. *)
Theorem X_failed_connect_stays_connected (now : Z) (db : Store) (meta : Table)
    (st : DbState) :
  db !! "meta" = Some meta ->
  "version" ∈ columns meta ->
  stamp_mismatch meta = true ->
  connect now db st = (Some (SchemaError UnknownSchemaError), Some db)
  /\ connection (snd (connect now db st)) = inr db
  /\ connection (close (snd (connect now db st))) = inl DatabaseError.
Proof.
  intros Hmeta Hcol Hstamp.
  assert (Hv : _validate_schema now db = (Some UnknownSchemaError, db)).
  { unfold _validate_schema. rewrite Hmeta.
    rewrite bool_decide_eq_true_2 by exact Hcol.
    unfold stamp_mismatch in Hstamp.
    destruct (rows meta) as [|row rest]; [reflexivity|].
    rewrite Hstamp. reflexivity. }
  unfold connect. rewrite Hv. repeat split.
Qed.

Lemma X_failed_connect_stays_connected_witness :
  connect 5 store_v2 None = (Some (SchemaError UnknownSchemaError), Some store_v2)
  /\ connection (snd (connect 5 store_v2 None)) = inr store_v2
  /\ connection (close (snd (connect 5 store_v2 None))) = inl DatabaseError.
Proof.
  apply (X_failed_connect_stays_connected 5 store_v2 meta_v2 None).
  - reflexivity.
  - simpl. apply list_elem_of_In. simpl. auto.
  - reflexivity.
Defined.

End ConnectionProperties.

(** ** Reading the notes back *)

Section NotesRoundTrip.
Import Text NotesParser.

Lemma ascii_eqb_sym (a b : ascii) : ascii_eqb a b = ascii_eqb b a.
Proof. unfold ascii_eqb. apply Ascii.eqb_sym. Qed.

Lemma split_nonempty (sep : ascii) (s : text) : split sep s <> [].
Proof.
  destruct s as [|c s]; cbn [split]; [discriminate|].
  destruct (ascii_eqb c sep); [discriminate|].
  destruct (split sep s); discriminate.
Qed.

Lemma split_app_sep (sep : ascii) (a b : text) :
  split sep (a ++ sep :: b) = split sep a ++ split sep b.
Proof.
  induction a as [|c a IH]; cbn [app split].
  - rewrite ascii_eqb_refl. reflexivity.
  - destruct (ascii_eqb c sep); [rewrite IH; reflexivity|].
    rewrite IH. pose proof (split_nonempty sep a) as Hn.
    destruct (split sep a); [congruence|]. reflexivity.
Qed.

Lemma split_one (sep : ascii) (a : text) :
  contains sep a = false -> split sep a = [a].
Proof.
  unfold contains. induction a as [|c a IH]; intros Hc; [reflexivity|].
  cbn [existsb] in Hc. apply orb_false_iff in Hc as [Hc Ha].
  cbn [split]. rewrite ascii_eqb_sym, Hc, (IH Ha). reflexivity.
Qed.

Lemma nonempty_lines_app (a b : text) :
  nonempty_lines (a ++ LF :: b) = nonempty_lines a ++ nonempty_lines b.
Proof. unfold nonempty_lines. rewrite split_app_sep, filter_app. reflexivity. Qed.

Lemma nonempty_lines_line (l : text) :
  l <> [] -> one_line l = true -> nonempty_lines l = [l].
Proof.
  intros Hn Hl. unfold nonempty_lines. unfold one_line in Hl.
  apply negb_true_iff in Hl. rewrite (split_one LF l Hl).
  rewrite filter_cons_True by exact Hn. reflexivity.
Qed.

Lemma nonempty_lines_nil : nonempty_lines [] = [].
Proof.
  unfold nonempty_lines. cbn [split].
  rewrite filter_cons_False by (intros Hn; apply Hn; reflexivity). reflexivity.
Qed.

Lemma nonempty_lines_join (parts : list text) :
  nonempty_lines (join [LF] parts) = flat_map nonempty_lines parts.
Proof.
  induction parts as [|p ps IH]; [apply nonempty_lines_nil|].
  destruct ps as [|q ps].
  - cbn [join flat_map]. rewrite app_nil_r. reflexivity.
  - change (join [LF] (p :: q :: ps)) with (p ++ LF :: join [LF] (q :: ps)).
    rewrite nonempty_lines_app, IH. reflexivity.
Qed.

Lemma contains_app (c : ascii) (a b : text) :
  contains c (a ++ b) = contains c a || contains c b.
Proof. apply existsb_app. Qed.

Lemma contains_cons (c x : ascii) (s : text) :
  contains c (x :: s) = ascii_eqb c x || contains c s.
Proof. reflexivity. Qed.

Lemma digits_one_line (ds : text) :
  forallb isdigit ds = true -> contains LF ds = false.
Proof.
  induction ds as [|d ds IH]; [reflexivity|].
  cbn [forallb]. intros Hd. apply andb_true_iff in Hd as [Hd Hds].
  rewrite contains_cons, (IH Hds), orb_false_r.
  apply ascii_eqb_neq. intros <-. vm_compute in Hd. discriminate Hd.
Qed.

Lemma str_int_one_line (z : Z) : contains LF (str_int z) = false.
Proof.
  destruct (str_int_shape z) as (d & ds & Hd & [(_ & -> & _)|(_ & -> & _)]).
  - apply digits_one_line, Hd.
  - rewrite contains_cons, (digits_one_line _ Hd). reflexivity.
Qed.

Lemma Note_str_line (n : Note) :
  wf_note n = true -> nonempty_lines (Note_str n) = [Note_str n].
Proof.
  intros Hwf. apply nonempty_lines_line.
  - destruct (Note_str_head n) as (c & s & -> & _). discriminate.
  - apply wf_note_parts in Hwf as (_ & _ & Hl & _).
    unfold one_line in *. apply negb_true_iff in Hl. apply negb_true_iff.
    rewrite Note_str_eq.
    repeat (rewrite contains_app || rewrite contains_cons).
    rewrite !str_int_one_line, Hl.
    destruct (kind n); reflexivity.
Qed.

Lemma line_break_str_line (l : Line) (lb : text) :
  _line_break_str l = Some lb ->
  nonempty_lines lb = [lb] /\ exists s, lb = "-"%char :: s.
Proof.
  unfold _line_break_str. destruct (line_break l) as [[a|a b]|]; intros [= <-].
  - split; [|eexists; reflexivity]. apply nonempty_lines_line; [discriminate|].
    unfold one_line. apply negb_true_iff.
    repeat (rewrite contains_app || rewrite contains_cons).
    rewrite !str_int_one_line. reflexivity.
  - split; [|eexists; reflexivity]. apply nonempty_lines_line; [discriminate|].
    unfold one_line. apply negb_true_iff.
    repeat (rewrite contains_app || rewrite contains_cons).
    rewrite !str_int_one_line. reflexivity.
Qed.

Lemma Line_str_lines (l : Line) :
  forallb wf_note (notes l) = true ->
  nonempty_lines (Line_str l) = line_lines l.
Proof.
  intros Hwf. unfold Line_str, line_lines.
  assert (Hn : nonempty_lines (join [LF] (map Note_str (notes l)))
               = map Note_str (notes l)).
  { rewrite nonempty_lines_join. induction (notes l) as [|n ns IH]; [reflexivity|].
    cbn [forallb] in Hwf. apply andb_true_iff in Hwf as [H1 H2].
    cbn [map flat_map]. rewrite (Note_str_line n H1), (IH H2). reflexivity. }
  destruct (_line_break_str l) as [lb|] eqn:Hlb.
  - destruct (line_break_str_line l lb Hlb) as (Hl & s & ->).
    change (join [LF] (map Note_str (notes l)) ++ [LF] ++ "-"%char :: s)
      with (join [LF] (map Note_str (notes l)) ++ LF :: "-"%char :: s).
    rewrite nonempty_lines_app, Hn, Hl. reflexivity.
  - rewrite app_nil_r. exact Hn.
Qed.

Lemma wf_lines_Forall (ls : list Line) :
  wf_lines ls = true -> Forall (fun l => wf_line l = true) ls.
Proof.
  induction ls as [|l ls IH]; intros Hwf; [constructor|].
  destruct ls as [|l' ls].
  - cbn [wf_lines] in Hwf. apply andb_true_iff in Hwf as [Hl _].
    constructor; [exact Hl | constructor].
  - cbn [wf_lines] in Hwf. apply andb_true_iff in Hwf as [Hl Hls].
    apply andb_true_iff in Hl as [Hl _].
    constructor; [exact Hl | apply IH, Hls].
Qed.

Lemma wf_line_notes (l : Line) :
  wf_line l = true -> notes l <> [] /\ forallb wf_note (notes l) = true.
Proof.
  unfold wf_line. intros Hl. apply andb_true_iff in Hl as [Hl _].
  apply andb_true_iff in Hl as [Hn Hw].
  split; [|exact Hw]. destruct (notes l); [discriminate Hn | discriminate].
Qed.

Lemma wf_line_break (l : Line) : wf_line l = true -> wf_break (line_break l) = true.
Proof. unfold wf_line. intros Hl. apply andb_true_iff in Hl as [_ Hb]. exact Hb. Qed.

Lemma lines_str_lines (ls : list Line) :
  Forall (fun l => wf_line l = true) ls ->
  flat_map nonempty_lines (map Line_str ls) = flat_map line_lines ls.
Proof.
  induction 1 as [|l ls Hl _ IH]; [reflexivity|].
  cbn [map flat_map]. rewrite IH, Line_str_lines by apply (wf_line_notes l Hl).
  reflexivity.
Qed.

(** The lines [SongTxt.try_parse] makes of the written notes. *)
Lemma PlayerNotes_str_lines (p : PlayerNotes) :
  wf_notes p = true -> nonempty_lines (PlayerNotes_str p) = body_lines p.
Proof.
  unfold wf_notes, PlayerNotes_str, body_lines. intros Hwf.
  apply andb_true_iff in Hwf as [H1 H2]. apply wf_lines_Forall in H1.
  assert (HE : nonempty_lines (T "E") = [T "E"]) by reflexivity.
  destruct (player_2 p) as [[|l ls]|].
  - change (?b ++ [LF] ++ T "E") with (b ++ LF :: T "E").
    rewrite nonempty_lines_app, nonempty_lines_join, (lines_str_lines _ H1), HE.
    reflexivity.
  - apply andb_true_iff in H2 as [_ H2]. apply wf_lines_Forall in H2.
    change (?b ++ [LF] ++ T "E") with (b ++ LF :: T "E").
    rewrite nonempty_lines_app, nonempty_lines_join, HE.
    cbn [app flat_map].
    rewrite nonempty_lines_join, (lines_str_lines _ H1).
    change (nonempty_lines (Line_str l) ++ flat_map nonempty_lines (map Line_str ls))
      with (flat_map nonempty_lines (map Line_str (l :: ls))).
    rewrite (lines_str_lines _ H2).
    change (nonempty_lines (T "P1")) with [T "P1"].
    change (nonempty_lines (T "P2")) with [T "P2"].
    rewrite <- !app_assoc. reflexivity.
  - change (?b ++ [LF] ++ T "E") with (b ++ LF :: T "E").
    rewrite nonempty_lines_app, nonempty_lines_join, (lines_str_lines _ H1), HE.
    reflexivity.
Qed.

Lemma Line_parse_from_terminator (acc : list Note) (term : text) (rest : list text) :
  term = T "E" \/ term = T "P2" ->
  Line_parse_from acc (term :: rest) = (Returns (mkLine acc None, rest), []).
Proof. intros [->| ->]; reflexivity. Qed.

Lemma Line_parse_from_written_break (acc : list Note) (l : Line) (lb : LineBreak)
    (rest : list text) :
  forallb wf_note (notes l) = true -> line_break l = Some lb ->
  wf_break (Some lb) = true ->
  Line_parse_from acc (line_lines l ++ rest)
  = (Returns (mkLine (acc ++ notes l) (Some lb), rest), []).
Proof.
  intros Hwf Hlb Hb. unfold line_lines, _line_break_str. rewrite Hlb.
  destruct lb as [a|a b]; cbn [wf_break] in Hb.
  - rewrite <- app_assoc, (Line_parse_from_notes _ _ _ Hwf).
    pose proof (parse_line_break_bare a Hb) as Hp.
    change (T "- " ++ str_int a) with ("-"%char :: " "%char :: str_int a) in *.
    cbn [app]. rewrite Line_parse_from_break, Hp. reflexivity.
  - rewrite <- app_assoc, (Line_parse_from_notes _ _ _ Hwf).
    apply andb_true_iff in Hb as [Ha Hb].
    pose proof (parse_line_break_paired a b Ha Hb) as Hp.
    change (T "- " ++ str_int a ++ T " " ++ str_int b)
      with ("-"%char :: " "%char :: str_int a ++ T " " ++ str_int b) in *.
    cbn [app]. rewrite Line_parse_from_break, Hp. reflexivity.
Qed.

Lemma player_lines_loop_step (fuel : nat) (acc : list Line) (lines : list text) :
  lines <> [] ->
  _player_lines_loop (S fuel) acc lines
  = match Line_parse lines with
    | (RaisesValueError, lg) => Some (RaisesValueError, lg)
    | (Returns (line, rest), lg) =>
        let acc' := match notes line with [] => acc | _ :: _ => acc ++ [line] end in
        if is_last line then Some (Returns (acc', rest), lg)
        else
          match _player_lines_loop fuel acc' rest with
          | Some (r, lg') => Some (r, lg ++ lg')
          | None => None
          end
    end.
Proof. destruct lines; [congruence | reflexivity]. Qed.

(** The loop of [_player_lines] on written lines and a terminator. *)
Lemma player_lines_loop_written (term : text) (rest : list text) :
  term = T "E" \/ term = T "P2" ->
  forall (ls acc : list Line) (fuel : nat),
    wf_lines ls = true -> (length ls < fuel)%nat ->
    _player_lines_loop fuel acc (flat_map line_lines ls ++ term :: rest)
    = Some (Returns (acc ++ ls, rest), []).
Proof.
  intros Hterm. induction ls as [|l ls IH]; intros acc fuel Hwf Hfuel.
  - destruct fuel as [|fuel]; [lia|].
    cbn [flat_map app]. rewrite player_lines_loop_step by discriminate.
    unfold Line_parse. rewrite (Line_parse_from_terminator [] term rest Hterm).
    cbn. rewrite app_nil_r. reflexivity.
  - destruct fuel as [|fuel]; [simpl in Hfuel; lia|].
    destruct ls as [|l' ls].
    + cbn [wf_lines] in Hwf. apply andb_true_iff in Hwf as [Hl Hlast].
      destruct (wf_line_notes l Hl) as [Hne Hns].
      destruct l as [ns [lb|]]; [discriminate Hlast|]. cbn [notes] in *.
      cbn [flat_map]. rewrite app_nil_r. unfold line_lines, _line_break_str.
      cbn [notes line_break]. rewrite app_nil_r.
      rewrite player_lines_loop_step
        by (destruct ns; [congruence | discriminate]).
      unfold Line_parse.
      rewrite (Line_parse_from_notes ns [] _ Hns),
        (Line_parse_from_terminator _ term rest Hterm).
      cbn [app notes is_last line_break].
      destruct ns; [congruence | reflexivity].
    + cbn [wf_lines] in Hwf. apply andb_true_iff in Hwf as [Hl Hls].
      apply andb_true_iff in Hl as [Hl Hnl].
      destruct (wf_line_notes l Hl) as [Hne Hns].
      pose proof (wf_line_break l Hl) as Hbr.
      destruct l as [ns [lb|]]; [|discriminate Hnl]. cbn [notes line_break] in *.
      change (flat_map line_lines (mkLine ns (Some lb) :: l' :: ls))
        with (line_lines (mkLine ns (Some lb)) ++ flat_map line_lines (l' :: ls)).
      rewrite <- app_assoc.
      rewrite player_lines_loop_step
        by (unfold line_lines; cbn [notes]; destruct ns; [congruence | discriminate]).
      unfold Line_parse.
      rewrite (Line_parse_from_written_break [] (mkLine ns (Some lb)) lb _ Hns eq_refl
                 Hbr).
      cbn [app notes is_last line_break].
      rewrite (IH _ fuel Hls) by (simpl in *; lia).
      destruct ns; [congruence|]. rewrite <- app_assoc. reflexivity.
Qed.

Lemma clear_last_break_wf (ls : list Line) :
  wf_lines ls = true -> clear_last_break ls = ls.
Proof.
  induction ls as [|l ls IH]; [reflexivity|]. intros Hwf.
  destruct ls as [|l' ls].
  - cbn [wf_lines] in Hwf. apply andb_true_iff in Hwf as [_ Hlast].
    destruct l as [ns [lb|]]; [discriminate Hlast | reflexivity].
  - cbn [wf_lines] in Hwf. apply andb_true_iff in Hwf as [_ Hls].
    change (clear_last_break (l :: l' :: ls)) with (l :: clear_last_break (l' :: ls)).
    rewrite (IH Hls). reflexivity.
Qed.

Lemma lines_measure_length (lines : list text) :
  (length lines <= lines_measure lines)%nat.
Proof.
  induction lines as [|l lines IH]; [reflexivity|].
  rewrite lines_measure_cons. cbn [length]. lia.
Qed.

Lemma flat_lines_length (ls : list Line) :
  Forall (fun l => wf_line l = true) ls ->
  (length ls <= length (flat_map line_lines ls))%nat.
Proof.
  induction 1 as [|l ls Hl _ IH]; [reflexivity|].
  cbn [flat_map]. rewrite length_app. destruct (wf_line_notes l Hl) as [Hne _].
  unfold line_lines at 1. rewrite length_app, length_map.
  destruct (notes l); [congruence|]. cbn [length]. lia.
Qed.

Lemma written_fuel (ls : list Line) (term : text) (rest : list text) :
  wf_lines ls = true ->
  (length ls < lines_measure (flat_map line_lines ls ++ term :: rest))%nat.
Proof.
  intros Hwf. pose proof (flat_lines_length ls (wf_lines_Forall ls Hwf)) as H1.
  pose proof (lines_measure_length (flat_map line_lines ls ++ term :: rest)) as H2.
  rewrite length_app in H2. cbn [length] in H2. lia.
Qed.

(** [_player_lines] on the written lines of one player and the end
    marker. *)
Lemma player_lines_block (ls : list Line) (rest : list text) :
  wf_lines ls = true ->
  _player_lines (flat_map line_lines ls ++ T "E" :: rest)
  = Some (Returns (ls, rest), []).
Proof.
  intros Hwf. unfold _player_lines.
  assert (Hhead : match flat_map line_lines ls ++ T "E" :: rest with
                  | l :: lines' =>
                      if startswith (T "P") l then lines'
                      else flat_map line_lines ls ++ T "E" :: rest
                  | [] => flat_map line_lines ls ++ T "E" :: rest
                  end = flat_map line_lines ls ++ T "E" :: rest).
  { destruct ls as [|l ls]; [reflexivity|].
    pose proof (wf_lines_Forall _ Hwf) as Hall. inversion Hall as [|? ? Hl _]; subst.
    destruct (wf_line_notes l Hl) as [Hne _].
    cbn [flat_map]. unfold line_lines at 1.
    destruct (notes l) as [|n ns]; [congruence|]. cbn [map app].
    destruct (Note_str_head n) as (c & s & -> & Hc).
    destruct (kind_char_plain c Hc) as (_ & _ & HP & _).
    cbn [startswith T list_ascii_of_string].
    apply not_eq_sym, ascii_eqb_neq in HP. rewrite HP. reflexivity. }
  rewrite Hhead.
  rewrite (player_lines_loop_written (T "E") rest (or_introl eq_refl) ls [] _ Hwf
             (written_fuel ls _ rest Hwf)).
  cbn [app]. rewrite (clear_last_break_wf ls Hwf). reflexivity.
Qed.

(** [_player_lines] on the block of the first player of a duet. *)
Lemma player_lines_first (ls : list Line) (rest : list text) :
  wf_lines ls = true ->
  _player_lines (T "P1" :: flat_map line_lines ls ++ T "P2" :: rest)
  = Some (Returns (ls, rest), []).
Proof.
  intros Hwf. unfold _player_lines.
  change (startswith (T "P") (T "P1")) with true. cbv iota.
  rewrite (player_lines_loop_written (T "P2") rest (or_intror eq_refl) ls [] _ Hwf
             (written_fuel ls _ rest Hwf)).
  cbn [app]. rewrite (clear_last_break_wf ls Hwf). reflexivity.
Qed.

Lemma PlayerNotes_parse_body (p : PlayerNotes) :
  wf_notes p = true ->
  PlayerNotes_parse (body_lines p) = Some (Returns (p, []), []).
Proof.
  unfold wf_notes, body_lines, PlayerNotes_parse. intros Hwf.
  apply andb_true_iff in Hwf as [H1 H2].
  destruct p as [p1 [[|l ls]|]]; cbn [player_1 player_2] in *.
  - discriminate H2.
  - apply andb_true_iff in H2 as [_ H2].
    cbn [app]. rewrite <- !app_assoc. cbn [app].
    rewrite (player_lines_first p1 _ H1).
    rewrite (player_lines_block (l :: ls) [] H2). reflexivity.
  - rewrite (player_lines_block p1 [] H1). reflexivity.
Qed.

(** Notes whose lines each have a note, with the terminal line break on
    the last line of a player and on no other, and with beats and
    pitches that [str] and [int] convert, are read back from their text
    as they were, with nothing left and no warning. *)
Theorem X_player_notes_round_trip (p : PlayerNotes) :
  wf_notes p = true ->
  PlayerNotes_parse (nonempty_lines (PlayerNotes_str p))
  = Some (Returns (p, []), []).
Proof.
  intros Hwf. rewrite (PlayerNotes_str_lines p Hwf).
  apply (PlayerNotes_parse_body p Hwf).
Qed.

Lemma X_player_notes_round_trip_witness :
  PlayerNotes_parse (nonempty_lines (PlayerNotes_str duet_notes))
  = Some (Returns (duet_notes, []), []).
Proof. apply (X_player_notes_round_trip duet_notes). reflexivity. Defined.

End NotesRoundTrip.

(** ** Values of digits *)

Section DigitValues.
Import Text Regex.

Lemma digit_val_nonneg (c : ascii) : isdigit c = true -> 0 <= digit_val c.
Proof.
  unfold isdigit, digit_val. intros Hc. apply andb_true_iff in Hc as [Hc _].
  apply N.leb_le in Hc. lia.
Qed.

Lemma digits_val_nonneg (ds : text) : forallb isdigit ds = true -> 0 <= digits_val ds.
Proof.
  unfold digits_val.
  assert (H : forall acc, 0 <= acc -> forallb isdigit ds = true ->
                          0 <= fold_left (fun a c => 10 * a + digit_val c) ds acc).
  { induction ds as [|d ds IH]; intros acc Hacc Hd; [exact Hacc|].
    cbn [forallb] in Hd. apply andb_true_iff in Hd as [Hd Hds].
    cbn [fold_left]. apply IH; [|exact Hds].
    pose proof (digit_val_nonneg d Hd). lia. }
  intros Hd. apply H; [lia | exact Hd].
Qed.

(** [int] of a run of digits is not negative, and [str] and [int]
    convert it. *)
Lemma int_of_digits (ds : text) (z : Z) :
  ds <> [] -> forallb isdigit ds = true -> int_of_text ds = Some z ->
  0 <= z /\ int_digits_ok z = true.
Proof.
  intros Hne Hd. rewrite (int_of_text_digits ds Hne Hd).
  destruct (N.of_nat (length ds) <=? int_max_str_digits)%N eqn:Hlen; [|discriminate].
  intros [= <-]. split; [apply digits_val_nonneg, Hd|].
  apply (digits_val_ok ds Hne Hd Hlen).
Qed.

(** [str] and [int] convert what [int] makes of a beat. *)
Lemma int_of_beat (u : text) (z : Z) :
  matches beat_regex u -> int_of_text u = Some z -> int_digits_ok z = true.
Proof.
  intros Hm. apply matches_beat in Hm as (ds & Hne & Hd & [->| ->]).
  - intros Hz. apply (int_of_digits ds z Hne Hd Hz).
  - rewrite (int_of_text_minus_digits ds Hne Hd).
    destruct (N.of_nat (length ds) <=? int_max_str_digits)%N eqn:Hlen; [|discriminate].
    intros [= <-]. apply (digits_val_ok ds Hne Hd Hlen).
Qed.

End DigitValues.

(** ** What the parser returns *)

Section ParseSoundness.
Import Text Regex NotesParser.

(** Every note that [Note.parse] returns has a duration that is not
    negative, a text that is not empty and has no line feed, and beats
    and a pitch that [str] and [int] convert. *)
Lemma Note_parse_wf (v : text) (n : Note) :
  Note_parse v = inr n -> wf_note n = true.
Proof.
  unfold Note_parse. destruct (fullmatch note_regex v) as [m|] eqn:Hm; [|discriminate].
  apply fullmatch_sound in Hm as [_ Hc].
  unfold note_regex in Hc.
  apply captured_seq_group in Hc as (u1 & _ & Hc); [|reflexivity].
  apply captured_seq_plain in Hc; [|reflexivity].
  apply captured_seq_plain in Hc; [|reflexivity].
  apply captured_seq_group in Hc as (u2 & Hm2 & Hc); [|reflexivity].
  apply captured_seq_plain in Hc; [|reflexivity].
  apply captured_seq_group in Hc as (u3 & Hm3 & Hc); [|reflexivity].
  apply captured_seq_plain in Hc; [|reflexivity].
  apply captured_seq_group in Hc as (u4 & Hm4 & Hc); [|reflexivity].
  apply captured_seq_plain in Hc; [|reflexivity].
  apply captured_group in Hc as (u5 & Hm5 & ->); [|reflexivity].
  apply matches_many1 in Hm3 as [Hne3 Hd3], Hm5 as [Hne5 Hd5].
  unfold group.
  rewrite lookup_insert_eq.
  rewrite !(lookup_insert_ne _ 5%nat), !(lookup_insert_ne _ 4%nat) by discriminate.
  rewrite lookup_insert_eq.
  rewrite (lookup_insert_ne _ 3%nat 2%nat), lookup_insert_eq by discriminate.
  rewrite lookup_insert_eq.
  destruct (<[3%nat:=u3]> (<[2%nat:=u2]> (<[1%nat:=u1]> ∅)) !! 1%nat ≫= NoteKind_of)
    as [k|]; [|discriminate].
  cbn [mbind option_bind].
  destruct (int_of_text u2) as [st|] eqn:Hst; [|discriminate].
  destruct (int_of_text u3) as [du|] eqn:Hdu; [|discriminate].
  destruct (int_of_text u4) as [pi|] eqn:Hpi; [|discriminate].
  intros [= <-]. unfold wf_note. cbn [start duration pitch NotesParser.text_].
  destruct (int_of_digits u3 du Hne3 Hd3 Hdu) as [Hdu0 Hduok].
  rewrite (int_of_beat u2 st Hm2 Hst), Hduok, (int_of_beat u4 pi Hm4 Hpi), !andb_true_r.
  apply andb_true_iff. split; [apply andb_true_iff; split|].
  - apply Z.leb_le. exact Hdu0.
  - destruct u5; [congruence | reflexivity].
  - unfold one_line, contains. apply negb_true_iff.
    clear -Hd5. induction u5 as [|c u5 IH]; [reflexivity|].
    cbn [forallb cmatch] in Hd5. apply andb_true_iff in Hd5 as [Hc Hu].
    cbn [existsb]. rewrite (IH Hu), orb_false_r, ascii_eqb_sym.
    apply negb_true_iff in Hc. exact Hc.
Qed.

(** The beats of every line break that [_parse_line_break] returns are
    integers that [str] and [int] convert. *)
Lemma parse_line_break_wf (v : text) (lb : LineBreak) (next : option text) :
  _parse_line_break v = inr (lb, next) -> wf_break (Some lb) = true.
Proof.
  unfold _parse_line_break.
  destruct (fullmatch line_break_regex v) as [m|] eqn:Hm; [|discriminate].
  destruct (line_break_beats v m Hm) as [(u1 & H1 & Hm1) H2].
  unfold group. rewrite H1. cbn [mbind option_bind].
  destruct (int_of_text u1) as [b1|] eqn:Hb1.
  - pose proof (int_of_beat u1 b1 Hm1 Hb1) as Hok1.
    destruct H2 as [->|(u2 & -> & Hm2)]; cbn [truthy mbind option_bind].
    + intros [= <- _]. exact Hok1.
    + destruct u2 as [|c2 t2].
      * intros [= <- _]. exact Hok1.
      * destruct (int_of_text (c2 :: t2)) as [b2|] eqn:Hb2; [|discriminate].
        intros [= <- _]. cbn [wf_break].
        rewrite Hok1, (int_of_beat _ b2 Hm2 Hb2). reflexivity.
  - destruct (truthy (m !! 2%nat)); [|discriminate].
    destruct (m !! 2%nat ≫= int_of_text); discriminate.
Qed.

Lemma forallb_snoc {A} (f : A -> bool) (l : list A) (x : A) :
  forallb f l = true -> f x = true -> forallb f (l ++ [x]) = true.
Proof. intros Hl Hx. rewrite forallb_app, Hl. cbn [forallb]. rewrite Hx. reflexivity. Qed.

(** The notes and the line break of a line that [Line.parse] returns. *)
Lemma Line_parse_from_wf (lines : list text) :
  forall (acc : list Note) (line : Line) (rest : list text) (lg : log),
    forallb wf_note acc = true ->
    Line_parse_from acc lines = (Returns (line, rest), lg) ->
    forallb wf_note (notes line) = true /\ wf_break (line_break line) = true.
Proof.
  induction lines as [|l lines IH]; intros acc line rest lg Hacc;
    [intros [= <- _ _]; auto|].
  cbn [Line_parse_from].
  destruct (text_eqb (rstrip (lstrip l)) (T "E")
            || text_eqb (rstrip (lstrip l)) (T "P2")); [intros [= <- _ _]; auto|].
  destruct (startswith (T "-") (lstrip l)).
  - destruct (_parse_line_break (lstrip l)) as [[err|]|[lb next]] eqn:Hlb.
    + destruct (Line_parse_from acc lines) as [[[line' rest']|] lg'] eqn:E;
        [|discriminate].
      intros [= <- _ _]. apply (IH acc line' rest' lg' Hacc E).
    + discriminate.
    + intros [= <- _ _]. cbn [notes line_break].
      split; [exact Hacc | apply (parse_line_break_wf _ _ _ Hlb)].
  - destruct (Note_parse (lstrip l)) as [err|n] eqn:Hn.
    + destruct (Line_parse_from acc lines) as [[[line' rest']|] lg'] eqn:E;
        [|discriminate].
      intros [= <- _ _]. apply (IH acc line' rest' lg' Hacc E).
    + apply IH. apply forallb_snoc; [exact Hacc | apply (Note_parse_wf _ _ Hn)].
Qed.

Lemma clear_last_break_snoc (acc : list Line) (l : Line) :
  clear_last_break (acc ++ [l]) = acc ++ [mkLine (notes l) None].
Proof.
  induction acc as [|a acc IH]; [reflexivity|].
  cbn [app]. destruct (acc ++ [l]) as [|x xs] eqn:E.
  - destruct acc; discriminate E.
  - change (clear_last_break (a :: x :: xs)) with (a :: clear_last_break (x :: xs)).
    rewrite IH. reflexivity.
Qed.

Lemma wf_lines_snoc (acc : list Line) (l : Line) :
  forallb open_line acc = true -> wf_line l = true -> is_last l = true ->
  wf_lines (acc ++ [l]) = true.
Proof.
  intros Hacc Hl Hlast. induction acc as [|a acc IH].
  - cbn [app wf_lines]. rewrite Hl, Hlast. reflexivity.
  - cbn [forallb] in Hacc. apply andb_true_iff in Hacc as [Ha Hacc].
    cbn [app]. destruct (acc ++ [l]) as [|x xs] eqn:E.
    + destruct acc; discriminate E.
    + change (wf_lines (a :: x :: xs))
        with (wf_line a && negb (is_last a) && wf_lines (x :: xs)).
      rewrite (IH Hacc). unfold open_line in Ha. rewrite Ha. reflexivity.
Qed.

Lemma closed_snoc (acc : list Line) (l : Line) :
  forallb open_line acc = true -> wf_line l = true ->
  wf_lines (clear_last_break (acc ++ [l])) = true.
Proof.
  intros Hacc Hl. rewrite clear_last_break_snoc.
  apply wf_lines_snoc; [exact Hacc | | reflexivity].
  unfold wf_line in *. cbn [notes line_break wf_break].
  apply andb_true_iff in Hl as [Hl _]. rewrite Hl. reflexivity.
Qed.

Lemma closed_open (acc : list Line) :
  forallb open_line acc = true -> wf_lines (clear_last_break acc) = true.
Proof.
  destruct acc as [|a acc _] using rev_ind; [reflexivity|].
  rewrite forallb_app. intros Hacc. apply andb_true_iff in Hacc as [Hacc Ha].
  cbn [forallb] in Ha. rewrite andb_true_r in Ha. unfold open_line in Ha.
  apply andb_true_iff in Ha as [Ha _]. apply (closed_snoc acc a Hacc Ha).
Qed.

(** The lines the loop of [_player_lines] has collected are well formed
    once the line break of the last one is cleared. *)
Lemma player_lines_loop_wf (fuel : nat) :
  forall (acc : list Line) (lines : list text) (r : list Line) (rest : list text)
         (lg : log),
    forallb open_line acc = true ->
    _player_lines_loop fuel acc lines = Some (Returns (r, rest), lg) ->
    wf_lines (clear_last_break r) = true.
Proof.
  induction fuel as [|fuel IH]; intros acc lines r rest lg Hacc Hloop.
  - destruct lines; [|discriminate Hloop]. injection Hloop as <- _ _.
    apply (closed_open acc Hacc).
  - destruct lines as [|l lines].
    { injection Hloop as <- _ _. apply (closed_open acc Hacc). }
    cbn [_player_lines_loop] in Hloop. unfold Line_parse in Hloop.
    pose proof (Line_parse_from_wf (l :: lines) []) as Hwf.
    destruct (Line_parse_from [] (l :: lines)) as [[[line rest0]|] lg0];
      [|discriminate Hloop].
    destruct (Hwf line rest0 lg0 eq_refl eq_refl) as [Hns Hbr]. clear Hwf.
    destruct (is_last line) eqn:Hlast.
    + injection Hloop as <- _ _.
      destruct (notes line) as [|n ns] eqn:Hn; [apply (closed_open acc Hacc)|].
      apply closed_snoc; [exact Hacc|].
      unfold wf_line. rewrite Hn, Hbr. cbn [nonempty_list]. rewrite Hns. reflexivity.
    + destruct (_player_lines_loop fuel
                  (match notes line with [] => acc | _ :: _ => acc ++ [line] end)
                  rest0) as [[[[r' rest']|] lg']|] eqn:Hrec; [|discriminate Hloop..].
      injection Hloop as <- _ _.
      refine (IH _ _ _ _ _ _ Hrec).
      destruct (notes line) as [|n ns] eqn:Hn; [exact Hacc|].
      apply forallb_snoc; [exact Hacc|].
      unfold open_line, wf_line. rewrite Hn, Hlast, Hbr. cbn [nonempty_list negb].
      rewrite Hns. reflexivity.
Qed.

Lemma _player_lines_wf (lines rest : list text) (ls : list Line) (lg : log) :
  _player_lines lines = Some (Returns (ls, rest), lg) -> wf_lines ls = true.
Proof.
  unfold _player_lines.
  set (lines0 := match lines with
                 | l :: lines' => if startswith (T "P") l then lines' else lines
                 | [] => lines
                 end).
  destruct (_player_lines_loop (lines_measure lines0) [] lines0)
    as [[[[r rest']|] lg']|] eqn:Hloop; [|discriminate..].
  intros [= <- _ _].
  apply (player_lines_loop_wf _ [] lines0 r rest' lg' eq_refl Hloop).
Qed.

Lemma PlayerNotes_parse_wf (lines rest : list text) (p : PlayerNotes) (lg : log) :
  PlayerNotes_parse lines = Some (Returns (p, rest), lg) -> wf_notes p = true.
Proof.
  unfold PlayerNotes_parse.
  destruct (_player_lines lines) as [[[[p1 rest1]|] lg1]|] eqn:H1; [|discriminate..].
  destruct (_player_lines rest1) as [[[[p2 rest2]|] lg2]|] eqn:H2; [|discriminate..].
  intros [= <- _ _]. unfold wf_notes. cbn [player_1 player_2].
  rewrite (_player_lines_wf _ _ _ _ H1).
  apply _player_lines_wf in H2. destruct p2; [reflexivity|].
  cbn [nonempty_list]. rewrite H2. reflexivity.
Qed.

(** Whatever [PlayerNotes.parse] returns is in the form that is written
    and read back unchanged: every line has a note, every note has a
    duration that is not negative and a non-empty text, the beats and
    pitches are integers that [str] and [int] convert, and the last line
    of a player, and no other, has the terminal line break; so parsing
    the text of parsed notes returns the same notes, without a warning. *)
Theorem X_parsed_notes_normal (lines rest : list text) (p : PlayerNotes) (lg : log) :
  PlayerNotes_parse lines = Some (Returns (p, rest), lg) ->
  wf_notes p = true
  /\ PlayerNotes_parse (nonempty_lines (PlayerNotes_str p))
     = Some (Returns (p, []), []).
Proof.
  intros Hp. apply PlayerNotes_parse_wf in Hp. split; [exact Hp|].
  rewrite (PlayerNotes_str_lines p Hp). apply (PlayerNotes_parse_body p Hp).
Qed.

Lemma X_parsed_notes_normal_witness :
  wf_notes (mkPlayerNotes [mkLine [mkNote REGULAR 1 2 3 (T "la")] None] None) = true
  /\ PlayerNotes_parse
       (nonempty_lines
          (PlayerNotes_str
             (mkPlayerNotes [mkLine [mkNote REGULAR 1 2 3 (T "la")] None] None)))
     = Some (Returns (mkPlayerNotes [mkLine [mkNote REGULAR 1 2 3 (T "la")] None] None,
                      []), []).
Proof.
  apply (X_parsed_notes_normal trailing_break_lines [] _ []). reflexivity.
Defined.

End ParseSoundness.

(** ** Reading the headers back *)

Section HeadersRoundTrip.
Import Text NotesParser.
Context `{PyFloat}.

Lemma Headers_parse_loop_set (kw kw' : Kwargs) (key val : text) (lines : list text) :
  contains ":" (upper key) = false -> val <> [] ->
  _set_header_value kw (upper key) val = Some kw' ->
  Headers_parse_loop kw (header_line key val :: lines) = Headers_parse_loop kw' lines.
Proof.
  intros Hh Hv Hset. unfold header_line.
  change (T "#" ++ upper key ++ T ":" ++ val)
    with ("#"%char :: upper key ++ ":"%char :: val).
  cbn [Headers_parse_loop].
  change (startswith (T "#") ("#"%char :: upper key ++ ":"%char :: val)) with true.
  change (removeprefix (T "#") ("#"%char :: upper key ++ ":"%char :: val))
    with (upper key ++ ":"%char :: val).
  destruct (split_max_1_header (upper key) val Hh) as [-> ->]. cbn [negb].
  destruct val as [|c val]; [congruence|]. rewrite Hset. reflexivity.
Qed.

Lemma set_header_value_entry (kw : Kwargs) (e : text * value) :
  entry_ok e ->
  _set_header_value kw (upper (fst e)) (value_str (snd e))
  = Some (mkKwargs (<[fst e := snd e]> (kw_fields kw)) (kw_unknown kw)).
Proof.
  intros (Hc & Ha & Hv & Hk). unfold _set_header_value.
  fold (attribute_of (upper (fst e))). rewrite Ha.
  destruct (snd e) as [s|x|n]; cbn [value_str].
  - rewrite Hk. reflexivity.
  - destruct Hk as [Hs Hf]. rewrite Hs, Hf.
    destruct Hv as (_ & _ & Hx). cbn [value_str] in Hx. rewrite Hx. reflexivity.
  - destruct Hk as (Hs & Hf & Hi). destruct Hv as (_ & _ & Hn).
    rewrite Hs, Hf, Hi, (int_of_text_str_int n Hn). reflexivity.
Qed.

Lemma Headers_parse_loop_entries (es : list (text * value)) :
  forall (kw : Kwargs) (lines : list text),
    Forall entry_ok es ->
    Headers_parse_loop kw (map entry_line es ++ lines)
    = Headers_parse_loop (store_all kw es) lines.
Proof.
  induction es as [|e es IH]; intros kw lines Hes; [reflexivity|].
  inversion Hes as [|? ? He Hes']; subst.
  cbn [map app]. unfold entry_line at 1.
  rewrite (Headers_parse_loop_set kw _ _ _ _
             (proj1 He) (proj1 (proj1 (proj2 (proj2 He))))
             (set_header_value_entry kw e He)).
  rewrite (IH _ _ Hes'). reflexivity.
Qed.

Lemma mem_app (k : text) (a b : list text) : mem k (a ++ b) = mem k a || mem k b.
Proof. apply existsb_app. Qed.

Lemma upper_keeps (x : ascii) (s : text) :
  (forall c, ascii_eqb x (upper_char c) = ascii_eqb x c) ->
  contains x (upper s) = contains x s.
Proof.
  intros Hx. unfold contains, upper. induction s as [|c s IH]; [reflexivity|].
  cbn [map existsb]. rewrite Hx, IH. reflexivity.
Qed.

Lemma upper_colon (s : text) : contains ":" (upper s) = contains ":" s.
Proof.
  apply upper_keeps. intros c.
  destruct c as [[] [] [] [] [] [] [] []]; reflexivity.
Qed.

Lemma upper_LF (s : text) : contains LF (upper s) = contains LF s.
Proof.
  apply upper_keeps. intros c.
  destruct c as [[] [] [] [] [] [] [] []]; reflexivity.
Qed.

Lemma set_header_value_unknown (kw : Kwargs) (kv : text * text) :
  unknown_ok kv ->
  _set_header_value kw (upper (fst kv)) (snd kv)
  = Some (mkKwargs (kw_fields kw) (dict_set (fst kv) (snd kv) (kw_unknown kw))).
Proof.
  intros (_ & Ha & Hm & _). unfold _set_header_value.
  fold (attribute_of (upper (fst kv))). rewrite Ha.
  rewrite !mem_app in Hm. apply orb_false_iff in Hm as [Hs Hm].
  apply orb_false_iff in Hm as [Hf Hi]. rewrite Hs, Hf, Hi. reflexivity.
Qed.

Lemma dict_set_fresh (k v : text) (d : list (text * text)) :
  ~ In k (map fst d) -> dict_set k v d = d ++ [(k, v)].
Proof.
  induction d as [|[k' v'] d IH]; intros Hk; [reflexivity|].
  cbn [map fst In] in Hk. cbn [dict_set app].
  destruct (text_eqb k' k) eqn:E.
  - apply text_eqb_eq in E. tauto.
  - rewrite IH by tauto. reflexivity.
Qed.

Lemma Headers_parse_loop_unknowns (us : list (text * text)) :
  forall (kw : Kwargs) (lines : list text),
    Forall unknown_ok us -> NoDup (map fst (kw_unknown kw ++ us)) ->
    Headers_parse_loop kw (map unknown_line us ++ lines)
    = Headers_parse_loop (mkKwargs (kw_fields kw) (kw_unknown kw ++ us)) lines.
Proof.
  induction us as [|kv us IH]; intros kw lines Hus Hnd.
  - rewrite app_nil_r. destruct kw. reflexivity.
  - inversion Hus as [|? ? Hkv Hus']; subst.
    cbn [map app]. unfold unknown_line at 1.
    assert (Hc : contains ":" (upper (fst kv)) = false).
    { rewrite upper_colon. apply Hkv. }
    assert (Hv : snd kv <> []) by apply Hkv.
    rewrite (Headers_parse_loop_set kw _ _ _ _ Hc Hv (set_header_value_unknown kw kv Hkv)).
    assert (Hfresh : ~ In (fst kv) (map fst (kw_unknown kw))).
    { rewrite map_app in Hnd. apply NoDup_app in Hnd as (_ & Hdis & _).
      intros Hin. apply (Hdis (fst kv)).
      - apply list_elem_of_In. exact Hin.
      - apply list_elem_of_In. left. reflexivity. }
    rewrite (dict_set_fresh _ _ _ Hfresh).
    rewrite IH; cbn [kw_fields kw_unknown].
    + rewrite <- app_assoc. destruct kv. reflexivity.
    + exact Hus'.
    + rewrite <- app_assoc. destruct kv. exact Hnd.
Qed.

Lemma Headers_parse_loop_stop (kw : Kwargs) (lines : list text) :
  no_header_next lines -> Headers_parse_loop kw lines = (kw, lines, []).
Proof.
  destruct lines as [|l lines]; [reflexivity|]. cbn [no_header_next].
  intros Hl. cbn [Headers_parse_loop]. rewrite Hl. reflexivity.
Qed.

Lemma entries_cons (h : Headers) (key : string) (keys : list string) :
  entries h (key :: keys)
  = match getattr h key with
    | Some v => (T key, v) :: entries h keys
    | None => entries h keys
    end.
Proof. unfold entries. simpl. destruct (getattr h key); reflexivity. Qed.

Lemma entries_lines (h : Headers) (keys : list string) :
  omap (fun key => (fun v => header_line (T key) (value_str v)) <$> getattr h key) keys
  = map entry_line (entries h keys).
Proof.
  induction keys as [|key keys IH]; [reflexivity|].
  rewrite entries_cons. simpl. destruct (getattr h key); simpl; rewrite <- IH; reflexivity.
Qed.

Lemma entries_Forall (h : Headers) (P : text * value -> Prop) (keys : list string) :
  Forall (fun key => forall v, getattr h key = Some v -> P (T key, v)) keys ->
  Forall P (entries h keys).
Proof.
  induction 1 as [|key keys Hk _ IH]; [constructor|].
  rewrite entries_cons. destruct (getattr h key) as [v|]; [|exact IH].
  constructor; [apply Hk; reflexivity | exact IH].
Qed.

Lemma store_all_unknown (es : list (text * value)) :
  forall kw : Kwargs, kw_unknown (store_all kw es) = kw_unknown kw.
Proof.
  induction es as [|e es IH]; intros kw; [reflexivity|].
  unfold store_all in *. cbn [fold_left]. rewrite IH. reflexivity.
Qed.

Lemma fields_written (h : Headers) (k : text) (keys : list string) :
  forall kw : Kwargs,
    kw_fields (store_all kw (entries h keys)) !! k
    = written h keys k (kw_fields kw !! k).
Proof.
  induction keys as [|key keys IH]; intros kw; [reflexivity|].
  rewrite entries_cons. unfold written. cbn [fold_left]. fold (written h keys k).
  destruct (getattr h key) as [v|].
  - change (store_all kw ((T key, v) :: entries h keys))
      with (store_all (mkKwargs (<[T key := v]> (kw_fields kw)) (kw_unknown kw))
              (entries h keys)).
    rewrite IH. cbn [kw_fields fst snd].
    destruct (text_eqb (T key) k) eqn:E.
    + apply text_eqb_eq in E. rewrite E, lookup_insert_eq. reflexivity.
    + rewrite lookup_insert_ne; [reflexivity|].
      intros E'. rewrite E', text_eqb_refl in E. discriminate E.
  - rewrite IH. destruct (text_eqb (T key) k); reflexivity.
Qed.

Lemma fields_written0 (h : Headers) (k : text) :
  kw_fields (store_all kwargs0 (entries h str_keys)) !! k
  = written h str_keys k None.
Proof. rewrite fields_written. reflexivity. Qed.

Ltac known_key Hv Hok :=
  vm_compute in Hv;
  try match type of Hv with
      | context [match ?o with _ => _ end] => destruct o
      end;
  first [discriminate Hv | injection Hv as <-];
  split; [|reflexivity];
  split; [reflexivity|]; split; [reflexivity|]; split; [exact Hok|];
  repeat split; reflexivity.

Lemma known_entries_ok (h : Headers) :
  Forall (fun key =>
            forall v, getattr h key = Some v -> value_ok v ->
                      entry_ok (T key, v) /\ contains LF (upper (T key)) = false)
         str_keys.
Proof.
  unfold str_keys.
  repeat (constructor; [intros v Hv Hok; known_key Hv Hok|]).
  constructor.
Qed.

Lemma wf_entries (h : Headers) :
  wf_headers h ->
  Forall (fun e => entry_ok e /\ contains LF (upper (fst e)) = false)
         (entries h str_keys).
Proof.
  intros (Hv & _). apply entries_Forall.
  pose proof (known_entries_ok h) as Hk. revert Hv Hk.
  generalize str_keys as keys.
  induction keys as [|key keys IH]; intros Hv Hk; [constructor|].
  inversion_clear Hv as [|? ? Hv1 Hv2]. inversion_clear Hk as [|? ? Hk1 Hk2].
  constructor; [|apply (IH Hv2 Hk2)].
  intros v Hg. rewrite Hg in Hv1. apply (Hk1 v Hg Hv1).
Qed.

Lemma header_line_lines (key val : text) :
  contains LF (upper key) = false -> one_line val = true ->
  nonempty_lines (header_line key val) = [header_line key val].
Proof.
  intros Hk Hv. apply nonempty_lines_line.
  - unfold header_line. cbn [T list_ascii_of_string app]. discriminate.
  - unfold one_line in *. apply negb_true_iff in Hv. apply negb_true_iff.
    unfold header_line.
    change (T "#" ++ upper key ++ T ":" ++ val)
      with ("#"%char :: upper key ++ ":"%char :: val).
    rewrite contains_cons, contains_app, contains_cons, Hk, Hv. reflexivity.
Qed.

Lemma flat_single_lines (ls : list text) :
  Forall (fun l => nonempty_lines l = [l]) ls -> flat_map nonempty_lines ls = ls.
Proof.
  induction 1 as [|l ls Hl _ IH]; [reflexivity|].
  cbn [flat_map]. rewrite Hl, IH. reflexivity.
Qed.

Lemma Forall_map_lines {A} (f : A -> text) (P : A -> Prop) (l : list A) :
  (forall x, P x -> nonempty_lines (f x) = [f x]) ->
  Forall P l -> Forall (fun l => nonempty_lines l = [l]) (map f l).
Proof.
  intros Hf. induction 1 as [|x l Hx _ IH]; [constructor|].
  cbn [map]. constructor; [apply Hf, Hx | exact IH].
Qed.

(** The lines [SongTxt.try_parse] makes of the written headers. *)
Lemma Headers_str_lines (h : Headers) :
  wf_headers h ->
  nonempty_lines (Headers_str h)
  = map entry_line (entries h str_keys) ++ map unknown_line (unknown h).
Proof.
  intros Hwf. pose proof (wf_entries h Hwf) as Hes. destruct Hwf as (_ & Hus & _).
  assert (H1 : flat_map nonempty_lines (map entry_line (entries h str_keys))
               = map entry_line (entries h str_keys)).
  { apply flat_single_lines.
    apply (Forall_map_lines entry_line _ _ (fun e He =>
             header_line_lines (fst e) (value_str (snd e)) (proj2 He)
               (proj1 (proj2 (proj1 (proj2 (proj2 (proj1 He))))))) Hes). }
  assert (H2 : flat_map nonempty_lines (map unknown_line (unknown h))
               = map unknown_line (unknown h)).
  { apply flat_single_lines.
    apply (Forall_map_lines unknown_line unknown_ok); [|exact Hus].
    intros kv (_ & _ & _ & _ & Hl & _ & Hv). apply header_line_lines; [|exact Hv].
    rewrite upper_LF. unfold one_line in Hl. apply negb_true_iff in Hl. exact Hl. }
  unfold Headers_str. rewrite entries_lines.
  change (map (fun kv => header_line (fst kv) (snd kv)) (unknown h))
    with (map unknown_line (unknown h)).
  destruct (unknown h) as [|u us].
  - rewrite nonempty_lines_join, H1, app_nil_r. reflexivity.
  - rewrite nonempty_lines_join. cbn [flat_map].
    rewrite nonempty_lines_join, H1.
    change (nonempty_lines (unknown_line u)
            ++ flat_map nonempty_lines (map unknown_line us))
      with (flat_map nonempty_lines (map unknown_line (u :: us))).
    rewrite H2. reflexivity.
Qed.

Lemma Headers_init_fields (h : Headers) (m : gmap text value) :
  (forall k, m !! k = written h str_keys k None) ->
  Headers_init (mkKwargs m (unknown h)) (title h) (artist h) = without_encoding h.
Proof.
  intros Hm. unfold Headers_init, without_encoding, kw_str, kw_float, kw_int.
  cbn [kw_fields kw_unknown]. rewrite !Hm. clear Hm m.
  destruct h. f_equal; try reflexivity; lazy;
    match goal with
    | |- context [match ?o with _ => _ end] => destruct o; reflexivity
    end.
Qed.

Lemma Headers_parse_fields (h : Headers) (m : gmap text value)
    (lines rest : list text) :
  Headers_parse_loop kwargs0 lines = (mkKwargs m (unknown h), rest, []) ->
  (forall k, m !! k = written h str_keys k None) ->
  Headers_parse lines = (inr (without_encoding h), rest, []).
Proof.
  intros Hloop Hm. unfold Headers_parse. rewrite Hloop.
  unfold kw_str. cbn [kw_fields]. rewrite !Hm.
  change (written h str_keys (T "title") None) with (Some (VStr (title h))).
  change (written h str_keys (T "artist") None) with (Some (VStr (artist h))).
  change (written h str_keys (T "bpm") None) with (Some (VFloat (bpm h))).
  cbv beta iota delta [default from_option id app].
  rewrite (Headers_init_fields h m Hm). reflexivity.
Qed.

Lemma Headers_parse_loop_written (h : Headers) (rest : list text) :
  wf_headers h -> no_header_next rest ->
  Headers_parse_loop kwargs0 (nonempty_lines (Headers_str h) ++ rest)
  = (mkKwargs (kw_fields (store_all kwargs0 (entries h str_keys))) (unknown h),
     rest, []).
Proof.
  intros Hwf Hrest. rewrite (Headers_str_lines h Hwf), <- app_assoc.
  pose proof (wf_entries h Hwf) as Hes. destruct Hwf as (_ & Hus & Hnd).
  assert (Hes' : Forall entry_ok (entries h str_keys)).
  { clear -Hes. induction Hes as [|e es [He _] _ IH]; constructor; auto. }
  rewrite (Headers_parse_loop_entries _ _ _ Hes').
  rewrite (Headers_parse_loop_unknowns _ _ _ Hus)
    by (rewrite store_all_unknown; exact Hnd).
  rewrite (Headers_parse_loop_stop _ _ Hrest).
  rewrite store_all_unknown. reflexivity.
Qed.

Lemma Headers_parse_written (h : Headers) (rest : list text) :
  wf_headers h -> no_header_next rest ->
  Headers_parse (nonempty_lines (Headers_str h) ++ rest)
  = (inr (without_encoding h), rest, []).
Proof.
  intros Hwf Hrest.
  apply (Headers_parse_fields h _ _ rest (Headers_parse_loop_written h rest Hwf Hrest)).
  intros k. apply fields_written0.
Qed.

(** The headers are read back from their text with every attribute as
    it was, except the encoding, which is not written and so is read as
    [None]; the lines after the headers are left, and no warning is
    logged. *)
Theorem X_headers_round_trip (h : Headers) (rest : list text) :
  wf_headers h -> no_header_next rest ->
  Headers_parse (nonempty_lines (Headers_str h) ++ rest)
  = (inr (without_encoding h), rest, []).
Proof. intros Hwf Hrest. apply (Headers_parse_written h rest Hwf Hrest). Qed.

End HeadersRoundTrip.

(** ** Reading a chart back *)

Section SongRoundTrip.
Import Text NotesParser.
Context `{PyFloat} `{MetaTagsDeserializer} `{Hrepr : PyRepr}.

Lemma written_lines_head (ls : list Line) (rest : list text) :
  wf_lines ls = true -> no_header_next (flat_map line_lines ls ++ T "E" :: rest).
Proof.
  intros Hwf. destruct ls as [|l ls]; [reflexivity|].
  pose proof (wf_lines_Forall _ Hwf) as Hall. inversion Hall as [|? ? Hl _]; subst.
  destruct (wf_line_notes l Hl) as [Hne _].
  cbn [flat_map]. unfold line_lines at 1.
  destruct (notes l) as [|n ns]; [congruence|]. cbn [map app].
  destruct (Note_str_head n) as (c & s & -> & Hc).
  destruct (kind_char_plain c Hc) as (_ & _ & _ & _ & Hh).
  cbn [no_header_next startswith T list_ascii_of_string].
  apply not_eq_sym, ascii_eqb_neq in Hh. rewrite Hh. reflexivity.
Qed.

Lemma body_lines_head (p : PlayerNotes) :
  wf_notes p = true -> no_header_next (body_lines p).
Proof.
  unfold wf_notes, body_lines. intros Hwf. apply andb_true_iff in Hwf as [H1 _].
  destruct (player_2 p) as [[|l ls]|].
  - apply (written_lines_head _ [] H1).
  - reflexivity.
  - apply (written_lines_head _ [] H1).
Qed.

(** [try_parse] on the text of a well-formed chart. *)
Lemma try_parse_written (c : SongTxt) :
  wf_chart c ->
  try_parse (SongTxt_str c)
  = Some (Returns (Some (mkSongTxt (without_encoding (headers c)) (notes_ c)
                           (fst (MetaTags_new (default [] (video (headers c))))))),
          snd (MetaTags_new (default [] (video (headers c))))).
Proof.
  intros [Hh Hn]. unfold try_parse, SongTxt_str.
  change (Headers_str (headers c) ++ [LF] ++ PlayerNotes_str (notes_ c))
    with (Headers_str (headers c) ++ LF :: PlayerNotes_str (notes_ c)).
  rewrite nonempty_lines_app, (PlayerNotes_str_lines _ Hn).
  rewrite (Headers_parse_written _ _ Hh (body_lines_head _ Hn)).
  change (video (without_encoding (headers c))) with (video (headers c)).
  destruct (MetaTags_new (default [] (video (headers c)))) as [mt lg_mt].
  rewrite (PlayerNotes_parse_body _ Hn). cbn [fst snd app].
  rewrite app_nil_r. reflexivity.
Qed.

(** A chart is read back from its text with the notes and every header
    as they were, except that the encoding is read as [None] and the
    meta tags are made anew from the [#VIDEO] header; nothing but the
    warnings of the meta tags is logged. *)
Theorem X_song_txt_round_trip (c : SongTxt) :
  wf_chart c ->
  try_parse (SongTxt_str c)
  = Some (Returns (Some (mkSongTxt (without_encoding (headers c)) (notes_ c)
                           (fst (MetaTags_new (default [] (video (headers c))))))),
          snd (MetaTags_new (default [] (video (headers c))))).
Proof. apply try_parse_written. Qed.


End SongRoundTrip.

Section RoundTripWitnesses.
Import Text NotesParser.
#[local] Existing Instance whole_floats.
#[local] Existing Instance kept_meta_tags.
#[local] Existing Instance plain_list_str.

Ltac concrete_headers :=
  split; [|split; constructor];
  unfold str_keys;
  repeat (constructor;
          [lazy; first [exact I | repeat split; first [discriminate | reflexivity]]|]);
  constructor.

Lemma X_headers_round_trip_witness :
  Headers_parse (nonempty_lines (Headers_str (headers encoded_chart)) ++ [T "E"])
  = (inr (without_encoding (headers encoded_chart)), [T "E"], []).
Proof.
  apply (X_headers_round_trip (headers encoded_chart) [T "E"]).
  - concrete_headers.
  - reflexivity.
Defined.




Lemma X_song_txt_round_trip_witness :
  try_parse (SongTxt_str encoded_chart)
  = Some (Returns
            (Some (mkSongTxt (without_encoding (headers encoded_chart))
                     (notes_ encoded_chart)
                     (fst (MetaTags_new (default [] (video (headers encoded_chart))))))),
          snd (MetaTags_new (default [] (video (headers encoded_chart))))).
Proof.
  apply (X_song_txt_round_trip encoded_chart). split.
  - concrete_headers.
  - reflexivity.
Defined.

End RoundTripWitnesses.

(** ** What [try_parse] returns *)

Section TryParse.
Import Text NotesParser.
Context `{PyFloat} `{MetaTagsDeserializer} `{Hrepr : PyRepr}.

(** [Headers.parse] leaves short lines of short lines. *)
Lemma Headers_parse_loop_short (lines : list text) :
  forall kw : Kwargs,
    Forall short lines -> Forall short (Headers_parse_loop kw lines).1.2.
Proof.
  induction lines as [|l lines IH]; intros kw Hs; [constructor|].
  pose proof Hs as Hs'. apply Forall_cons in Hs' as [_ Hs'].
  cbn [Headers_parse_loop].
  destruct (negb (startswith (T "#") l)); [exact Hs|].
  destruct (negb (contains ":" (removeprefix (T "#") l))).
  - specialize (IH kw Hs').
    destruct (Headers_parse_loop kw lines) as [[kw' rest] lg]. exact IH.
  - destruct (split_max ":" 1 (removeprefix (T "#") l))
      as [|header [|val [|? ?]]]; try apply (IH _ Hs').
    destruct val as [|c val]; [apply (IH _ Hs')|].
    destruct (_set_header_value kw header (c :: val)); [apply (IH _ Hs')|].
    specialize (IH kw Hs').
    destruct (Headers_parse_loop kw lines) as [[kw' rest] lg]. exact IH.
Qed.

Lemma Headers_parse_short (lines : list text) :
  Forall short lines -> Forall short (Headers_parse lines).1.2.
Proof.
  intros Hs. unfold Headers_parse.
  pose proof (Headers_parse_loop_short lines kwargs0 Hs) as Hr.
  destruct (Headers_parse_loop kwargs0 lines) as [[kw rest] lg].
  destruct (kw_fields kw !! T "title"); [|exact Hr].
  destruct (kw_fields kw !! T "artist"); exact Hr.
Qed.

(** [SongTxt.try_parse] ends on every text.  When it returns, it
    returns [None] exactly when [Headers.parse] raises: no line after
    the headers, however malformed, makes it return without the chart.
    It returns unless the [ValueError] that [int] raises on a beat of a
    line-break record, which nothing catches, leaves it: that takes
    headers with a title and an artist and a line of more than 4300
    characters. *)
Theorem X_try_parse_returns (v : text) :
  exists (out : outcome (option SongTxt)) (lg : log),
    try_parse v = Some (out, lg)
    /\ match out with
       | Returns r =>
           r = None <-> raised (Headers_parse (nonempty_lines v)).1.1 = true
       | RaisesValueError =>
           raised (Headers_parse (nonempty_lines v)).1.1 = false
           /\ Exists long (nonempty_lines v)
       end.
Proof.
  unfold try_parse.
  pose proof (Headers_parse_short (nonempty_lines v)) as Hshort.
  destruct (Headers_parse (nonempty_lines v)) as [[[err|hd] rest] lg];
    cbn [fst snd raised] in *.
  - exists (Returns None), lg. split; [reflexivity|]. split; reflexivity.
  - destruct (MetaTags_new (default [] (video hd))) as [mt lg_mt].
    destruct (PlayerNotes_parse_total rest) as [[[[pn rest']|] lg'] Hp]; rewrite Hp.
    + eexists _, _. split; [reflexivity|]. split; discriminate.
    + eexists _, _. split; [reflexivity|]. split; [reflexivity|].
      destruct (short_or_long (nonempty_lines v)) as [Hs|Hl]; [|exact Hl].
      destruct (PlayerNotes_parse_short rest (Hshort Hs)) as (p & r & lg2 & Hp' & _).
      rewrite Hp' in Hp. discriminate Hp.
Qed.

End TryParse.

(** ** The header named author *)

Section AuthorHeader.
Import Text NotesParser.
Context `{PyFloat}.

Lemma Headers_parse_loop_line (kw kw' : Kwargs) (header val : text)
    (lines : list text) :
  contains ":" header = false -> val <> [] ->
  _set_header_value kw header val = Some kw' ->
  Headers_parse_loop kw ((T "#" ++ header ++ T ":" ++ val) :: lines)
  = Headers_parse_loop kw' lines.
Proof.
  intros Hh Hv Hset.
  change (T "#" ++ header ++ T ":" ++ val) with ("#"%char :: header ++ ":"%char :: val).
  cbn [Headers_parse_loop].
  change (startswith (T "#") ("#"%char :: header ++ ":"%char :: val)) with true.
  change (removeprefix (T "#") ("#"%char :: header ++ ":"%char :: val))
    with (header ++ ":"%char :: val).
  destruct (split_max_1_header header val Hh) as [-> ->]. cbn [negb].
  destruct val as [|c val]; [congruence|]. rewrite Hset. reflexivity.
Qed.

Lemma lower_no_colon (header : text) :
  contains ":" (lower header) = false -> contains ":" header = false.
Proof.
  unfold contains, lower. induction header as [|c header IH]; [reflexivity|].
  cbn [map existsb]. intros Hc. apply orb_false_iff in Hc as [Hc Hh].
  rewrite (IH Hh), orb_false_r.
  destruct (ascii_eqb ":" c) eqn:E; [|reflexivity].
  apply ascii_eqb_eq in E. subst c. discriminate Hc.
Qed.

(** A header whose name is [author] in any spelling but all capitals is
    kept as the unknown header [author]; [Headers.__str__] writes it as
    [#AUTHOR:], and that line is read as the creator: the unknown header
    [author] is not read back. *)
Theorem X_author_header_becomes_creator (kw : Kwargs) (header v : text)
    (lines : list text) :
  lower header = T "author" -> header <> T "AUTHOR" -> v <> [] ->
  Headers_parse_loop kw ((T "#" ++ header ++ T ":" ++ v) :: lines)
  = Headers_parse_loop
      (mkKwargs (kw_fields kw) (dict_set (T "author") v (kw_unknown kw))) lines
  /\ Headers_parse_loop kw (header_line (T "author") v :: lines)
     = Headers_parse_loop
         (mkKwargs (<[T "creator" := VStr v]> (kw_fields kw)) (kw_unknown kw)) lines.
Proof.
  intros Hl Hne Hv. split.
  - apply Headers_parse_loop_line; [|exact Hv|].
    + apply lower_no_colon. rewrite Hl. reflexivity.
    + unfold _set_header_value.
      destruct (text_eqb header (T "AUTHOR")) eqn:E;
        [apply text_eqb_eq in E; congruence|].
      rewrite Hl. reflexivity.
  - apply Headers_parse_loop_set; [reflexivity | exact Hv | reflexivity].
Qed.

End AuthorHeader.

Section AuthorWitness.
Import Text NotesParser.
#[local] Existing Instance whole_floats.

Lemma X_author_header_becomes_creator_witness :
  Headers_parse_loop kwargs0 [T "#" ++ T "Author" ++ T ":" ++ T "me"]
  = Headers_parse_loop (mkKwargs (kw_fields kwargs0)
                          (dict_set (T "author") (T "me") (kw_unknown kwargs0))) []
  /\ Headers_parse_loop kwargs0 [header_line (T "author") (T "me")]
     = Headers_parse_loop
         (mkKwargs (<[T "creator" := VStr (T "me")]> (kw_fields kwargs0))
            (kw_unknown kwargs0)) [].
Proof.
  apply (X_author_header_becomes_creator kwargs0 (T "Author") (T "me") []).
  - reflexivity.
  - discriminate.
  - discriminate.
Defined.

End AuthorWitness.

(** ** Quoting for the full-text search *)

Section Fts5.
Import Text Db DbStatements.

Lemma contains_false (c : ascii) (s : text) : contains c s = false <-> ~ In c s.
Proof.
  unfold contains. split.
  - intros Hc Hin. assert (Ht : existsb (ascii_eqb c) s = true).
    { apply existsb_exists. exists c. split; [exact Hin | apply ascii_eqb_refl]. }
    congruence.
  - intros Hn. destruct (existsb (ascii_eqb c) s) eqn:E; [|reflexivity].
    apply existsb_exists in E as (x & Hx & E). apply ascii_eqb_eq in E. subst x.
    contradiction.
Qed.

Lemma split_words (sep : ascii) (s : text) :
  forall w, In w (split sep s) ->
            contains sep w = false /\ forall c, In c w -> In c s.
Proof.
  induction s as [|c s IH]; intros w Hw.
  - destruct Hw as [<-|[]]. split; [reflexivity | auto].
  - cbn [split] in Hw. destruct (ascii_eqb c sep) eqn:E.
    + destruct Hw as [<-|Hw]; [split; [reflexivity | intros ? []]|].
      destruct (IH w Hw) as [H1 H2]. split; [exact H1|].
      intros x Hx. right. apply (H2 x Hx).
    + destruct (split sep s) as [|w0 ws] eqn:Hs.
      * destruct Hw as [<-|[]]. split.
        -- rewrite contains_cons, ascii_eqb_sym, E. reflexivity.
        -- intros x [<-|[]]. left. reflexivity.
      * destruct Hw as [<-|Hw].
        -- destruct (IH w0 (or_introl eq_refl)) as [H1 H2]. split.
           ++ rewrite contains_cons, ascii_eqb_sym, E, H1. reflexivity.
           ++ intros x [<-|Hx]; [left; reflexivity | right; apply (H2 x Hx)].
        -- destruct (IH w (or_intror Hw)) as [H1 H2]. split; [exact H1|].
           intros x Hx. right. apply (H2 x Hx).
Qed.

Lemma replace_removes (c : ascii) (s : text) : contains c (replace c (T "") s) = false.
Proof.
  apply contains_false. intros Hin. apply In_replace in Hin as [[]|[_ Hne]].
  congruence.
Qed.

(** The text [_fts5_phrases] makes is a sequence of phrases in double
    quotes with one space between them, where no phrase is empty or
    holds a double quote or a space; and [_fts5_start_phrase] makes one
    phrase in double quotes that holds no double quote: no text leaves
    the quotes it is put in. *)
Theorem X_fts5_phrases_quoted (txt : text) :
  (exists ws : list text,
      _fts5_phrases txt
      = join (T " ") (map (fun w => [Utils.dquote] ++ w ++ [Utils.dquote]) ws)
      /\ Forall (fun w => w <> [] /\ contains Utils.dquote w = false
                          /\ contains " " w = false) ws)
  /\ (exists body : text,
         _fts5_start_phrase txt = T "^ " ++ [Utils.dquote] ++ body ++ [Utils.dquote]
         /\ contains Utils.dquote body = false).
Proof.
  split.
  - exists (filter (fun s => s <> []) (split " " (replace Utils.dquote (T "") txt))).
    split; [reflexivity|].
    apply Forall_forall. intros w Hw.
    apply list_elem_of_filter in Hw as [Hne Hw]. apply list_elem_of_In in Hw.
    destruct (split_words _ _ w Hw) as [Hsp Hsub].
    split; [exact Hne|]. split; [|exact Hsp].
    apply contains_false. intros Hin. apply Hsub in Hin.
    pose proof (replace_removes Utils.dquote txt) as Hq.
    apply contains_false in Hq. contradiction.
  - exists (replace Utils.dquote (T "") txt). split; [reflexivity|].
    apply replace_removes.
Qed.

End Fts5.

(** ** The title without its tags *)

Section Title.
Import Text SongLoaderStages.

Lemma closes_intro (mid post : text) :
  contains LF mid = false -> closes (mid ++ "]"%char :: post) = true.
Proof.
  induction mid as [|c mid IH]; intros Hm; [reflexivity|].
  rewrite contains_cons in Hm. apply orb_false_iff in Hm as [Hc Hm].
  cbn [app closes]. destruct (ascii_eqb c "]"); [reflexivity|].
  rewrite ascii_eqb_sym, Hc. apply (IH Hm).
Qed.

Lemma closes_elim (s : text) :
  closes s = true ->
  exists mid post, s = mid ++ "]"%char :: post /\ contains LF mid = false.
Proof.
  induction s as [|c s IH]; [discriminate|]. cbn [closes].
  destruct (ascii_eqb c "]") eqn:E.
  - intros _. apply ascii_eqb_eq in E. subst c. exists [], s. auto.
  - destruct (ascii_eqb c LF) eqn:E'; [discriminate|]. intros Hc.
    destruct (IH Hc) as (mid & post & -> & Hm). exists (c :: mid), post.
    split; [reflexivity|]. rewrite contains_cons, ascii_eqb_sym, E', Hm. reflexivity.
Qed.

Lemma closes_sub (s : text) :
  closes (sub_brackets false s) = true -> closes s = true.
Proof.
  induction s as [|c s IH]; [discriminate|]. cbn [sub_brackets closes].
  destruct (ascii_eqb c "[" && closes s) eqn:E.
  - apply andb_true_iff in E as [Hc Hs]. intros _.
    apply ascii_eqb_eq in Hc. subst c. exact Hs.
  - cbn [closes]. destruct (ascii_eqb c "]"); [reflexivity|].
    destruct (ascii_eqb c LF); [discriminate | exact IH].
Qed.

Lemma not_bracketed_sub (s : text) :
  forall skip : bool, ~ bracketed (sub_brackets skip s).
Proof.
  induction s as [|c s IH]; intros skip Hb.
  - destruct Hb as (pre & mid & post & Heq & _). destruct pre; discriminate Heq.
  - cbn [sub_brackets] in Hb. destruct skip; [apply (IH _ Hb)|].
    destruct (ascii_eqb c "[" && closes s) eqn:E; [apply (IH _ Hb)|].
    destruct Hb as (pre & mid & post & Heq & Hm). destruct pre as [|x pre].
    + cbn [app] in Heq. injection Heq as Hc Hout. subst c.
      rewrite ascii_eqb_refl in E. cbn [andb] in E.
      assert (Hcl : closes (sub_brackets false s) = true)
        by (rewrite Hout; apply closes_intro, Hm).
      apply closes_sub in Hcl. congruence.
    + cbn [app] in Heq. injection Heq as _ Hout.
      apply (IH false). exists pre, mid, post. auto.
Qed.

Lemma sub_brackets_id (s : text) : ~ bracketed s -> sub_brackets false s = s.
Proof.
  induction s as [|c s IH]; intros Hn; [reflexivity|]. cbn [sub_brackets].
  destruct (ascii_eqb c "[" && closes s) eqn:E.
  - exfalso. apply Hn. apply andb_true_iff in E as [Hc Hs].
    apply ascii_eqb_eq in Hc. subst c.
    destruct (closes_elim s Hs) as (mid & post & -> & Hm). exists [], mid, post. auto.
  - f_equal. apply IH. intros (pre & mid & post & -> & Hm).
    apply Hn. exists (c :: pre), mid, post. auto.
Qed.

Lemma bracketed_middle (a s b : text) : bracketed s -> bracketed (a ++ s ++ b).
Proof.
  intros (pre & mid & post & -> & Hm). exists (a ++ pre), mid, (post ++ b).
  split; [|exact Hm]. rewrite <- !app_assoc. cbn [app]. rewrite <- app_assoc. reflexivity.
Qed.

Lemma lstrip_by_suffix (p : ascii -> bool) (s : text) :
  exists a, s = a ++ lstrip_by p s.
Proof.
  induction s as [|c s [a IH]]; [exists []; reflexivity|]. cbn [lstrip_by].
  destruct (p c); [|exists []; reflexivity].
  exists (c :: a). cbn [app]. rewrite <- IH. reflexivity.
Qed.

Lemma strip_middle (s : text) : exists a b, s = a ++ strip s ++ b.
Proof.
  unfold strip, lstrip, rstrip, rstrip_by.
  destruct (lstrip_by_suffix isspace (rev s)) as [b Hb].
  destruct (lstrip_by_suffix isspace (rev (lstrip_by isspace (rev s)))) as [a Ha].
  exists a, (rev b). rewrite app_assoc, <- Ha, <- rev_app_distr, <- Hb.
  symmetry. apply rev_involutive.
Qed.

Lemma strip_idem (s : text) : strip (strip s) = strip s.
Proof.
  unfold strip, lstrip, rstrip.
  set (r := rstrip_by isspace s).
  assert (Hr : stops isspace (rev r)).
  { unfold r, rstrip_by. rewrite rev_involutive.
    pose proof (lstrip_by_head isspace (rev s)) as Hh.
    destruct (lstrip_by isspace (rev s)); [exact I | exact Hh]. }
  assert (Hu : stops isspace (rev (lstrip_by isspace r))).
  { destruct (lstrip_by_suffix isspace r) as [a Ha].
    destruct (lstrip_by isspace r) as [|x u] eqn:E; [exact I|].
    rewrite Ha, rev_app_distr in Hr.
    destruct (rev (x :: u)) as [|y w] eqn:E'.
    - apply (f_equal (@length _)) in E'. rewrite length_rev in E'. discriminate E'.
    - exact Hr. }
  rewrite (rstrip_by_id _ _ Hu).
  apply lstrip_by_id. pose proof (lstrip_by_head isspace r) as Hh.
  destruct (lstrip_by isspace r); [exact I | exact Hh].
Qed.

(** The cleaned title has no opening square bracket with a closing one
    after it on the same line, whatever the title was, and cleaning it
    again changes nothing. *)
Theorem X_title_brackets_removed (title : text) :
  ~ bracketed (clean_title title)
  /\ clean_title (clean_title title) = clean_title title.
Proof.
  assert (Hn : ~ bracketed (clean_title title)).
  { unfold clean_title. intros Hb.
    destruct (strip_middle (sub_brackets false title)) as (a & b & Hs).
    apply (not_bracketed_sub title false). rewrite Hs.
    apply bracketed_middle, Hb. }
  split; [exact Hn|].
  unfold clean_title at 1. rewrite (sub_brackets_id _ Hn).
  unfold clean_title. apply strip_idem.
Qed.

End Title.
